(** * prb: a parallel read benchmark (main.go)

    A shallow embedding of [main.go]: the [Stats] counters, the reader
    loop body, [filepath.Walk] with the callback of [walk], and the
    goroutines of [traverse] as an interleaving transition system over
    two bounded channels and two wait groups. *)

From stdpp Require Import base relations list strings.
From Stdlib Require Import ZArith Lia DecimalString.

Local Open Scope Z_scope.

(** ** Machine integers *)

(** Two's complement wrap-around of [z] at [bits] bits. *)
Definition wrap (bits z : Z) : Z :=
  (z + 2 ^ (bits - 1)) mod 2 ^ bits - 2 ^ (bits - 1).

(** Go's [int] on the 64-bit targets the benchmark is run on. *)
Definition intSize : Z := 64.
Definition wrapInt : Z -> Z := wrap intSize.
Definition wrapInt64 : Z -> Z := wrap 64.

Definition inInt (z : Z) : Prop := - 2 ^ (intSize - 1) <= z < 2 ^ (intSize - 1).
Definition inInt64 (z : Z) : Prop := - 2 ^ 63 <= z < 2 ^ 63.

(** ** Stats *)

(** type Stats struct { files, dirs int; bytes int64 } *)
Record Stats := mkStats { files : Z; dirs : Z; bytes : Z }.

Definition zeroStats : Stats := mkStats 0 0 0.

(** func (s *Stats) Add(other Stats): the new value of [*s]. *)
Definition Add (s other : Stats) : Stats :=
  {| files := wrapInt (files s + files other);
     dirs := wrapInt (dirs s + dirs other);
     bytes := wrapInt64 (bytes s + bytes other) |}.

(** The aggregator's loop over a sequence of received stats. *)
Definition merge (total : Stats) (l : list Stats) : Stats :=
  fold_left Add l total.

(** Exact (unbounded) field-wise sums, used to state what the counters
    stand for. *)
Definition splus (a b : Stats) : Stats :=
  mkStats (files a + files b) (dirs a + dirs b) (bytes a + bytes b).

Definition ssum (l : list Stats) : Stats := foldr splus zeroStats l.

Definition norm (s : Stats) : Stats :=
  mkStats (wrapInt (files s)) (wrapInt (dirs s)) (wrapInt64 (bytes s)).

(** ** The operating system as seen by the program *)

Inductive error :=
| SkipDir
| SkipAll
| PathError (op path : string).

Definition is_SkipDir (e : error) : bool :=
  match e with SkipDir => true | _ => false end.
Definition is_SkipAll (e : error) : bool :=
  match e with SkipAll => true | _ => false end.

(** The part of [os.FileInfo] the program looks at. *)
Inductive FileMode := ModeRegular | ModeDir | ModeIrregular.

Definition IsRegular (fi : FileMode) : bool :=
  match fi with ModeRegular => true | _ => false end.
Definition IsDir (fi : FileMode) : bool :=
  match fi with ModeDir => true | _ => false end.

(** A directory tree. [Missing] is an entry whose [lstat] fails,
    [Irregular] a symlink, device, pipe or socket, [DirUnreadable] a
    directory whose listing fails. The children of [Dir] are in the
    order [readDirNames] returns them. *)
#[local] Unset Elimination Schemes.
Inductive fsnode :=
| Missing
| Regular
| Irregular
| DirUnreadable
| Dir (kids : list (string * fsnode)).
#[local] Set Elimination Schemes.

(** Induction over a tree, with the hypothesis for every child. *)
Fixpoint fsnode_ind (P : fsnode -> Prop)
    (HM : P Missing) (HR : P Regular) (HI : P Irregular) (HU : P DirUnreadable)
    (HD : forall kids, Forall (fun kv => P (snd kv)) kids -> P (Dir kids))
    (t : fsnode) {struct t} : P t :=
  match t with
  | Missing => HM
  | Regular => HR
  | Irregular => HI
  | DirUnreadable => HU
  | Dir kids =>
      HD kids
        ((fix go (l : list (string * fsnode)) : Forall (fun kv => P (snd kv)) l :=
            match l with
            | [] => List.Forall_nil _
            | kv :: l' =>
                @List.Forall_cons _ (fun kv => P (snd kv)) kv l' (fsnode_ind P HM HR HI HU HD (snd kv)) (go l')
            end) kids)
  end.

(** ** filepath.Clean and filepath.Join *)

Definition slash : Ascii.ascii := Ascii.ascii_of_nat 47.

Fixpoint has_slash (s : string) : bool :=
  match s with
  | EmptyString => false
  | String c s' => Ascii.eqb c slash || has_slash s'
  end.

(** The elements of a path: what stands between its slashes. *)
Fixpoint split_slash (s : string) : list string :=
  match s with
  | EmptyString => [EmptyString]
  | String c s' =>
      if Ascii.eqb c slash then EmptyString :: split_slash s'
      else match split_slash s' with
           | e :: es => String c e :: es
           | [] => [String c EmptyString]
           end
  end.

Definition is_rooted (path : string) : bool :=
  match path with
  | String c _ => Ascii.eqb c slash
  | EmptyString => false
  end.

(** The elements [Clean] keeps, the last one first: an empty element
    and [.] are dropped; [..] takes away the element before it, is
    dropped at the root, and is kept at the start of a path that is
    not rooted. *)
Fixpoint clean_elems (rooted : bool) (es acc : list string) : list string :=
  match es with
  | [] => acc
  | e :: es' =>
      if String.eqb e "" || String.eqb e "." then clean_elems rooted es' acc
      else if String.eqb e ".."
      then match acc with
           | top :: acc' =>
               if String.eqb top ".." then clean_elems rooted es' (e :: acc)
               else clean_elems rooted es' acc'
           | [] =>
               if rooted then clean_elems rooted es' acc
               else clean_elems rooted es' [e]
           end
      else clean_elems rooted es' (e :: acc)
  end.

(** [filepath.Clean], on Unix. *)
Definition Clean (path : string) : string :=
  let rooted := is_rooted path in
  let out := String.concat "/" (rev (clean_elems rooted (split_slash path) [])) in
  if rooted then String.append "/" out
  else if String.eqb out "" then "." else out.

(** [filepath.Join] of two elements: those that are not empty, joined
    by a slash and cleaned. *)
Definition Join (dir name : string) : string :=
  if String.eqb dir ""
  then if String.eqb name "" then "" else Clean name
  else Clean (String.append dir (String.append "/" name)).
Arguments Join : simpl never.

Definition lstat (path : string) (node : fsnode) : option FileMode * option error :=
  match node with
  | Missing => (None, Some (PathError "lstat" path))
  | Regular => (Some ModeRegular, None)
  | Irregular => (Some ModeIrregular, None)
  | DirUnreadable | Dir _ => (Some ModeDir, None)
  end.

(** What opening, reading and closing one path gives:
    [os.Open], [io.Copy(ioutil.Discard, f)] and [f.Close]. *)
Record FileIO := mkFileIO {
  open_err : option error;
  copy_n : Z;
  copy_err : option error;
  close_err : option error
}.

Definition readable (f : FileIO) : Prop :=
  open_err f = None /\ copy_err f = None /\ close_err f = None.

(** Lines written to standard error by the core. The progress lines
    [read <file>] depend on the clock and are left out. *)
Inductive logmsg :=
| LogUnableToRead (filename : string) (err : error)
| LogErrorReading (filename : string) (err : error)
| LogErrorClosing (filename : string) (err : error)
| LogErrorWalking (dir : string) (err : error).

(** ** readFile: the body of the loop over the task channel *)

Definition readFile_body (io : string -> FileIO) (filename : string)
  : list logmsg * option Stats :=
  let f := io filename in
  match open_err f with
  | Some err => ([LogUnableToRead filename err], None)
  | None =>
      let n := copy_n f in
      match copy_err f with
      | Some err => ([LogErrorReading filename err], None)
      | None =>
          match close_err f with
          | Some err => ([LogErrorClosing filename err], None)
          | None => ([], Some {| files := 1; dirs := 0; bytes := n |})
          end
      end
  end.

(** What one task adds to the totals. *)
Definition stat_of (io : string -> FileIO) (filename : string) : Stats :=
  match snd (readFile_body io filename) with
  | Some st => st
  | None => zeroStats
  end.
Arguments stat_of : simpl never.

(** ** filepath.Walk *)

(** The effects of the callback of [walk]: a send on the task channel
    or an increment of [dirs]. [WNil] is the dereference of a nil
    [FileInfo]. *)
Inductive wevent :=
| WEmit (item : string)
| WCount
| WNil.

Definition WalkFunc : Type :=
  string -> option FileMode -> option error -> list wevent * option error.

(** The function literal passed to [filepath.Walk] in [walk]. *)
Definition walkFn : WalkFunc :=
  fun item fi err =>
    match err with
    | Some e => ([], Some e)
    | None =>
        match fi with
        | None => ([WNil], None)
        | Some fi =>
            ((if IsRegular fi then [WEmit item] else []) ++
             (if IsDir fi then [WCount] else []), None)
        end
    end.

(** [filepath.walk], as in the current Go library: for a directory the
    names are read first and the callback is called once, with the
    error of the listing if it failed; an error the callback returns
    ends the walk, except [SkipDir] for a directory. The listing of
    [Dir kids] gives [kids], any other listing fails. *)
Fixpoint walk_rec (fn : WalkFunc) (path : string) (info : FileMode)
    (node : fsnode) {struct node} : list wevent * option error :=
  if negb (IsDir info) then fn path (Some info) None
  else
    match node with
    | Dir kids =>
        let '(ev1, err1) := fn path (Some info) None in
        match err1 with
        | Some _ => (ev1, err1)
        | None =>
            let '(evs, r) :=
              (fix loop (names : list (string * fsnode)) : list wevent * option error :=
                 match names with
                 | [] => ([], None)
                 | (name, child) :: rest =>
                     let filename := Join path name in
                     match lstat filename child with
                     | (fileInfo, Some err) =>
                         let '(ev, r) := fn filename fileInfo (Some err) in
                         match r with
                         | Some e =>
                             if is_SkipDir e
                             then let '(evs', r') := loop rest in (ev ++ evs', r')
                             else (ev, Some e)
                         | None => let '(evs', r') := loop rest in (ev ++ evs', r')
                         end
                     | (Some fileInfo, None) =>
                         let '(ev, r) := walk_rec fn filename fileInfo child in
                         match r with
                         | Some e =>
                             if negb (IsDir fileInfo) || negb (is_SkipDir e)
                             then (ev, Some e)
                             else let '(evs', r') := loop rest in (ev ++ evs', r')
                         | None => let '(evs', r') := loop rest in (ev ++ evs', r')
                         end
                     | (None, None) => ([WNil], None)
                     end
                 end) kids in
            (ev1 ++ evs, r)
        end
    | _ => fn path (Some info) (Some (PathError "open" path))
    end.

(** [filepath.Walk]. *)
Definition Walk (root : string) (tree : fsnode) (fn : WalkFunc)
  : list wevent * option error :=
  let '(evs, err) :=
    match lstat root tree with
    | (_, Some err) => fn root None (Some err)
    | (Some info, None) => walk_rec fn root info tree
    | (None, None) => ([WNil], None)
    end in
  match err with
  | Some e => if is_SkipDir e || is_SkipAll e then (evs, None) else (evs, Some e)
  | None => (evs, None)
  end.

(** ** The goroutines of traverse *)

(** Capacity of both channels: [make(chan string, 100)] and
    [make(chan Stats, 100)]. *)
Definition chanCap : nat := 100.

Inductive goroutine := GMain | GWalk | GReader (i : nat) | GAggregate.

(** Program points of [traverse] itself. *)
Inductive main_pc :=
| MLoop (i : Z)          (* for i := 0; i < workers; i++ *)
| MGoWalk                (* go walk(dir, ch, statsCh) *)
| MGoAggregate           (* statsWg.Add(1); go func() {...}() *)
| MWaitWg                (* wg.Wait() *)
| MCloseStats            (* close(statsCh) *)
| MWaitStatsWg           (* statsWg.Wait() *)
| MReturned (r : Stats). (* return stats *)

(** Program points of [walk]. *)
Inductive walk_pc :=
| WIdle                                             (* not started *)
| WWalk (evs : list wevent) (err : option error) (dirs : Z)
                                                    (* inside filepath.Walk *)
| WStat (dirs : Z)                                  (* stats <- Stats{dirs: dirs} *)
| WClose                                            (* deferred close(ch) *)
| WDone.

(** Program points of [readFile]. *)
Inductive reader_pc :=
| RRecv                  (* for filename := range ch *)
| RSend (s : Stats)      (* stats <- Stats{files: 1, bytes: n} *)
| RDone.                 (* after the deferred wg.Done() *)

(** Program points of the aggregating function literal. *)
Inductive agg_pc :=
| AIdle                  (* not started *)
| ARange                 (* for s := range statsCh *)
| ADone.                 (* after the deferred statsWg.Done() *)

(** What an observer of one run sees, in the order it happens. *)
Inductive event :=
| EvTask (item : string)                (* ch <- item *)
| EvTaken (i : nat) (item : string)     (* reader i received item *)
| EvLog (m : logmsg)
| EvStat (g : goroutine) (s : Stats)    (* stats <- s, sent by g *)
| EvMerge (s : Stats)                   (* stats.Add(s) *)
| EvCloseTasks (g : goroutine)          (* close(ch) *)
| EvCloseStats (g : goroutine)          (* close(statsCh) *)
| EvDone (g : goroutine)                (* wg.Done() or statsWg.Done() *)
| EvReturn (r : Stats)
| EvPanic (g : goroutine).

Record state := mkState {
  st_main : main_pc;
  st_walk : walk_pc;
  st_readers : list reader_pc;
  st_agg : agg_pc;
  st_ch : list string;
  st_ch_closed : bool;
  st_statsCh : list Stats;
  st_statsCh_closed : bool;
  st_wg : Z;
  st_statsWg : Z;
  st_stats : Stats;          (* the named result [stats] *)
  st_crashed : bool;         (* a goroutine panicked *)
  st_trace : list event
}.

Definition set_main (v : main_pc) (s : state) : state :=
  mkState v (st_walk s) (st_readers s) (st_agg s) (st_ch s) (st_ch_closed s)
    (st_statsCh s) (st_statsCh_closed s) (st_wg s) (st_statsWg s) (st_stats s)
    (st_crashed s) (st_trace s).
Definition set_walk (v : walk_pc) (s : state) : state :=
  mkState (st_main s) v (st_readers s) (st_agg s) (st_ch s) (st_ch_closed s)
    (st_statsCh s) (st_statsCh_closed s) (st_wg s) (st_statsWg s) (st_stats s)
    (st_crashed s) (st_trace s).
Definition set_readers (v : list reader_pc) (s : state) : state :=
  mkState (st_main s) (st_walk s) v (st_agg s) (st_ch s) (st_ch_closed s)
    (st_statsCh s) (st_statsCh_closed s) (st_wg s) (st_statsWg s) (st_stats s)
    (st_crashed s) (st_trace s).
Definition set_agg (v : agg_pc) (s : state) : state :=
  mkState (st_main s) (st_walk s) (st_readers s) v (st_ch s) (st_ch_closed s)
    (st_statsCh s) (st_statsCh_closed s) (st_wg s) (st_statsWg s) (st_stats s)
    (st_crashed s) (st_trace s).
Definition set_ch (v : list string) (s : state) : state :=
  mkState (st_main s) (st_walk s) (st_readers s) (st_agg s) v (st_ch_closed s)
    (st_statsCh s) (st_statsCh_closed s) (st_wg s) (st_statsWg s) (st_stats s)
    (st_crashed s) (st_trace s).
Definition set_ch_closed (v : bool) (s : state) : state :=
  mkState (st_main s) (st_walk s) (st_readers s) (st_agg s) (st_ch s) v
    (st_statsCh s) (st_statsCh_closed s) (st_wg s) (st_statsWg s) (st_stats s)
    (st_crashed s) (st_trace s).
Definition set_statsCh (v : list Stats) (s : state) : state :=
  mkState (st_main s) (st_walk s) (st_readers s) (st_agg s) (st_ch s) (st_ch_closed s)
    v (st_statsCh_closed s) (st_wg s) (st_statsWg s) (st_stats s)
    (st_crashed s) (st_trace s).
Definition set_statsCh_closed (v : bool) (s : state) : state :=
  mkState (st_main s) (st_walk s) (st_readers s) (st_agg s) (st_ch s) (st_ch_closed s)
    (st_statsCh s) v (st_wg s) (st_statsWg s) (st_stats s)
    (st_crashed s) (st_trace s).
Definition set_wg (v : Z) (s : state) : state :=
  mkState (st_main s) (st_walk s) (st_readers s) (st_agg s) (st_ch s) (st_ch_closed s)
    (st_statsCh s) (st_statsCh_closed s) v (st_statsWg s) (st_stats s)
    (st_crashed s) (st_trace s).
Definition set_statsWg (v : Z) (s : state) : state :=
  mkState (st_main s) (st_walk s) (st_readers s) (st_agg s) (st_ch s) (st_ch_closed s)
    (st_statsCh s) (st_statsCh_closed s) (st_wg s) v (st_stats s)
    (st_crashed s) (st_trace s).
Definition set_stats (v : Stats) (s : state) : state :=
  mkState (st_main s) (st_walk s) (st_readers s) (st_agg s) (st_ch s) (st_ch_closed s)
    (st_statsCh s) (st_statsCh_closed s) (st_wg s) (st_statsWg s) v
    (st_crashed s) (st_trace s).
Definition emit (evs : list event) (s : state) : state :=
  mkState (st_main s) (st_walk s) (st_readers s) (st_agg s) (st_ch s) (st_ch_closed s)
    (st_statsCh s) (st_statsCh_closed s) (st_wg s) (st_statsWg s) (st_stats s)
    (st_crashed s) (st_trace s ++ evs).

(** A panic stops the whole process, once the deferred calls of the
    goroutine that panics have run; what the other goroutines may
    still do while these run is left out. [panic] is a panic with no
    deferred call left to run. *)
Definition panic (g : goroutine) (s : state) : state :=
  mkState (st_main s) (st_walk s) (st_readers s) (st_agg s) (st_ch s) (st_ch_closed s)
    (st_statsCh s) (st_statsCh_closed s) (st_wg s) (st_statsWg s) (st_stats s)
    true (st_trace s ++ [EvPanic g]).

(** A panic in [walk]: the deferred [close(ch)] runs while the panic
    unwinds, and panics in its turn if the channel is closed. *)
Definition panic_walk (s : state) : state :=
  if st_ch_closed s then panic GWalk s
  else
    mkState (st_main s) (st_walk s) (st_readers s) (st_agg s) (st_ch s) true
      (st_statsCh s) (st_statsCh_closed s) (st_wg s) (st_statsWg s) (st_stats s)
      true (st_trace s ++ [EvPanic GWalk; EvCloseTasks GWalk]).

(** A panic in the body of the loop of [readFile]: the deferred
    [wg.Done()] runs while the panic unwinds, and panics in its turn
    if the counter would go below zero. *)
Definition panic_reader (i : nat) (s : state) : state :=
  if st_wg s <=? 0 then panic (GReader i) s
  else
    mkState (st_main s) (st_walk s) (st_readers s) (st_agg s) (st_ch s) (st_ch_closed s)
      (st_statsCh s) (st_statsCh_closed s) (st_wg s - 1) (st_statsWg s) (st_stats s)
      true (st_trace s ++ [EvPanic (GReader i); EvDone (GReader i)]).

(** The arguments of [traverse] and the file system it runs on. *)
Record World := mkWorld {
  w_workers : Z;
  w_dir : string;
  w_tree : fsnode;
  w_io : string -> FileIO
}.

Definition init : state :=
  mkState (MLoop 0) WIdle [] AIdle [] false [] false 0 0 zeroStats false [].

(** One step of [traverse] itself. *)
Definition step_main (w : World) (s : state) : option state :=
  match st_main s with
  | MLoop i =>
      if i <? w_workers w
      then Some (set_main (MLoop (i + 1))
                   (set_readers (st_readers s ++ [RRecv])
                      (set_wg (st_wg s + 1) s)))
      else Some (set_main MGoWalk s)
  | MGoWalk =>
      let '(evs, err) := Walk (w_dir w) (w_tree w) walkFn in
      Some (set_main MGoAggregate (set_walk (WWalk evs err 0) s))
  | MGoAggregate =>
      Some (set_main MWaitWg (set_agg ARange (set_statsWg (st_statsWg s + 1) s)))
  | MWaitWg =>
      if st_wg s =? 0 then Some (set_main MCloseStats s) else None
  | MCloseStats =>
      if st_statsCh_closed s then Some (panic GMain s)
      else Some (set_main MWaitStatsWg
                   (set_statsCh_closed true (emit [EvCloseStats GMain] s)))
  | MWaitStatsWg =>
      if st_statsWg s =? 0
      then Some (set_main (MReturned (st_stats s)) (emit [EvReturn (st_stats s)] s))
      else None
  | MReturned _ => None
  end.

(** One step of [walk]: the next effect of the callback, then the log
    line, the summary stat and the deferred close. The file system
    does not change during a run, so what [filepath.Walk] will have
    the callback do is known when [walk] starts ([step_main] puts it
    in [WWalk]); the steps do it one effect at a time, blocking where
    a send blocks. *)
Definition step_walk (w : World) (s : state) : option state :=
  match st_walk s with
  | WIdle => None
  | WWalk (WEmit item :: evs) err dirs =>
      if st_ch_closed s then Some (panic_walk s)
      else if (length (st_ch s) <? chanCap)%nat
      then Some (set_walk (WWalk evs err dirs)
                   (set_ch (st_ch s ++ [item]) (emit [EvTask item] s)))
      else None
  | WWalk (WCount :: evs) err dirs =>
      Some (set_walk (WWalk evs err (wrapInt (dirs + 1))) s)
  | WWalk (WNil :: evs) err dirs => Some (panic_walk s)
  | WWalk [] (Some e) dirs =>
      Some (set_walk (WStat dirs) (emit [EvLog (LogErrorWalking (w_dir w) e)] s))
  | WWalk [] None dirs => Some (set_walk (WStat dirs) s)
  | WStat dirs =>
      let st := {| files := 0; dirs := dirs; bytes := 0 |} in
      if st_statsCh_closed s then Some (panic_walk s)
      else if (length (st_statsCh s) <? chanCap)%nat
      then Some (set_walk WClose
                   (set_statsCh (st_statsCh s ++ [st]) (emit [EvStat GWalk st] s)))
      else None
  | WClose =>
      if st_ch_closed s then Some (panic GWalk s)
      else Some (set_walk WDone (set_ch_closed true (emit [EvCloseTasks GWalk] s)))
  | WDone => None
  end.

(** One step of the [i]-th [readFile]. Opening, reading and closing a
    file touch nothing the goroutines share, and are taken together
    with the receive: the lines a reader logs stand in the trace where
    its receive is, and their place among the events of the other
    goroutines says nothing about the program. *)
Definition step_reader (w : World) (i : nat) (s : state) : option state :=
  match st_readers s !! i with
  | None => None
  | Some RRecv =>
      match st_ch s with
      | filename :: rest =>
          let '(logs, r) := readFile_body (w_io w) filename in
          let pc := match r with Some st => RSend st | None => RRecv end in
          Some (set_readers (<[i := pc]> (st_readers s))
                  (set_ch rest (emit (EvTaken i filename :: map EvLog logs) s)))
      | [] =>
          if st_ch_closed s
          then if st_wg s <=? 0 then Some (panic (GReader i) s)
               else Some (set_readers (<[i := RDone]> (st_readers s))
                            (set_wg (st_wg s - 1) (emit [EvDone (GReader i)] s)))
          else None
      end
  | Some (RSend st) =>
      if st_statsCh_closed s then Some (panic_reader i s)
      else if (length (st_statsCh s) <? chanCap)%nat
      then Some (set_readers (<[i := RRecv]> (st_readers s))
                   (set_statsCh (st_statsCh s ++ [st]) (emit [EvStat (GReader i) st] s)))
      else None
  | Some RDone => None
  end.

(** One step of the aggregator. *)
Definition step_agg (s : state) : option state :=
  match st_agg s with
  | AIdle => None
  | ARange =>
      match st_statsCh s with
      | st :: rest =>
          Some (set_stats (Add (st_stats s) st)
                  (set_statsCh rest (emit [EvMerge st] s)))
      | [] =>
          if st_statsCh_closed s
          then if st_statsWg s <=? 0 then Some (panic GAggregate s)
               else Some (set_agg ADone
                            (set_statsWg (st_statsWg s - 1) (emit [EvDone GAggregate] s)))
          else None
      end
  | ADone => None
  end.

(** The step goroutine [g] takes in [s], if it is not blocked. *)
Definition step_of (w : World) (g : goroutine) (s : state) : option state :=
  if st_crashed s then None
  else match g with
       | GMain => step_main w s
       | GWalk => step_walk w s
       | GReader i => step_reader w i s
       | GAggregate => step_agg s
       end.

Definition step (w : World) (s s' : state) : Prop :=
  exists g, step_of w g s = Some s'.

(** Running a schedule: the goroutines named take their step in turn. *)
Fixpoint run (w : World) (sched : list goroutine) (s : state) : option state :=
  match sched with
  | [] => Some s
  | g :: sched' =>
      match step_of w g s with
      | Some s' => run w sched' s'
      | None => None
      end
  end.

Inductive reachable (w : World) : state -> Prop :=
| reach_init : reachable w init
| reach_step s s' : reachable w s -> step w s s' -> reachable w s'.

Definition returned (s : state) : option Stats :=
  match st_main s with
  | MReturned r => Some r
  | _ => None
  end.

(** [traverse] returns under every schedule, and [P] holds of the
    state it returns in and of the stats returned: whatever the
    scheduler does, a step is possible until [traverse] has returned,
    and no run goes on for ever. *)
Inductive always_returns (w : World) (P : state -> Stats -> Prop) : state -> Prop :=
| ar_returned s r : returned s = Some r -> P s r -> always_returns w P s
| ar_step s :
    returned s = None ->
    (exists s', step w s s') ->
    (forall s', step w s s' -> always_returns w P s') ->
    always_returns w P s.

(** ** What a run leaves to be counted *)

Fixpoint tasks_of (evs : list wevent) : list string :=
  match evs with
  | [] => []
  | WEmit item :: evs' => item :: tasks_of evs'
  | _ :: evs' => tasks_of evs'
  end.

Fixpoint counts_of (evs : list wevent) : Z :=
  match evs with
  | [] => 0
  | WCount :: evs' => 1 + counts_of evs'
  | _ :: evs' => counts_of evs'
  end.

Definition walk_script (w : World) : list wevent * option error :=
  Walk (w_dir w) (w_tree w) walkFn.

(** The totals of a run, from the walk alone: the files of the tasks
    sent that are read without an error, and the directories counted. *)
Definition expected_stats (w : World) : Stats :=
  norm (splus (ssum (map (stat_of (w_io w)) (tasks_of (fst (walk_script w)))))
              (mkStats 0 (counts_of (fst (walk_script w))) 0)).

Definition reader_holds (r : reader_pc) : Stats :=
  match r with RSend st => st | _ => zeroStats end.

Definition walk_holds (w : World) (pc : walk_pc) : Stats :=
  match pc with
  | WIdle =>
      splus (ssum (map (stat_of (w_io w)) (tasks_of (fst (walk_script w)))))
            (mkStats 0 (counts_of (fst (walk_script w))) 0)
  | WWalk evs _ d =>
      splus (ssum (map (stat_of (w_io w)) (tasks_of evs)))
            (mkStats 0 (d + counts_of evs) 0)
  | WStat d => mkStats 0 d 0
  | WClose | WDone => zeroStats
  end.

(** Everything counted so far or still on its way to the total. *)
Definition in_flight (w : World) (s : state) : Stats :=
  splus (st_stats s)
    (splus (ssum (st_statsCh s))
       (splus (ssum (map reader_holds (st_readers s)))
          (splus (ssum (map (stat_of (w_io w)) (st_ch s)))
             (walk_holds w (st_walk s))))).

(** ** A measure that every step decreases *)

Definition wevent_weight (e : wevent) : nat :=
  match e with WEmit _ => 4%nat | _ => 1%nat end.

Definition walk_weight (w : World) (pc : walk_pc) : nat :=
  match pc with
  | WIdle => (sum_list_with wevent_weight (fst (walk_script w)) + 5)%nat
  | WWalk evs _ _ => (sum_list_with wevent_weight evs + 4)%nat
  | WStat _ => 3%nat
  | WClose => 1%nat
  | WDone => 0%nat
  end.

Definition reader_weight (r : reader_pc) : nat :=
  match r with RRecv => 1%nat | RSend _ => 3%nat | RDone => 0%nat end.

Definition agg_weight (a : agg_pc) : nat :=
  match a with AIdle => 2%nat | ARange => 1%nat | ADone => 0%nat end.

Definition main_weight (w : World) (pc : main_pc) : nat :=
  match pc with
  | MLoop i => (2 * Z.to_nat (w_workers w - i) + 6)%nat
  | MGoWalk => 5%nat
  | MGoAggregate => 4%nat
  | MWaitWg => 3%nat
  | MCloseStats => 2%nat
  | MWaitStatsWg => 1%nat
  | MReturned _ => 0%nat
  end.

Definition measure (w : World) (s : state) : nat :=
  (main_weight w (st_main s) + walk_weight w (st_walk s)
   + sum_list_with reader_weight (st_readers s) + agg_weight (st_agg s)
   + 3 * length (st_ch s) + length (st_statsCh s)
   + (if st_crashed s then 0 else 1))%nat.

(** ** Invariants of the reachable states *)

(** How far [traverse] has come. *)
Definition rank (pc : main_pc) : nat :=
  match pc with
  | MLoop _ => 0%nat
  | MGoWalk => 1%nat
  | MGoAggregate => 2%nat
  | MWaitWg => 3%nat
  | MCloseStats => 4%nat
  | MWaitStatsWg => 5%nat
  | MReturned _ => 6%nat
  end.

Definition is_live (r : reader_pc) : bool :=
  match r with RDone => false | _ => true end.

Definition live (rs : list reader_pc) : nat :=
  sum_list_with (fun r => if is_live r then 1%nat else 0%nat) rs.

Definition normal (s : Stats) : Prop := norm s = s.

Definition is_WIdle (pc : walk_pc) : bool :=
  match pc with WIdle => true | _ => false end.
Definition is_WDone (pc : walk_pc) : bool :=
  match pc with WDone => true | _ => false end.
Definition is_AIdle (pc : agg_pc) : bool :=
  match pc with AIdle => true | _ => false end.

(** The control invariant: where the goroutines can be with respect
    to each other, and what the channels and wait groups hold then. *)
Record Inv (w : World) (s : state) : Prop := mkInv {
  inv_loop :
    match st_main s with
    | MLoop i => 0 <= i /\ (i <= w_workers w \/ i = 0)
                 /\ length (st_readers s) = Z.to_nat i
    | _ => length (st_readers s) = Z.to_nat (w_workers w)
    end;
  inv_walk_idle : is_WIdle (st_walk s) = (rank (st_main s) <? 2)%nat;
  inv_agg_idle : is_AIdle (st_agg s) = (rank (st_main s) <? 3)%nat;
  inv_wg : st_wg s = Z.of_nat (live (st_readers s));
  inv_statsWg : st_statsWg s = match st_agg s with ARange => 1 | _ => 0 end;
  inv_stats_closed : st_statsCh_closed s = (4 <? rank (st_main s))%nat;
  inv_joined : if (3 <? rank (st_main s))%nat then st_wg s = 0 else True;
  inv_ch_closed :
    if st_crashed s then True else st_ch_closed s = is_WDone (st_walk s);
  inv_reader_done : RDone ∈ st_readers s -> st_ch_closed s = true /\ st_ch s = [];
  inv_agg_done :
    match st_agg s with
    | ADone => st_statsCh_closed s = true /\ st_statsCh s = []
    | _ => True
    end;
  inv_returned :
    match st_main s with
    | MReturned r => r = st_stats s /\ st_agg s = ADone
    | _ => True
    end;
  inv_normal : normal (st_stats s);
  inv_no_nil :
    match st_walk s with
    | WWalk evs _ _ => WNil ∉ evs
    | _ => True
    end;
  inv_crashed :
    if st_crashed s
    then w_workers w <= 0
         /\ match st_walk s with WStat _ => True | _ => False end
         /\ st_statsCh_closed s = true
    else True
}.

(** ** The walk as a list of visits *)

(** The arguments of one call of the callback. *)
Definition visit : Type := string * option FileMode * option error.

(** Every entry of a tree in the order [filepath.Walk] comes to it,
    with the arguments the callback gets for it. *)
Fixpoint entries (path : string) (node : fsnode) {struct node} : list visit :=
  match node with
  | Missing => [(path, None, Some (PathError "lstat" path))]
  | Regular => [(path, Some ModeRegular, None)]
  | Irregular => [(path, Some ModeIrregular, None)]
  | DirUnreadable => [(path, Some ModeDir, Some (PathError "open" path))]
  | Dir kids =>
      (path, Some ModeDir, None) ::
      flat_map (fun kv => entries (Join path (fst kv)) (snd kv)) kids
  end.

(** Calling [fn] on the visits in turn, up to the first error it returns. *)
Fixpoint until_error (fn : WalkFunc) (vs : list visit) : list wevent * option error :=
  match vs with
  | [] => ([], None)
  | (path, fi, err) :: vs' =>
      let '(ev, r) := fn path fi err in
      match r with
      | Some e => (ev, Some e)
      | None => let '(evs, r') := until_error fn vs' in (ev ++ evs, r')
      end
  end.

Definition visit_error (v : visit) : option error := snd v.

(** A visit without an error comes with a [FileInfo]. *)
Definition visit_wf (v : visit) : Prop :=
  visit_error v = None -> exists fi, snd (fst v) = Some fi.

(** The visits before the first one that carries an error. *)
Fixpoint visited (vs : list visit) : list visit :=
  match vs with
  | [] => []
  | v :: vs' =>
      match visit_error v with
      | Some _ => []
      | None => v :: visited vs'
      end
  end.

(** The error of the first visit that carries one. *)
Fixpoint first_error (vs : list visit) : option error :=
  match vs with
  | [] => None
  | v :: vs' =>
      match visit_error v with
      | Some e => Some e
      | None => first_error vs'
      end
  end.

Definition files_in (vs : list visit) : list string :=
  flat_map (fun v : visit =>
              match v with
              | (path, Some ModeRegular, _) => [path]
              | _ => []
              end) vs.

Fixpoint dirs_in (vs : list visit) : Z :=
  match vs with
  | [] => 0
  | (_, Some ModeDir, _) :: vs' => 1 + dirs_in vs'
  | _ :: vs' => dirs_in vs'
  end.

(** ** A tree without failures *)

Fixpoint healthy (t : fsnode) : bool :=
  match t with
  | Missing | DirUnreadable => false
  | Regular | Irregular => true
  | Dir kids => forallb (fun kv => healthy (snd kv)) kids
  end.

(** The regular files of a tree, by path. *)
Fixpoint file_paths (path : string) (t : fsnode) : list string :=
  match t with
  | Regular => [path]
  | Dir kids => flat_map (fun kv => file_paths (Join path (fst kv)) (snd kv)) kids
  | _ => []
  end.

(** The number of regular files of a tree. *)
Fixpoint count_files (t : fsnode) : Z :=
  match t with
  | Regular => 1
  | Dir kids => foldr (fun kv acc => count_files (snd kv) + acc) 0 kids
  | _ => 0
  end.

(** The number of directories of a tree, the root included. *)
Fixpoint count_dirs (t : fsnode) : Z :=
  match t with
  | DirUnreadable => 1
  | Dir kids => 1 + foldr (fun kv acc => count_dirs (snd kv) + acc) 0 kids
  | _ => 0
  end.

(** The bytes of the regular files of a tree. *)
Definition total_bytes (io : string -> FileIO) (root : string) (t : fsnode) : Z :=
  foldr (fun p acc => copy_n (io p) + acc) 0 (file_paths root t).

(** ** Running a world to the end *)

(** The first goroutine of [gs] that is not blocked takes its step. *)
Fixpoint first_enabled (w : World) (gs : list goroutine) (s : state) : option state :=
  match gs with
  | [] => None
  | g :: gs' =>
      match step_of w g s with
      | Some s' => Some s'
      | None => first_enabled w gs' s
      end
  end.

(** At most [fuel] steps, each by the first goroutine of [gs] that can move. *)
Fixpoint exec (w : World) (gs : list goroutine) (fuel : nat) (s : state) : state :=
  match fuel with
  | O => s
  | S fuel' =>
      match first_enabled w gs s with
      | Some s' => exec w gs fuel' s'
      | None => s
      end
  end.

Definition with_workers (n : Z) (w : World) : World :=
  mkWorld n (w_dir w) (w_tree w) (w_io w).

(** ** The scenario of the specification: three files of 10, 20 and 30
    bytes in two directories *)

Definition ok_file (n : Z) : FileIO := mkFileIO None n None None.

Definition scenario_tree : fsnode :=
  Dir [("a.txt", Regular); ("b.txt", Regular); ("sub", Dir [("c.txt", Regular)])].

Definition scenario_io (p : string) : FileIO :=
  if String.eqb p "data/a.txt" then ok_file 10
  else if String.eqb p "data/b.txt" then ok_file 20
  else if String.eqb p "data/sub/c.txt" then ok_file 30
  else mkFileIO (Some (PathError "open" p)) 0 None None.

Definition scenario : World := mkWorld 2 "data" scenario_tree scenario_io.

Definition all_goroutines : list goroutine :=
  [GReader 0; GReader 1; GAggregate; GWalk; GMain].

(** ** Reading a trace *)

Definition goroutine_eqb (g g' : goroutine) : bool :=
  match g, g' with
  | GMain, GMain | GWalk, GWalk | GAggregate, GAggregate => true
  | GReader i, GReader j => Nat.eqb i j
  | _, _ => false
  end.

(** The tasks sent on [ch], and the tasks received from it. *)
Definition tasks_sent (tr : list event) : list string :=
  flat_map (fun e => match e with EvTask p => [p] | _ => [] end) tr.
Definition tasks_taken (tr : list event) : list string :=
  flat_map (fun e => match e with EvTaken _ p => [p] | _ => [] end) tr.
Definition taken_by (i : nat) (tr : list event) : list string :=
  flat_map (fun e => match e with
                     | EvTaken j p => if Nat.eqb i j then [p] else []
                     | _ => []
                     end) tr.

(** The stats sent on [statsCh], by anyone and by [g], and the stats merged. *)
Definition sent (tr : list event) : list Stats :=
  flat_map (fun e => match e with EvStat _ st => [st] | _ => [] end) tr.
Definition stats_by (g : goroutine) (tr : list event) : list Stats :=
  flat_map (fun e => match e with
                     | EvStat g' st => if goroutine_eqb g g' then [st] else []
                     | _ => []
                     end) tr.
Definition merged (tr : list event) : list Stats :=
  flat_map (fun e => match e with EvMerge st => [st] | _ => [] end) tr.

(** The stats sent by the readers. *)
Definition stats_by_readers (tr : list event) : list Stats :=
  flat_map (fun e => match e with EvStat (GReader _) st => [st] | _ => [] end) tr.

(** What [walk] does to the channels and the log: its sends, its log
    line, and every close of the task channel, whoever does it. *)
Definition is_walk_event (e : event) : bool :=
  match e with
  | EvTask _ | EvStat GWalk _ | EvCloseTasks _ | EvLog (LogErrorWalking _ _) => true
  | _ => false
  end.

Definition walk_events (tr : list event) : list event :=
  List.filter is_walk_event tr.

Definition log_of (dir : string) (err : option error) : list event :=
  match err with
  | Some e => [EvLog (LogErrorWalking dir e)]
  | None => []
  end.

(** What [walk] does from start to end: the tasks, the log line if the
    walk ended with an error, one summary stat, and the close. *)
Definition walk_program (w : World) : list event :=
  map EvTask (tasks_of (fst (walk_script w)))
  ++ log_of (w_dir w) (snd (walk_script w))
  ++ [EvStat GWalk {| files := 0; dirs := wrapInt (counts_of (fst (walk_script w))); bytes := 0 |};
      EvCloseTasks GWalk].

(** What [walk] has still to do. *)
Definition walk_todo (w : World) (pc : walk_pc) : list event :=
  match pc with
  | WIdle => walk_program w
  | WWalk evs err d =>
      map EvTask (tasks_of evs) ++ log_of (w_dir w) err
      ++ [EvStat GWalk {| files := 0; dirs := wrapInt (d + counts_of evs); bytes := 0 |};
          EvCloseTasks GWalk]
  | WStat d => [EvStat GWalk {| files := 0; dirs := d; bytes := 0 |}; EvCloseTasks GWalk]
  | WClose => [EvCloseTasks GWalk]
  | WDone => []
  end.

(** The stat a reader is about to send. *)
Definition holding (r : reader_pc) : list Stats :=
  match r with RSend st => [st] | _ => [] end.

(** The stats the loop body gives for a sequence of tasks: one for each
    file read without an error, none for the others. *)
Definition stats_of_tasks (io : string -> FileIO) (ps : list string) : list Stats :=
  flat_map (fun p => match snd (readFile_body io p) with
                     | Some st => [st]
                     | None => []
                     end) ps.

(** Reader [i] against the trace: the stats it has sent, and the one
    it holds, are those of the tasks it has taken, in order. A reader
    not started has done nothing. *)
Definition reader_ok (w : World) (tr : list event) (i : nat) (o : option reader_pc) : Prop :=
  match o with
  | Some r =>
      stats_by (GReader i) tr ++ holding r = stats_of_tasks (w_io w) (taken_by i tr)
  | None => stats_by (GReader i) tr = [] /\ taken_by i tr = []
  end.

(** The trace invariant: what has happened so far, against the state. *)
Record TInv (w : World) (s : state) : Prop := mkTInv {
  t_walk :
    if st_crashed s then True
    else walk_events (st_trace s) ++ walk_todo w (st_walk s) = walk_program w;
  t_walk_dirs :
    match st_walk s with
    | WWalk _ _ d | WStat d => wrapInt d = d
    | _ => True
    end;
  t_tasks : tasks_sent (st_trace s) = tasks_taken (st_trace s) ++ st_ch s;
  t_sent : sent (st_trace s) = merged (st_trace s) ++ st_statsCh s;
  t_total : st_stats s = merge zeroStats (merged (st_trace s));
  t_readers : forall i, reader_ok w (st_trace s) i (st_readers s !! i);
  t_senders : stats_by GMain (st_trace s) = [] /\ stats_by GAggregate (st_trace s) = [];
  t_not_closed : st_statsCh_closed s = false -> forall g, EvCloseStats g ∉ st_trace s;
  t_closed : st_statsCh_closed s = true -> EvCloseStats GMain ∈ st_trace s;
  t_reader_done : forall i, st_readers s !! i = Some RDone -> EvDone (GReader i) ∈ st_trace s;
  t_agg_done : st_agg s = ADone -> EvDone GAggregate ∈ st_trace s
}.

Definition is_close_tasks (e : event) : bool :=
  match e with EvCloseTasks _ => true | _ => false end.

(** ** main: the command line and the output file *)

Inductive errno := ENOENT | EACCES | EBADF | EINVAL | ENOTDIR.

(** The flags of open(2), as package [syscall] has them on Linux. *)
Definition O_RDONLY : Z := 0.
Definition O_WRONLY : Z := 1.
Definition O_RDWR : Z := 2.
Definition O_ACCMODE : Z := 3.
Definition O_CREAT : Z := 64.
Definition O_TRUNC : Z := 512.
Definition O_APPEND : Z := 1024.

Definition has_flag (flag bit : Z) : bool := negb (Z.land flag bit =? 0).

(** A descriptor can be written to when its access mode is not
    [O_RDONLY]. *)
Definition writable (flag : Z) : bool :=
  negb (Z.land flag O_ACCMODE =? O_RDONLY).

(** The output path as the operating system has it: its content when
    the file exists, whether it may be opened ([EACCES] if not),
    whether it can be created, and the errors open(2) gives for a path
    that does not exist: the error of the lookup ([ENOENT] when the
    file or a directory on the way is missing, [ENOTDIR] or [EACCES]
    when a directory on the way is a file or may not be searched), and
    the error of a creation that is refused ([EACCES], or [ENOENT]
    when the directory is missing). *)
Record OutPath := mkOutPathOS {
  out_content : option string;
  out_openable : bool;
  out_creatable : bool;
  out_absent_err : errno;
  out_create_err : errno
}.

(** A path in a directory that is there and may be searched: a missing
    file is reported as [ENOENT], and what is refused is refused for
    its permissions. *)
Definition mkOutPath (content : option string) (openable creatable : bool) : OutPath :=
  mkOutPathOS content openable creatable ENOENT EACCES.

Definition set_content (c : string) (d : OutPath) : OutPath :=
  mkOutPathOS (Some c) (out_openable d) (out_creatable d)
    (out_absent_err d) (out_create_err d).

(** The path once the file has been created, empty. *)
Definition created (d : OutPath) : OutPath :=
  mkOutPathOS (Some EmptyString) true true (out_absent_err d) (out_create_err d).

Definition is_ENOENT (e : errno) : bool :=
  match e with ENOENT => true | _ => false end.

(** An open [*os.File]: the flags it was opened with. A nil file is
    [None]. *)
Record File := mkFile { f_flag : Z }.

(** [os.OpenFile(outputFile, flag, 0644)]. Without [O_CREAT] a path
    that does not exist gives the error of the lookup; with it the
    file is created, unless the lookup fails with another error than
    [ENOENT] or the creation is refused. *)
Definition OpenFile (d : OutPath) (flag : Z) : option File * option errno * OutPath :=
  match out_content d with
  | Some c =>
      if out_openable d
      then (Some (mkFile flag), None,
            if has_flag flag O_TRUNC && writable flag
            then set_content EmptyString d
            else d)
      else (None, Some EACCES, d)
  | None =>
      if has_flag flag O_CREAT && is_ENOENT (out_absent_err d)
      then if out_creatable d
           then (Some (mkFile flag), None, created d)
           else (None, Some (out_create_err d), d)
      else (None, Some (out_absent_err d), d)
  end.

(** One write through a file just opened: write(2) fails with [EBADF]
    on a descriptor not open for writing, and a nil file gives
    [os.ErrInvalid]. With [O_APPEND] the data goes to the end,
    without it to offset 0. *)
Definition File_Write (f : option File) (data : string) (d : OutPath)
  : OutPath * option errno :=
  match f with
  | None => (d, Some EINVAL)
  | Some f =>
      if writable (f_flag f)
      then match out_content d with
           | Some c =>
               let c' :=
                 if has_flag (f_flag f) O_APPEND
                 then String.append c data
                 else String.append data
                        (String.substring (String.length data)
                           (String.length c - String.length data) c) in
               (set_content c' d, None)
           | None => (d, Some EBADF)
           end
      else (d, Some EBADF)
  end.

(** [f.Close()]. *)
Definition File_Close (f : option File) : option errno :=
  match f with
  | None => Some EINVAL
  | Some _ => None
  end.

(** [ioutil.WriteFile(outputFile, data, 0644)]. *)
Definition WriteFile (d : OutPath) (data : string) : OutPath * option errno :=
  match OpenFile d (Z.lor O_WRONLY (Z.lor O_CREAT O_TRUNC)) with
  | (Some f, _, d1) =>
      let '(d2, err) := File_Write (Some f) data d1 in
      match err with
      | Some e => (d2, Some e)
      | None => (d2, File_Close (Some f))
      end
  | (None, err, d1) => (d1, err)
  end.

Definition IsNotExist (err : option errno) : bool :=
  match err with Some ENOENT => true | _ => false end.

Definition tab : string := String (Ascii.ascii_of_nat 9) EmptyString.
Definition newline : string := String (Ascii.ascii_of_nat 10) EmptyString.

Definition join_tabs (fields : list string) : string :=
  String.concat tab fields.

(** The header line of the output file. *)
Definition header : string :=
  String.append
    (join_tabs ["workers"; "files"; "dirs"; "bytes"; "time (seconds)";
                "bandwidth (per second)"])
    newline.

(** [%v] of an integer. *)
Definition showZ (z : Z) : string := NilZero.string_of_int (Z.to_int z).

(** The data line of a run. The elapsed seconds, a [float64] of the
    clock, come as printed, and [bps] is [uint64(bps)]. *)
Definition row (workers : Z) (stats : Stats) (sec : string) (bps : Z) : string :=
  String.append
    (join_tabs [showZ workers; showZ (files stats); showZ (dirs stats);
                showZ (bytes stats); sec; showZ bps])
    newline.

(** [main], from the arguments left after the flags, the flag
    [workers], the output path, and the stats [traverse] returns with
    the time it took: the exit status and the output path after the run. *)
Definition main (args : list string) (workers : Z) (d : OutPath)
    (stats : Stats) (sec : string) (bps : Z) : Z * OutPath :=
  match args with
  | [dir] =>
      let '(f, err, d) := OpenFile d O_APPEND in
      let opened :=
        if IsNotExist err
        then let '(d, err) := WriteFile d header in
             match err with
             | Some _ => inr (2, d)
             | None => inl (OpenFile d O_APPEND)
             end
        else inl (f, err, d) in
      match opened with
      | inr exit => exit
      | inl (f, err, d) =>
          let '(d, _) := File_Write f (row workers stats sec bps) d in
          let _ := File_Close f in
          (0, d)
      end
  | _ => (1, d)
  end.

(** ** A tree with an entry that cannot be examined *)

Definition broken_tree : fsnode := Dir [("a", Missing); ("b.txt", Regular)].

Definition broken : World :=
  mkWorld 2 "data" broken_tree (fun _ => ok_file 5).

(** ** A root that does not exist *)

Definition no_root : World := mkWorld 2 "nowhere" Missing (fun _ => ok_file 0).

(** ** What the readers log *)



(** The number of stats the readers are about to send. *)
Definition held (rs : list reader_pc) : nat :=
  sum_list_with (fun r => length (holding r)) rs.


(** ** Names in a directory *)

(** A name as a directory holds it: not empty, not [.] or [..], and
    without a slash. *)
Definition plain_elem (e : string) : bool :=
  negb (String.eqb e "") && negb (String.eqb e ".") && negb (String.eqb e "..")
  && negb (has_slash e).

(** A tree as a file system has it: the names in a directory are
    plain and differ from each other. *)
Fixpoint well_named (t : fsnode) : bool :=
  match t with
  | Dir kids =>
      bool_decide (NoDup (map fst kids))
      && forallb (fun kv => plain_elem (fst kv) && well_named (snd kv)) kids
  | _ => true
  end.

(** What is left of the elements of a path after its leading [..]
    elements. *)
Fixpoint skip_dotdot (es : list string) : list string :=
  match es with
  | e :: es' => if String.eqb e ".." then skip_dotdot es' else es
  | [] => []
  end.

(** A root that [Clean] leaves as it is and that [Join] keeps in
    front: plain elements after a slash, or after any number of [..]
    elements. So [data], [a/b], [/tmp/x], [..] and [../x], but not
    the empty path, [.], [/], [data/], [./data] or [a/../b]. *)
Definition clean_root (path : string) : bool :=
  match split_slash path with
  | [] => false
  | e :: es =>
      if String.eqb e ""
      then match es with [] => false | _ => forallb plain_elem es end
      else forallb plain_elem (skip_dotdot (e :: es))
  end.

(** The elements [Clean] holds while it goes through a path, the last
    one first: plain elements on top of [..] elements, and no [..]
    in a rooted path. *)
Definition clean_stack (rooted : bool) (acc : list string) : Prop :=
  exists pl dds,
    acc = pl ++ dds /\ forallb plain_elem pl = true
    /\ Forall (fun e => e = "..") dds /\ (rooted = true -> dds = []).

(** [p] is [path] itself or lies below it. *)
Definition under (path p : string) : Prop :=
  exists rest, p = String.append path rest
               /\ (rest = EmptyString \/ exists rest', rest = String slash rest').

(** ** formatBytes *)

(** [float64(c)] for [c] of type [uint64]: [c] to 53 significant bits,
    rounded to the nearest, ties to even. The value is an integer. *)
Definition float64_of_uint64 (c : Z) : Z :=
  let e := Z.log2 c - 52 in
  if e <=? 0 then c
  else
    let q := c / 2 ^ e in
    let r := c mod 2 ^ e in
    (if (2 ^ (e - 1) <? r) || ((r =? 2 ^ (e - 1)) && Z.odd q) then q + 1 else q)
    * 2 ^ e.

(** The number [num / den] in thousandths, rounded to the nearest,
    ties to even: the digits [%.3f] prints for it. A [float64] divided
    by a power of two is exact, and so is the decimal expansion the
    digits are taken from. *)
Definition thousandths (num den : Z) : Z :=
  let q := (1000 * num) / den in
  let r := (1000 * num) mod den in
  if (den <? 2 * r) || ((2 * r =? den) && Z.odd q) then q + 1 else q.

Definition pad3 (z : Z) : string :=
  if z <? 10 then String.append "00" (showZ z)
  else if z <? 100 then String.append "0" (showZ z)
  else showZ z.

(** [fmt.Sprintf("%.3f", x)] for [x] of [m] thousandths, [0 <= m]. *)
Definition Sprintf_f3 (m : Z) : string :=
  String.append (showZ (m / 1000)) (String.append "." (pad3 (m mod 1000))).

Definition formatBytes (c : Z) : string :=
  let b := float64_of_uint64 c in
  if Z.shiftl 1 40 <? c
  then String.append (Sprintf_f3 (thousandths b (Z.shiftl 1 40))) " TiB"
  else if Z.shiftl 1 30 <? c
  then String.append (Sprintf_f3 (thousandths b (Z.shiftl 1 30))) " GiB"
  else if Z.shiftl 1 20 <? c
  then String.append (Sprintf_f3 (thousandths b (Z.shiftl 1 20))) " MiB"
  else if Z.shiftl 1 10 <? c
  then String.append (Sprintf_f3 (thousandths b (Z.shiftl 1 10))) " KiB"
  else String.append (showZ c) "B".
Arguments formatBytes : simpl never.

(** ** What main writes to standard error *)

Inductive mainmsg :=
| MsgUsage                                   (* usage: parallel-read-benchmark DIR *)
| MsgTraversing (dir : string) (workers : Z) (* traversing DIR with N workers *)
| MsgCreating                                (* creating output file F *)
| MsgErrorCreating (e : errno)               (* error creating output file F: E *)
| MsgErrorOpening (e : errno)                (* error opening output file F: E *)
| MsgSummary (files dirs : Z) (size sec rate : string)
                                             (* F files, D dirs, SIZE, SECs, RATE/s *)
| MsgErrorClosing (e : errno).               (* error closing file F: E *)

(** The conversion [uint64(x)] of an [int64]. *)
Definition uint64 (z : Z) : Z := z mod 2 ^ 64.
Arguments uint64 : simpl never.

(** The lines [main] itself writes to standard error, in order; those
    of [traverse] come between the last line about the output file
    and the summary. The arguments are those of [main] above. *)
Definition main_log (args : list string) (workers : Z) (d : OutPath)
    (stats : Stats) (sec : string) (bps : Z) : list mainmsg :=
  match args with
  | [dir] =>
      let '(f, err, d) := OpenFile d O_APPEND in
      let opened :=
        if IsNotExist err
        then let '(d, err) := WriteFile d header in
             match err with
             | Some e => inr [MsgCreating; MsgErrorCreating e]
             | None => inl ([MsgCreating], OpenFile d O_APPEND)
             end
        else inl ([], (f, err, d)) in
      MsgTraversing dir workers ::
      match opened with
      | inr msgs => msgs
      | inl (msgs, (f, err, d)) =>
          msgs
          ++ match err with Some e => [MsgErrorOpening e] | None => [] end
          ++ [MsgSummary (files stats) (dirs stats)
                (formatBytes (uint64 (bytes stats))) sec (formatBytes bps)]
          ++ match File_Close f with Some e => [MsgErrorClosing e] | None => [] end
      end
  | _ => [MsgUsage]
  end.

Definition is_summary (m : mainmsg) : bool :=
  match m with MsgSummary _ _ _ _ _ => true | _ => false end.

(** ** The progress lines of readFile *)

(** One turn of the loop of [readFile] as far as the clock goes: the
    file name, the reading of the clock in [time.Since(last)], and the
    reading in [last = time.Now()], taken if the line is printed.
    Readings and the interval are in nanoseconds. *)
Record tick := mkTick { tk_file : string; tk_since : Z; tk_now : Z }.

(** The turns of the loop in which [read <file>] is printed, from
    [reportingInterval] and the value of [last] before the loop. *)
Fixpoint progress_lines (interval last : Z) (ticks : list tick) : list tick :=
  match ticks with
  | [] => []
  | t :: rest =>
      if interval <? tk_since t - last
      then t :: progress_lines interval (tk_now t) rest
      else progress_lines interval last rest
  end.

(** The clock does not go back. *)
Fixpoint monotone (last : Z) (ticks : list tick) : Prop :=
  match ticks with
  | [] => True
  | t :: rest => last <= tk_since t /\ tk_since t <= tk_now t /\ monotone (tk_now t) rest
  end.

(** Each time is more than [interval] after the one before it. *)
Fixpoint spaced (interval prev : Z) (times : list Z) : Prop :=
  match times with
  | [] => True
  | t :: rest => prev + interval < t /\ spaced interval t rest
  end.

(** Under every schedule the run comes to a state in which [P] holds:
    a step is possible until then, and no run goes on for ever. *)
Inductive always_reaches (w : World) (P : state -> Prop) : state -> Prop :=
| ae_now s : P s -> always_reaches w P s
| ae_step s :
    (exists s', step w s s') ->
    (forall s', step w s s' -> always_reaches w P s') ->
    always_reaches w P s.


(** * Properties *)

(** ** Wrap-around arithmetic *)

Lemma wrap_range bits z : 0 < bits ->
  - 2 ^ (bits - 1) <= wrap bits z < 2 ^ (bits - 1).
Proof.
  intros Hb. unfold wrap.
  assert (H2 : 2 ^ bits = 2 * 2 ^ (bits - 1)).
  { rewrite <- Z.pow_succ_r by lia. f_equal. lia. }
  assert (Hp : 0 < 2 ^ (bits - 1)) by (apply Z.pow_pos_nonneg; lia).
  pose proof (Z.mod_pos_bound (z + 2 ^ (bits - 1)) (2 ^ bits)) as Hm.
  lia.
Qed.

Lemma wrap_small bits z : 0 < bits ->
  - 2 ^ (bits - 1) <= z < 2 ^ (bits - 1) -> wrap bits z = z.
Proof.
  intros Hb Hz. unfold wrap.
  assert (H2 : 2 ^ bits = 2 * 2 ^ (bits - 1)).
  { rewrite <- Z.pow_succ_r by lia. f_equal. lia. }
  rewrite Z.mod_small by lia. lia.
Qed.

Lemma wrap_add_l bits a b : wrap bits (wrap bits a + b) = wrap bits (a + b).
Proof.
  unfold wrap. f_equal.
  replace ((a + 2 ^ (bits - 1)) mod 2 ^ bits - 2 ^ (bits - 1) + b + 2 ^ (bits - 1))
    with ((a + 2 ^ (bits - 1)) mod 2 ^ bits + b) by lia.
  rewrite Zplus_mod_idemp_l. f_equal. lia.
Qed.

Lemma wrap_idem bits a : wrap bits (wrap bits a) = wrap bits a.
Proof.
  replace (wrap bits a) with (wrap bits a + 0) at 1 by lia.
  rewrite wrap_add_l. f_equal. lia.
Qed.

Lemma wrapInt_small z : inInt z -> wrapInt z = z.
Proof. intros H. apply wrap_small; [reflexivity | exact H]. Qed.

Lemma wrapInt64_small z : inInt64 z -> wrapInt64 z = z.
Proof. intros H. apply wrap_small; [reflexivity | exact H]. Qed.

(** ** Stats as a commutative monoid, exactly and modulo wrap-around *)

Lemma Add_norm a b : Add a b = norm (splus a b).
Proof. reflexivity. Qed.

Lemma splus_comm a b : splus a b = splus b a.
Proof. unfold splus. f_equal; lia. Qed.

Lemma splus_assoc a b c : splus a (splus b c) = splus (splus a b) c.
Proof. unfold splus. simpl. f_equal; lia. Qed.

Lemma splus_zero_r a : splus a zeroStats = a.
Proof. destruct a. unfold splus. simpl. f_equal; lia. Qed.

Lemma splus_zero_l a : splus zeroStats a = a.
Proof. rewrite splus_comm. apply splus_zero_r. Qed.

Lemma norm_splus_l a b : norm (splus (norm a) b) = norm (splus a b).
Proof.
  unfold norm, splus, wrapInt, wrapInt64. simpl.
  rewrite !wrap_add_l. reflexivity.
Qed.

Lemma norm_splus_r a b : norm (splus a (norm b)) = norm (splus a b).
Proof. rewrite splus_comm, norm_splus_l, splus_comm. reflexivity. Qed.

Lemma norm_idem a : norm (norm a) = norm a.
Proof. unfold norm, wrapInt, wrapInt64. simpl. rewrite !wrap_idem. reflexivity. Qed.

Lemma ssum_app l k : ssum (l ++ k) = splus (ssum l) (ssum k).
Proof.
  induction l as [|x l IH]; simpl.
  - symmetry. apply splus_zero_l.
  - fold (ssum (l ++ k)). fold (ssum l). rewrite IH. apply splus_assoc.
Qed.

Lemma Add_comm a b : Add a b = Add b a.
Proof. rewrite !Add_norm, splus_comm. reflexivity. Qed.

Lemma Add_assoc a b c : Add (Add a b) c = Add a (Add b c).
Proof.
  rewrite !Add_norm, norm_splus_l, norm_splus_r, splus_assoc. reflexivity.
Qed.

Lemma merge_ssum l : forall total,
  normal total -> merge total l = norm (splus total (ssum l)).
Proof.
  induction l as [|x l IH]; intros total Hn; simpl.
  - fold zeroStats. rewrite splus_zero_r. symmetry. exact Hn.
  - unfold merge in *. rewrite IH by (unfold normal; rewrite Add_norm; apply norm_idem).
    fold (ssum l). rewrite Add_norm, norm_splus_l, splus_assoc. reflexivity.
Qed.

Lemma ssum_perm l k : l ≡ₚ k -> ssum l = ssum k.
Proof.
  induction 1 as [|x l l' _ IH|x y l|l l' l'' _ IH1 _ IH2]; simpl.
  - reflexivity.
  - fold (ssum l). fold (ssum l'). congruence.
  - fold (ssum l). rewrite !splus_assoc. f_equal. apply splus_comm.
  - congruence.
Qed.

Lemma merge_swap total x y l :
  merge total (x :: y :: l) = merge total (y :: x :: l).
Proof.
  unfold merge. simpl. f_equal.
  rewrite !Add_assoc. f_equal. apply Add_comm.
Qed.

Lemma merge_perm l k : l ≡ₚ k -> forall total, merge total l = merge total k.
Proof.
  induction 1; intros total.
  - reflexivity.
  - unfold merge in *. simpl. apply IHPermutation.
  - apply merge_swap.
  - rewrite IHPermutation1. apply IHPermutation2.
Qed.

(** ** filepath.Walk visits the entries in order, up to the first error *)

Lemma until_error_app fn vs1 vs2 :
  until_error fn (vs1 ++ vs2) =
  match snd (until_error fn vs1) with
  | Some e => until_error fn vs1
  | None => (fst (until_error fn vs1) ++ fst (until_error fn vs2),
             snd (until_error fn vs2))
  end.
Proof.
  induction vs1 as [|[[p fi] err] vs1 IH]; simpl.
  - destruct (until_error fn vs2); reflexivity.
  - destruct (fn p fi err) as [ev [e|]]; simpl; [reflexivity|].
    rewrite IH. destruct (until_error fn vs1) as [evs [e|]]; simpl; [reflexivity|].
    destruct (until_error fn vs2); simpl. rewrite app_assoc. reflexivity.
Qed.

Lemma entries_error path node e :
  snd (until_error walkFn (entries path node)) = Some e ->
  is_SkipDir e = false /\ is_SkipAll e = false.
Proof.
  revert path. induction node as [| | | |kids IH] using fsnode_ind; intros path; simpl.
  1-4: intros [= <-]; done.
  destruct (until_error walkFn (flat_map _ kids)) as [evs r] eqn:E. simpl.
  intros ->.
  assert (H : snd (until_error walkFn
     (flat_map (λ kv, entries (Join path kv.1) kv.2) kids)) = Some e)
    by (rewrite E; reflexivity).
  clear E evs. induction IH as [|[name child] kids Hc _ IHk]; simpl in H; [done|].
  rewrite until_error_app in H.
  destruct (snd (until_error walkFn (entries (Join path name) child))) eqn:E1.
  - rewrite E1 in H. simplify_eq. eapply Hc; eauto.
  - simpl in H. auto.
Qed.

Lemma walk_rec_entries node : forall path info,
  lstat path node = (Some info, None) ->
  walk_rec walkFn path info node = until_error walkFn (entries path node).
Proof.
  induction node as [| | | |kids IH] using fsnode_ind; intros path info Hl;
    simpl in Hl; simplify_eq; try reflexivity.
  cbn [walk_rec entries until_error walkFn IsRegular IsDir negb app].
  match goal with |- (let '(_, _) := ?L in _) = (let '(_, _) := ?R in _) =>
    assert (HL : L = R); [|rewrite HL; destruct R; reflexivity] end.
  induction IH as [|[name child] kids Hc _ IHk]; [reflexivity|].
  cbn [flat_map fst snd] in *. rewrite until_error_app.
  destruct child; cbn [lstat].
  - reflexivity.
  - rewrite (Hc _ ModeRegular eq_refl). cbn -[walk_rec Join].
    rewrite IHk. destruct (until_error _ _). reflexivity.
  - rewrite (Hc _ ModeIrregular eq_refl). cbn -[walk_rec Join].
    rewrite IHk. destruct (until_error _ _). reflexivity.
  - rewrite (Hc _ ModeDir eq_refl). reflexivity.
  - rewrite (Hc _ ModeDir eq_refl).
    pose proof (entries_error (Join path name) (Dir kids0)) as He.
    destruct (until_error walkFn (entries (Join path name) (Dir kids0))) as [ev [e|]].
    + cbv beta iota. destruct (He e eq_refl) as [-> _]. reflexivity.
    + cbn -[walk_rec Join]. rewrite IHk. destruct (until_error _ _). reflexivity.
Qed.

Lemma Walk_entries root tree :
  Walk root tree walkFn = until_error walkFn (entries root tree).
Proof.
  unfold Walk.
  destruct (lstat root tree) as [[info|] [e|]] eqn:Hl.
  - destruct tree; discriminate.
  - rewrite (walk_rec_entries _ _ _ Hl).
    pose proof (entries_error root tree) as He.
    destruct (until_error walkFn (entries root tree)) as [ev [e|]]; [|reflexivity].
    destruct (He e eq_refl) as [-> ->]. reflexivity.
  - destruct tree; simpl in Hl; simplify_eq. reflexivity.
  - destruct tree; discriminate.
Qed.

Lemma entries_wf path node : Forall visit_wf (entries path node).
Proof.
  revert path. induction node as [| | | |kids IH] using fsnode_ind; intros path; simpl.
  1-4: repeat constructor; unfold visit_wf; simpl; eauto; discriminate.
  constructor; [unfold visit_wf; simpl; eauto|].
  induction IH as [|[name child] kids Hc _ IHk]; simpl; [constructor|].
  apply Forall_app. split; [apply Hc | apply IHk].
Qed.

Lemma until_error_walkFn vs :
  Forall visit_wf vs ->
  tasks_of (fst (until_error walkFn vs)) = files_in (visited vs)
  /\ counts_of (fst (until_error walkFn vs)) = dirs_in (visited vs)
  /\ snd (until_error walkFn vs) = first_error vs
  /\ WNil ∉ fst (until_error walkFn vs).
Proof.
  induction 1 as [|[[p fi] err] vs Hv _ IH]; simpl.
  - repeat split; try reflexivity. apply not_elem_of_nil.
  - unfold visit_error. simpl. destruct err as [e|]; simpl.
    + repeat split; try reflexivity. apply not_elem_of_nil.
    + destruct (Hv eq_refl) as [m Hm]. simpl in Hm. subst fi.
      destruct IH as (IH1 & IH2 & IH3 & IH4).
      destruct (until_error walkFn vs) as [evs r]. simpl in *.
      destruct m; simpl; rewrite ?IH1, ?IH2; repeat split; auto;
        rewrite ?not_elem_of_cons; auto.
Qed.

Lemma Walk_no_nil root tree : WNil ∉ fst (Walk root tree walkFn).
Proof. rewrite Walk_entries. apply until_error_walkFn, entries_wf. Qed.

Lemma visited_app vs1 vs2 :
  first_error vs1 = None -> visited (vs1 ++ vs2) = vs1 ++ visited vs2.
Proof.
  induction vs1 as [|v vs1 IH]; simpl; [reflexivity|].
  destruct (visit_error v); [discriminate|]. intros H. rewrite IH by exact H. reflexivity.
Qed.

Lemma first_error_app vs1 vs2 :
  first_error vs1 = None -> first_error (vs1 ++ vs2) = first_error vs2.
Proof.
  induction vs1 as [|v vs1 IH]; simpl; [reflexivity|].
  destruct (visit_error v); [discriminate|]. exact IH.
Qed.

Lemma visited_nil_r vs : first_error vs = None -> visited vs = vs.
Proof.
  intros H. rewrite <- (app_nil_r vs) at 1. rewrite visited_app by exact H.
  simpl. apply app_nil_r.
Qed.

Lemma healthy_first_error node : forall path,
  healthy node = true -> first_error (entries path node) = None.
Proof.
  induction node as [| | | |kids IH] using fsnode_ind; intros path Hh;
    simpl in *; try reflexivity; try discriminate.
  unfold visit_error. simpl.
  induction IH as [|[name child] kids Hc _ IHk]; simpl in *; [reflexivity|].
  apply andb_prop in Hh as [Hh1 Hh2].
  rewrite first_error_app by (apply Hc; exact Hh1). apply IHk. exact Hh2.
Qed.

Lemma files_in_app vs1 vs2 : files_in (vs1 ++ vs2) = files_in vs1 ++ files_in vs2.
Proof. unfold files_in. apply flat_map_app. Qed.

Lemma dirs_in_app vs1 vs2 : dirs_in (vs1 ++ vs2) = dirs_in vs1 + dirs_in vs2.
Proof.
  induction vs1 as [|[[p [[]|]] e] vs1 IH]; simpl; lia.
Qed.

Lemma files_in_entries node : forall path,
  healthy node = true -> files_in (entries path node) = file_paths path node.
Proof.
  induction node as [| | | |kids IH] using fsnode_ind; intros path Hh;
    simpl in *; try reflexivity; try discriminate.
  induction IH as [|[name child] kids Hc _ IHk]; simpl in *; [reflexivity|].
  apply andb_prop in Hh as [Hh1 Hh2].
  rewrite files_in_app, Hc by exact Hh1.
  f_equal. apply IHk. exact Hh2.
Qed.

Lemma dirs_in_entries node : forall path,
  healthy node = true -> dirs_in (entries path node) = count_dirs node.
Proof.
  induction node as [| | | |kids IH] using fsnode_ind; intros path Hh;
    simpl in *; try reflexivity; try discriminate.
  f_equal.
  induction IH as [|[name child] kids Hc _ IHk]; simpl in *; [reflexivity|].
  apply andb_prop in Hh as [Hh1 Hh2].
  rewrite dirs_in_app, Hc by exact Hh1.
  f_equal. apply IHk. exact Hh2.
Qed.

Lemma length_file_paths node : forall path,
  Z.of_nat (length (file_paths path node)) = count_files node.
Proof.
  induction node as [| | | |kids IH] using fsnode_ind; intros path;
    simpl in *; try reflexivity.
  induction IH as [|[name child] kids Hc _ IHk]; simpl in *; [reflexivity|].
  rewrite length_app, Nat2Z.inj_add, Hc, IHk. reflexivity.
Qed.

(** On a tree without failures the walk sends every regular file,
    counts every directory and returns no error. *)
Lemma Walk_healthy root tree :
  healthy tree = true ->
  tasks_of (fst (Walk root tree walkFn)) = file_paths root tree
  /\ counts_of (fst (Walk root tree walkFn)) = count_dirs tree
  /\ snd (Walk root tree walkFn) = None.
Proof.
  intros Hh. rewrite Walk_entries.
  destruct (until_error_walkFn (entries root tree) (entries_wf _ _)) as (H1 & H2 & H3 & _).
  pose proof (healthy_first_error tree root Hh) as Hf.
  rewrite H1, H2, H3, visited_nil_r by exact Hf.
  rewrite files_in_entries, dirs_in_entries by exact Hh. auto.
Qed.

(** ** The control invariant holds in every reachable state *)

Ltac bool_facts :=
  repeat match goal with
  | H : (_ <? _) = true |- _ => apply Z.ltb_lt in H
  | H : (_ <? _) = false |- _ => apply Z.ltb_ge in H
  | H : (_ <=? _) = true |- _ => apply Z.leb_le in H
  | H : (_ <=? _) = false |- _ => apply Z.leb_gt in H
  | H : (_ =? _) = true |- _ => apply Z.eqb_eq in H
  | H : (_ =? _) = false |- _ => apply Z.eqb_neq in H
  | H : (_ <? _)%nat = true |- _ => apply Nat.ltb_lt in H
  | H : (_ <? _)%nat = false |- _ => apply Nat.ltb_ge in H
  end.

Ltac step_inv H :=
  unfold step_of, step_main, step_walk, step_reader, step_agg,
    panic_walk, panic_reader in H;
  repeat case_match; simplify_eq; bool_facts.

Ltac open_inv I s :=
  destruct I; destruct s; simpl in *; subst; simpl in *.

Ltac easy_inv := try done; try (intuition (congruence || lia)).

Ltac split_pcs :=
  repeat match goal with
  | x : walk_pc |- _ => destruct x
  | x : agg_pc |- _ => destruct x
  | x : main_pc |- _ => destruct x
  end; simpl in *; easy_inv.

Section lists.
Context {A : Type}.

Lemma sum_list_with_insert (f : A -> nat) (l : list A) i x y :
  l !! i = Some x ->
  (sum_list_with f (<[i:=y]> l) + f x = sum_list_with f l + f y)%nat.
Proof.
  revert i. induction l as [|a l IH]; intros [|i] H; simpl in *; simplify_eq.
  - lia.
  - specialize (IH i H). lia.
Qed.

Lemma elem_of_insert_inv (l : list A) i y z :
  z ∈ <[i:=y]> l -> z = y \/ z ∈ l.
Proof.
  revert i. induction l as [|a l IH]; intros [|i]; simpl; auto.
  - rewrite !elem_of_cons. tauto.
  - rewrite !elem_of_cons. intros [->|H]; [tauto|]. destruct (IH _ H); tauto.
Qed.
End lists.

Lemma live_app l k : live (l ++ k) = (live l + live k)%nat.
Proof. apply sum_list_with_app. Qed.

Lemma live_insert l i x y :
  l !! i = Some x ->
  (live (<[i:=y]> l) + (if is_live x then 1 else 0)
   = live l + (if is_live y then 1 else 0))%nat.
Proof. apply sum_list_with_insert. Qed.

Lemma live_zero l : live l = 0%nat -> forall i r, l !! i = Some r -> r = RDone.
Proof.
  induction l as [|a l IH]; intros H [|i] r Hl; simpl in *; simplify_eq.
  - unfold live in H. simpl in H. destruct r; simpl in H; try lia. reflexivity.
  - unfold live in H. simpl in H. apply (IH ltac:(unfold live; lia) i r Hl).
Qed.

Lemma live_pos l : (0 < live l)%nat -> exists i r, l !! i = Some r /\ is_live r = true.
Proof.
  induction l as [|a l IH]; unfold live; simpl; [lia|].
  destruct (is_live a) eqn:E.
  - intros _. exists 0%nat, a. auto.
  - intros H. destruct (IH H) as (i & r & ? & ?). exists (S i), r. auto.
Qed.

Lemma Inv_init w : Inv w init.
Proof.
  constructor; simpl; easy_inv.
  - intros H. apply elem_of_nil in H. destruct H.
Qed.

(** With a reader nothing panics. *)
Lemma not_crashed w s : Inv w s -> 1 <= w_workers w -> st_crashed s = false.
Proof.
  intros I Hn. pose proof (inv_crashed _ _ I) as H.
  destruct (st_crashed s); [lia | reflexivity].
Qed.

Lemma ch_closed_done w s :
  Inv w s -> st_crashed s = false -> st_ch_closed s = is_WDone (st_walk s).
Proof. intros I Hc. pose proof (inv_ch_closed _ _ I) as H. rewrite Hc in H. exact H. Qed.

Lemma Inv_step_main w s s' : Inv w s -> step_of w GMain s = Some s' -> Inv w s'.
Proof.
  intros I H. step_inv H; open_inv I s.
  all: constructor; simpl in *; easy_inv.
  - rewrite length_app. simpl. lia.
  - rewrite live_app. unfold live at 3. simpl. lia.
  - rewrite elem_of_app, list_elem_of_singleton. intuition congruence.
  - split_pcs.
  - pose proof (Walk_no_nil (w_dir w) (w_tree w)) as Hn.
    match goal with H : Walk _ _ _ = _ |- _ => rewrite H in Hn end. exact Hn.
  - split_pcs.
  - split_pcs.
  - split_pcs.
Qed.

Lemma Inv_step_agg w s s' : Inv w s -> step_of w GAggregate s = Some s' -> Inv w s'.
Proof.
  intros I H. step_inv H; open_inv I s.
  all: constructor; simpl in *; easy_inv.
  all: try solve [split_pcs].
  all: unfold normal; rewrite Add_norm; apply norm_idem.
Qed.

Lemma all_done_closed w s :
  Inv w s -> 1 <= w_workers w -> st_statsCh_closed s = true ->
  st_ch_closed s = true /\ st_ch s = [].
Proof.
  intros I Hn Hc.
  pose proof (inv_stats_closed _ _ I) as H4. rewrite Hc in H4.
  symmetry in H4. apply Nat.ltb_lt in H4.
  pose proof (inv_joined _ _ I) as H3.
  replace (3 <? rank (st_main s))%nat with true in H3
    by (symmetry; apply Nat.ltb_lt; lia).
  pose proof (inv_wg _ _ I) as Hwg.
  pose proof (inv_loop _ _ I) as Hlen.
  assert (Hlen' : length (st_readers s) = Z.to_nat (w_workers w)).
  { destruct (st_main s); simpl in *; try done; lia. }
  destruct (st_readers s) as [|r rs] eqn:Er; [simpl in Hlen'; lia|].
  assert (r = RDone).
  { apply (live_zero (r :: rs) ltac:(lia) 0%nat). reflexivity. }
  subst r. apply (inv_reader_done _ _ I). rewrite Er. apply list_elem_of_here.
Qed.

Lemma Inv_step_walk w s s' : Inv w s -> step_of w GWalk s = Some s' -> Inv w s'.
Proof.
  intros I H.
  destruct (Z_lt_le_dec (w_workers w) 1) as [Hn|Hn].
  2: pose proof (all_done_closed w s I Hn) as Hall.
  all: step_inv H; open_inv I s.
  all: constructor; simpl in *; easy_inv.
  all: try solve [split_pcs].
  all: rewrite ?not_elem_of_cons in *; easy_inv.
Qed.

Lemma Inv_step_reader w i s s' :
  Inv w s -> step_of w (GReader i) s = Some s' -> Inv w s'.
Proof.
  intros I H. step_inv H; open_inv I s.
  all: match goal with
       | H : ?l !! ?i = Some ?x |- _ =>
           pose proof (fun y => live_insert l i x y H) as Hlive;
           pose proof (Hlive RDone) as HliveD; simpl in HliveD
       end.
  all: constructor; simpl in *; rewrite ?length_insert; easy_inv.
  all: try solve [split_pcs].
  all: try match goal with
       | |- context [live (<[_:=?y]> _)] => specialize (Hlive y); simpl in Hlive; lia
       end.
  all: try (intros Hin; apply elem_of_insert_inv in Hin as [?|?]; easy_inv).
Qed.

Lemma Inv_step w s s' : Inv w s -> step w s s' -> Inv w s'.
Proof.
  intros I [[| |i|] H].
  - eapply Inv_step_main; eauto.
  - eapply Inv_step_walk; eauto.
  - eapply Inv_step_reader; eauto.
  - eapply Inv_step_agg; eauto.
Qed.

Lemma reachable_Inv w s : reachable w s -> Inv w s.
Proof.
  induction 1 as [|s s' _ IH Hs]; [apply Inv_init | eapply Inv_step; eauto].
Qed.

(** ** Every run ends, and ends with [traverse] returning *)

Lemma measure_step w s s' :
  Inv w s -> step w s s' -> (measure w s' < measure w s)%nat.
Proof.
  intros I [g H].
  pose proof (inv_walk_idle _ _ I) as Hw. pose proof (inv_agg_idle _ _ I) as Ha.
  clear I.
  destruct g; step_inv H;
    destruct s as [mn wk rs ag ch chc sq sqc wg swg tot cr tr];
    unfold measure; simpl in *; subst;
    rewrite ?length_app, ?sum_list_with_app; simpl; try lia.
  all: try match goal with
       | H : ?l !! ?i = Some ?x |- context [sum_list_with reader_weight (<[_:=?y]> _)] =>
           pose proof (sum_list_with_insert reader_weight l i x y H) as Hs;
           simpl in Hs; try lia
       end.
  - destruct wk; try discriminate. unfold walk_weight, walk_script.
    match goal with H : Walk _ _ _ = _ |- _ => rewrite H end. simpl. lia.
  - destruct ag; try discriminate. simpl. lia.
Qed.

Lemma can_step w g s : is_Some (step_of w g s) -> exists s', step w s s'.
Proof. intros [s' H]. exists s', g. exact H. Qed.

Lemma always_returns_mono w (P Q : state -> Stats -> Prop) s :
  (forall s' r, returned s' = Some r -> P s' r -> Q s' r) ->
  always_returns w P s -> always_returns w Q s.
Proof.
  intros HPQ. induction 1 as [s r Hr HP|s Hr Hex _ IH].
  - eapply ar_returned; eauto.
  - apply ar_step; auto.
Qed.

Section with_a_reader.
Context (w : World) (Hn : 1 <= w_workers w).

(** With a reader, a goroutine can take a step until [traverse] has
    returned. *)
Lemma progress s :
  Inv w s -> returned s = None -> exists s', step w s s'.
Proof.
  intros I Hr.
  assert (Hc : st_crashed s = false).
  { pose proof (inv_crashed _ _ I). destruct (st_crashed s); [lia|reflexivity]. }
  assert (Hagg : forall st rest, st_statsCh s = st :: rest ->
                   (3 <= rank (st_main s))%nat -> st_statsCh_closed s = false ->
                   exists s', step w s s').
  { intros st rest Hq Hrk Hcl. apply (can_step w GAggregate).
    unfold step_of, step_agg. rewrite Hc, Hq.
    pose proof (inv_agg_idle _ _ I) as Ha. pose proof (inv_agg_done _ _ I) as Hd.
    destruct (st_agg s); simpl in *.
    - symmetry in Ha. apply Nat.ltb_lt in Ha. lia.
    - eauto.
    - destruct Hd. congruence. }
  assert (Hfull : forall (q : list Stats), (length q <? chanCap)%nat = false ->
                    exists st rest, q = st :: rest).
  { intros [|st rest] Hq; [discriminate|eauto]. }
  unfold returned in Hr. destruct (st_main s) eqn:Em.
  - (* the loop *) apply (can_step w GMain). unfold step_of, step_main.
    rewrite Hc, Em. destruct (_ <? _); eauto.
  - apply (can_step w GMain). unfold step_of, step_main. rewrite Hc, Em.
    destruct (Walk _ _ _). eauto.
  - apply (can_step w GMain). unfold step_of, step_main. rewrite Hc, Em. eauto.
  - (* wg.Wait() *)
    destruct (st_wg s =? 0) eqn:Ewg.
    { apply (can_step w GMain). unfold step_of, step_main. rewrite Hc, Em, Ewg. eauto. }
    apply Z.eqb_neq in Ewg. rewrite (inv_wg _ _ I) in Ewg.
    destruct (live_pos (st_readers s) ltac:(lia)) as (i & r & Hi & Hlive).
    pose proof (inv_stats_closed _ _ I) as Hsc. rewrite Em in Hsc. simpl in Hsc.
    destruct r; try discriminate.
    + (* a reader waiting for a task *)
      destruct (st_ch s) as [|p rest] eqn:Ech.
      * destruct (st_ch_closed s) eqn:Ecl.
        { apply (can_step w (GReader i)). unfold step_of, step_reader.
          rewrite Hc, Hi, Ech, Ecl. destruct (_ <=? _); eauto. }
        pose proof (inv_ch_closed _ _ I) as Hwd. rewrite Hc, Ecl in Hwd.
        pose proof (inv_walk_idle _ _ I) as Hwi. rewrite Em in Hwi. simpl in Hwi.
        destruct (st_walk s) as [|evs err d|d| |] eqn:Ew; try discriminate.
        -- destruct evs as [|[item| |] evs].
           ++ apply (can_step w GWalk). unfold step_of, step_walk. rewrite Hc, Ew.
              destruct err; eauto.
           ++ apply (can_step w GWalk). unfold step_of, step_walk.
              rewrite Hc, Ew, Ecl, Ech. eauto.
           ++ apply (can_step w GWalk). unfold step_of, step_walk. rewrite Hc, Ew. eauto.
           ++ apply (can_step w GWalk). unfold step_of, step_walk. rewrite Hc, Ew. eauto.
        -- destruct (length (st_statsCh s) <? chanCap)%nat eqn:El.
           ++ apply (can_step w GWalk). unfold step_of, step_walk.
              rewrite Hc, Ew, Hsc, El. eauto.
           ++ destruct (Hfull _ El) as (st & rest & Hq).
              apply (Hagg st rest Hq); [simpl; lia | exact Hsc].
        -- apply (can_step w GWalk). unfold step_of, step_walk. rewrite Hc, Ew, Ecl. eauto.
      * apply (can_step w (GReader i)). unfold step_of, step_reader.
        rewrite Hc, Hi, Ech. destruct (readFile_body _ _). eauto.
    + (* a reader holding a stat *)
      destruct (length (st_statsCh s) <? chanCap)%nat eqn:El.
      * apply (can_step w (GReader i)). unfold step_of, step_reader.
        rewrite Hc, Hi, Hsc, El. eauto.
      * destruct (Hfull _ El) as (st & rest & Hq).
        apply (Hagg st rest Hq); [simpl; lia | exact Hsc].
  - apply (can_step w GMain). unfold step_of, step_main. rewrite Hc, Em.
    destruct (st_statsCh_closed s); eauto.
  - (* statsWg.Wait() *)
    destruct (st_statsWg s =? 0) eqn:Ewg.
    { apply (can_step w GMain). unfold step_of, step_main. rewrite Hc, Em, Ewg. eauto. }
    apply Z.eqb_neq in Ewg. pose proof (inv_statsWg _ _ I) as Hsw.
    pose proof (inv_stats_closed _ _ I) as Hsc. rewrite Em in Hsc. simpl in Hsc.
    destruct (st_agg s) eqn:Ea; try lia.
    apply (can_step w GAggregate). unfold step_of, step_agg. rewrite Hc, Ea.
    destruct (st_statsCh s); [|eauto].
    rewrite Hsc. destruct (_ <=? _); eauto.
  - discriminate.
Qed.

Lemma always_returns_from s :
  reachable w s -> always_returns w (fun s' _ => reachable w s') s.
Proof.
  remember (measure w s) as m eqn:Hm. revert s Hm.
  induction m as [m IH] using lt_wf_ind. intros s -> Hs.
  destruct (returned s) as [r|] eqn:Hr.
  - eapply ar_returned; eauto.
  - apply ar_step; [exact Hr | |].
    + apply progress; auto. apply reachable_Inv. exact Hs.
    + intros s' Hstep. eapply IH; [|reflexivity|].
      * apply measure_step; [apply reachable_Inv; exact Hs | exact Hstep].
      * eapply reach_step; eauto.
Qed.

(** With at least one reader, [traverse] returns under every schedule. *)
Lemma traverse_returns : always_returns w (fun s _ => reachable w s) init.
Proof. apply always_returns_from. constructor. Qed.

End with_a_reader.

(** ** Nothing is lost on the way to the total *)

Lemma stats_ext a b :
  files a = files b -> dirs a = dirs b -> bytes a = bytes b -> a = b.
Proof. destruct a, b. simpl. congruence. Qed.

Lemma ssum_map_insert {A} (f : A -> Stats) (l : list A) i x y :
  l !! i = Some x ->
  splus (ssum (map f (<[i:=y]> l))) (f x) = splus (ssum (map f l)) (f y).
Proof.
  revert i. induction l as [|a l IH]; intros [|i] H; simpl in *; simplify_eq.
  - apply stats_ext; simpl; lia.
  - specialize (IH i H).
    apply (f_equal files) in IH as IH1. apply (f_equal dirs) in IH as IH2.
    apply (f_equal bytes) in IH as IH3. simpl in IH1, IH2, IH3.
    apply stats_ext; simpl; lia.
Qed.

Lemma stat_of_body io p :
  stat_of io p = match snd (readFile_body io p) with Some st => st | None => zeroStats end.
Proof. reflexivity. Qed.

Ltac stats_fields :=
  apply stats_ext; unfold in_flight; simpl;
  rewrite ?map_app, ?ssum_app; simpl; try lia.

Lemma in_flight_step w s s' :
  Inv w s -> step w s s' -> norm (in_flight w s') = norm (in_flight w s).
Proof.
  intros I [g H].
  pose proof (inv_walk_idle _ _ I) as Hw. clear I.
  destruct g; step_inv H;
    destruct s as [mn wk rs ag ch chc sq sqc wg swg tot cr tr]; simpl in *; subst.
  all: try match goal with
       | H : ?l !! ?i = Some ?x |- context [<[_:=?y]> _] =>
           pose proof (ssum_map_insert reader_holds l i x y H) as Hs;
           apply (f_equal files) in Hs as Hs1;
           apply (f_equal dirs) in Hs as Hs2;
           apply (f_equal bytes) in Hs as Hs3; simpl in Hs1, Hs2, Hs3
       end.
  all: try match goal with
       | H : readFile_body ?io ?p = _ |- _ =>
           pose proof (stat_of_body io p) as Hb; rewrite H in Hb; simpl in Hb
       end.
  all: try solve [f_equal; stats_fields].
  - (* go walk *)
    destruct wk; try discriminate. unfold in_flight. simpl. unfold walk_script.
    match goal with H : Walk _ _ _ = _ |- _ => rewrite H end. reflexivity.
  - (* dirs++ *)
    unfold in_flight, norm. simpl. f_equal.
    match goal with
    | |- wrapInt ?L = wrapInt ?R =>
        replace L with (wrapInt (dirs0 + 1) + (L - wrapInt (dirs0 + 1))) by lia;
        replace R with ((dirs0 + 1) + (L - wrapInt (dirs0 + 1))) by lia
    end.
    apply wrap_add_l.
  - f_equal. apply stats_ext; unfold in_flight; simpl; rewrite Hb; simpl; lia.
  - f_equal. apply stats_ext; unfold in_flight; simpl; rewrite Hb; simpl; lia.
  - (* stats.Add(s) *)
    unfold in_flight. simpl. rewrite Add_norm, norm_splus_l.
    fold (ssum l). rewrite !splus_assoc. reflexivity.
Qed.

Lemma in_flight_init w : norm (in_flight w init) = expected_stats w.
Proof.
  unfold in_flight, expected_stats. simpl. fold zeroStats.
  rewrite !splus_zero_l. reflexivity.
Qed.

Lemma reachable_conserved w s :
  reachable w s -> norm (in_flight w s) = expected_stats w.
Proof.
  induction 1 as [|s s' Hr IH Hs].
  - apply in_flight_init.
  - rewrite (in_flight_step w s s'); [exact IH | apply reachable_Inv; exact Hr | exact Hs].
Qed.

Lemma live_zero_holds rs : live rs = 0%nat -> ssum (map reader_holds rs) = zeroStats.
Proof.
  induction rs as [|r rs IH]; [reflexivity|].
  unfold live. simpl. destruct r; simpl; try lia.
  intros H. fold (ssum (map reader_holds rs)). rewrite splus_zero_l. apply IH. exact H.
Qed.

(** What the state looks like when [traverse] has returned. *)
Lemma returned_state w s r :
  Inv w s -> returned s = Some r ->
  st_stats s = r /\ st_agg s = ADone /\ st_statsCh s = []
  /\ st_statsCh_closed s = true /\ live (st_readers s) = 0%nat
  /\ length (st_readers s) = Z.to_nat (w_workers w).
Proof.
  intros I Hr. unfold returned in Hr.
  pose proof (inv_returned _ _ I) as H1. pose proof (inv_agg_done _ _ I) as H2.
  pose proof (inv_joined _ _ I) as H3. pose proof (inv_wg _ _ I) as H4.
  pose proof (inv_loop _ _ I) as H5.
  destruct (st_main s); try discriminate. simplify_eq. simpl in *.
  destruct H1 as [-> Ha]. rewrite Ha in H2. destruct H2 as [Hc Hq].
  repeat split; auto. lia.
Qed.

(** With a reader, everything has arrived in the total at the return. *)
Lemma returned_all_in w s r :
  1 <= w_workers w -> Inv w s -> returned s = Some r ->
  st_walk s = WDone /\ st_ch s = [] /\ in_flight w s = r /\ st_crashed s = false.
Proof.
  intros Hn I Hr.
  destruct (returned_state w s r I Hr) as (Hs & Ha & Hq & Hc & Hl & Hlen).
  destruct (all_done_closed w s I Hn Hc) as [Hcc Hch].
  assert (Hcr : st_crashed s = false).
  { pose proof (inv_crashed _ _ I) as Hcr. destruct (st_crashed s); [lia | reflexivity]. }
  pose proof (inv_ch_closed _ _ I) as Hw. rewrite Hcr, Hcc in Hw.
  assert (Hwd : st_walk s = WDone) by (destruct (st_walk s); try discriminate; reflexivity).
  repeat split; auto.
  unfold in_flight. rewrite Hq, Hch, Hwd, (live_zero_holds _ Hl), Hs. simpl.
  fold zeroStats. rewrite !splus_zero_r. reflexivity.
Qed.

(** With a reader, the stats returned are those the walk determines. *)
Lemma returned_expected w s r :
  1 <= w_workers w -> reachable w s -> returned s = Some r -> r = expected_stats w.
Proof.
  intros Hn Hs Hr. pose proof (reachable_Inv w s Hs) as I.
  destruct (returned_all_in w s r Hn I Hr) as (_ & _ & Hf & _).
  destruct (returned_state w s r I Hr) as (Hst & _).
  rewrite <- (reachable_conserved w s Hs), Hf.
  pose proof (inv_normal _ _ I) as Hnm. rewrite Hst in Hnm. symmetry. exact Hnm.
Qed.

(** ** Runs by a schedule are reachable *)

Lemma run_reachable w sched : forall s s',
  reachable w s -> run w sched s = Some s' -> reachable w s'.
Proof.
  induction sched as [|g sched IH]; intros s s' Hs Hr; simpl in Hr.
  - congruence.
  - destruct (step_of w g s) as [s1|] eqn:E; [|discriminate].
    apply (IH s1 s'); [|exact Hr]. eapply reach_step; [exact Hs|]. exists g. exact E.
Qed.

Lemma first_enabled_step w gs s s' : first_enabled w gs s = Some s' -> step w s s'.
Proof.
  induction gs as [|g gs IH]; simpl; [discriminate|].
  destruct (step_of w g s) as [s1|] eqn:E.
  - intros [= <-]. exists g. exact E.
  - exact IH.
Qed.

Lemma exec_reachable w gs fuel : forall s, reachable w s -> reachable w (exec w gs fuel s).
Proof.
  induction fuel as [|fuel IH]; intros s Hs; simpl; [exact Hs|].
  destruct (first_enabled w gs s) as [s'|] eqn:E; [|exact Hs].
  apply IH. eapply reach_step; [exact Hs|]. eapply first_enabled_step. exact E.
Qed.

Example scenario_run :
  returned (exec scenario all_goroutines 60 init) = Some (mkStats 3 2 60).
Proof. vm_compute. reflexivity. Qed.

Example scenario_run_one_worker :
  returned (exec (with_workers 1 scenario) all_goroutines 60 init) = Some (mkStats 3 2 60).
Proof. vm_compute. reflexivity. Qed.

(** ** The totals of a tree without failures *)

Lemma ssum_readable io ps :
  (forall p, p ∈ ps -> readable (io p)) ->
  ssum (map (stat_of io) ps)
  = mkStats (Z.of_nat (length ps)) 0 (foldr (fun p acc => copy_n (io p) + acc) 0 ps).
Proof.
  induction ps as [|p ps IH]; intros H; [reflexivity|].
  cbn [map ssum foldr length]. fold (ssum (map (stat_of io) ps)).
  rewrite IH by (intros q Hq; apply H; apply elem_of_cons; auto).
  destruct (H p ltac:(apply list_elem_of_here)) as (Ho & Hc & Hcl).
  unfold stat_of, readFile_body. rewrite Ho, Hc, Hcl. unfold splus. simpl.
  f_equal; lia.
Qed.

Lemma expected_healthy w :
  healthy (w_tree w) = true ->
  (forall p, p ∈ file_paths (w_dir w) (w_tree w) -> readable (w_io w p)) ->
  expected_stats w =
  norm (mkStats (count_files (w_tree w)) (count_dirs (w_tree w))
          (total_bytes (w_io w) (w_dir w) (w_tree w))).
Proof.
  intros Hh Hr. unfold expected_stats, walk_script.
  destruct (Walk_healthy (w_dir w) (w_tree w) Hh) as (H1 & H2 & _).
  rewrite H1, H2, ssum_readable by exact Hr.
  rewrite length_file_paths. unfold splus, total_bytes. simpl.
  f_equal. f_equal; lia.
Qed.

(** What [always_returns] says of two properties, and that it is
    never empty. *)
Lemma always_returns_conj w (P Q : state -> Stats -> Prop) s :
  always_returns w P s -> always_returns w Q s ->
  always_returns w (fun s' r => P s' r /\ Q s' r) s.
Proof.
  induction 1 as [s r Hr HP|s Hr Hex _ IH]; intros HQ.
  - inversion HQ as [s0 r0 Hr0 HQ0|s0 Hr0 _ _]; subst; [|congruence].
    rewrite Hr in Hr0. injection Hr0 as <-. eapply ar_returned; eauto.
  - inversion HQ as [s0 r0 Hr0 HQ0|s0 Hr0 _ Hall]; subst; [congruence|].
    apply ar_step; auto.
Qed.

Lemma always_returns_ex w (P : state -> Stats -> Prop) s :
  always_returns w P s -> exists s' r, returned s' = Some r /\ P s' r.
Proof.
  induction 1 as [s r Hr HP|s Hr [s' Hs'] _ IH]; [eauto|].
  exact (IH s' Hs').
Qed.

(** C1 as stated fails on a tree with an entry that cannot be
    examined: in [broken] the one regular file is readable, so F = 1,
    D = 1 and B = 5, but the walk ends at the entry before it and
    [traverse] returns 0 files, 1 directory and 0 bytes. *)
Lemma C1_counterexample :
  ~ (forall w : World,
        1 <= w_workers w ->
        (forall p, p ∈ file_paths (w_dir w) (w_tree w) -> readable (w_io w p)) ->
        inInt (count_files (w_tree w)) ->
        inInt (count_dirs (w_tree w)) ->
        inInt64 (total_bytes (w_io w) (w_dir w) (w_tree w)) ->
        always_returns w
          (fun _ r => r = {| files := count_files (w_tree w);
                             dirs := count_dirs (w_tree w);
                             bytes := total_bytes (w_io w) (w_dir w) (w_tree w) |})
          init).
Proof.
  intros H.
  assert (Hn : 1 <= w_workers broken) by (vm_compute; discriminate).
  specialize (H broken Hn).
  assert (HA : always_returns broken (fun _ r => r = mkStats 1 1 5) init).
  { apply H.
    - intros p _. repeat split; reflexivity.
    - vm_compute. split; [discriminate | reflexivity].
    - vm_compute. split; [discriminate | reflexivity].
    - vm_compute. split; [discriminate | reflexivity]. }
  destruct (always_returns_ex _ _ _
              (always_returns_conj _ _ _ _ HA (traverse_returns broken Hn)))
    as (s & r & Hr & -> & Hs).
  pose proof (returned_expected broken s _ Hn Hs Hr) as E.
  vm_compute in E. discriminate E.
Qed.

(** C1 (amended). Conservation: a tree without failures (every entry
    can be examined and every directory listed) whose [F] regular
    files are all readable and hold [B] bytes, in [D] directories, the
    root included: with one worker or more, [traverse] returns under
    every schedule, and returns files = F, dirs = D and bytes = B (the
    three being values of the fields' types). *)
Theorem C1_conservation (w : World) :
  1 <= w_workers w ->
  healthy (w_tree w) = true ->
  (forall p, p ∈ file_paths (w_dir w) (w_tree w) -> readable (w_io w p)) ->
  inInt (count_files (w_tree w)) ->
  inInt (count_dirs (w_tree w)) ->
  inInt64 (total_bytes (w_io w) (w_dir w) (w_tree w)) ->
  always_returns w
    (fun _ r => r = {| files := count_files (w_tree w);
                       dirs := count_dirs (w_tree w);
                       bytes := total_bytes (w_io w) (w_dir w) (w_tree w) |})
    init.
Proof.
  intros Hn Hh Hr HF HD HB.
  eapply always_returns_mono; [|apply traverse_returns; exact Hn].
  intros s r E Hs. cbv beta.
  rewrite (returned_expected w s r Hn Hs E), expected_healthy by assumption.
  unfold norm. cbn [files dirs bytes].
  rewrite (wrapInt_small _ HF), (wrapInt_small _ HD), (wrapInt64_small _ HB).
  reflexivity.
Qed.

Lemma C1_conservation_witness :
  always_returns scenario (fun _ r => r = mkStats 3 2 60) init.
Proof.
  apply (C1_conservation scenario).
  - vm_compute. discriminate.
  - reflexivity.
  - intros p Hp. vm_compute in Hp.
    repeat (apply elem_of_cons in Hp as [->|Hp]); try (repeat split; reflexivity).
    apply elem_of_nil in Hp. destruct Hp.
  - vm_compute. split; [discriminate | reflexivity].
  - vm_compute. split; [discriminate | reflexivity].
  - vm_compute. split; [discriminate | reflexivity].
Defined.

(** C3. [Add] adds field by field (in the fields' machine arithmetic),
    is commutative and associative, and merging a finite sequence of
    stats gives the same total in any order. *)
Theorem C3_merge_order_independent (a b c total : Stats) (l l' : list Stats) :
  l ≡ₚ l' ->
  Add a b = {| files := wrapInt (files a + files b);
               dirs := wrapInt (dirs a + dirs b);
               bytes := wrapInt64 (bytes a + bytes b) |}
  /\ Add a b = Add b a
  /\ Add (Add a b) c = Add a (Add b c)
  /\ merge total l = merge total l'
  /\ files (merge total l) = files (merge total l')
  /\ dirs (merge total l) = dirs (merge total l')
  /\ bytes (merge total l) = bytes (merge total l').
Proof.
  intros Hp. pose proof (merge_perm l l' Hp total) as Hm.
  repeat split; try (rewrite Hm; reflexivity).
  - apply Add_comm.
  - apply Add_assoc.
Qed.

Lemma C3_merge_order_independent_witness :
  merge zeroStats [mkStats 1 0 10; mkStats 0 2 0; mkStats 1 0 30]
  = merge zeroStats [mkStats 0 2 0; mkStats 1 0 30; mkStats 1 0 10].
Proof.
  refine (proj1 (proj2 (proj2 (proj2
    (C3_merge_order_independent zeroStats zeroStats zeroStats zeroStats
       [mkStats 1 0 10; mkStats 0 2 0; mkStats 1 0 30]
       [mkStats 0 2 0; mkStats 1 0 30; mkStats 1 0 10] _))))).
  apply (Permutation_cons_append [mkStats 0 2 0; mkStats 1 0 30] (mkStats 1 0 10)).
Defined.

(** On exact sums the merge is the field-wise sum of the sequence. *)
Lemma merge_exact l :
  inInt (files (ssum l)) -> inInt (dirs (ssum l)) -> inInt64 (bytes (ssum l)) ->
  merge zeroStats l = ssum l.
Proof.
  intros HF HD HB. rewrite merge_ssum by reflexivity. rewrite splus_zero_l.
  unfold norm. rewrite (wrapInt_small _ HF), (wrapInt_small _ HD), (wrapInt64_small _ HB).
  destruct (ssum l). reflexivity.
Qed.

(** ** The worker count *)

Lemma expected_with_workers n w : expected_stats (with_workers n w) = expected_stats w.
Proof. reflexivity. Qed.

(** With at least one reader [traverse] returns the stats the walk
    determines, under every schedule. *)
Lemma traverse_total w :
  1 <= w_workers w ->
  always_returns w (fun _ r => r = expected_stats w) init.
Proof.
  intros Hn. eapply always_returns_mono; [|apply traverse_returns; exact Hn].
  intros s r E Hs. apply (returned_expected w s r Hn Hs E).
Qed.

(** C4 as stated fails at worker count 0: [traverse] closes the stats
    channel at once and can return the zero stats, while one worker
    returns 3 files, 2 directories and 60 bytes for the same tree. *)
Lemma C4_counterexample :
  ~ (forall (w : World) (n1 n2 : Z) (s1 s2 : state) (r1 r2 : Stats),
        reachable (with_workers n1 w) s1 -> returned s1 = Some r1 ->
        reachable (with_workers n2 w) s2 -> returned s2 = Some r2 ->
        r1 = r2).
Proof.
  intros H.
  destruct (run (with_workers 0 scenario)
              [GMain; GMain; GMain; GMain; GMain; GAggregate; GMain] init)
    as [s0|] eqn:E0; [|vm_compute in E0; discriminate].
  specialize (H scenario 0 1 s0
    (exec (with_workers 1 scenario) all_goroutines 60 init)
    zeroStats (mkStats 3 2 60)).
  assert (E : zeroStats = mkStats 3 2 60).
  { apply H.
    - eapply run_reachable; [constructor | exact E0].
    - vm_compute in E0. injection E0 as <-. reflexivity.
    - apply exec_reachable. constructor.
    - vm_compute. reflexivity. }
  discriminate E.
Qed.

(** C4 (amended). For a fixed tree, any two worker counts of at least
    one give the same stats: under every schedule [traverse] returns,
    and returns one and the same [Stats] value. *)
Theorem C4_worker_count_invariance (w : World) (n1 n2 : Z) :
  1 <= n1 -> 1 <= n2 ->
  exists r : Stats,
    always_returns (with_workers n1 w) (fun _ r1 => r1 = r) init
    /\ always_returns (with_workers n2 w) (fun _ r2 => r2 = r) init.
Proof.
  intros H1 H2. exists (expected_stats w). split.
  - rewrite <- (expected_with_workers n1 w). apply traverse_total. exact H1.
  - rewrite <- (expected_with_workers n2 w). apply traverse_total. exact H2.
Qed.

Lemma C4_worker_count_invariance_witness :
  exists r : Stats,
    always_returns (with_workers 1 scenario) (fun _ r1 => r1 = r) init
    /\ always_returns (with_workers 8 scenario) (fun _ r2 => r2 = r) init.
Proof. apply (C4_worker_count_invariance scenario 1 8); lia. Defined.

(** ** The trace invariant holds in every reachable state *)

Lemma tasks_sent_app tr es : tasks_sent (tr ++ es) = tasks_sent tr ++ tasks_sent es.
Proof. apply flat_map_app. Qed.
Lemma tasks_taken_app tr es : tasks_taken (tr ++ es) = tasks_taken tr ++ tasks_taken es.
Proof. apply flat_map_app. Qed.
Lemma taken_by_app i tr es : taken_by i (tr ++ es) = taken_by i tr ++ taken_by i es.
Proof. apply flat_map_app. Qed.
Lemma sent_app tr es : sent (tr ++ es) = sent tr ++ sent es.
Proof. apply flat_map_app. Qed.
Lemma stats_by_app g tr es : stats_by g (tr ++ es) = stats_by g tr ++ stats_by g es.
Proof. apply flat_map_app. Qed.
Lemma merged_app tr es : merged (tr ++ es) = merged tr ++ merged es.
Proof. apply flat_map_app. Qed.
Lemma stats_by_readers_app tr es :
  stats_by_readers (tr ++ es) = stats_by_readers tr ++ stats_by_readers es.
Proof. apply flat_map_app. Qed.
Lemma walk_events_app tr es : walk_events (tr ++ es) = walk_events tr ++ walk_events es.
Proof. apply List.filter_app. Qed.
Lemma stats_of_tasks_app io ps qs :
  stats_of_tasks io (ps ++ qs) = stats_of_tasks io ps ++ stats_of_tasks io qs.
Proof. apply flat_map_app. Qed.

Ltac trace_simpl :=
  rewrite ?tasks_sent_app, ?tasks_taken_app, ?taken_by_app, ?sent_app,
    ?stats_by_app, ?merged_app, ?stats_by_readers_app, ?walk_events_app,
    ?stats_of_tasks_app;
  simpl; rewrite ?app_nil_r.

Ltac open_tinv I T s :=
  destruct I;
  destruct T as [Twalk Tdirs Ttasks Tsent Ttotal Treaders Tsenders Tnc Tc Trd Tad];
  destruct s as [mn wk rs ag ch chc sq sqc wg swg tot cr tr];
  simpl in *; subst; simpl in *.

Lemma TInv_init w : TInv w init.
Proof.
  constructor; simpl; try done.
  intros _ g. apply not_elem_of_nil.
Qed.

(** Until a panic, [walk] has done a first part of what it does. *)
Lemma walk_trace w s :
  TInv w s -> st_crashed s = false ->
  walk_events (st_trace s) ++ walk_todo w (st_walk s) = walk_program w.
Proof. intros T Hc. pose proof (t_walk _ _ T) as H. rewrite Hc in H. exact H. Qed.

Lemma not_elem_of_snoc {A} (l : list A) x y : x ∉ l -> x <> y -> x ∉ l ++ [y].
Proof.
  intros H1 H2 H. apply elem_of_app in H as [H|H]; [auto|].
  apply list_elem_of_singleton in H. auto.
Qed.

Lemma elem_of_snoc_l {A} (l : list A) x y : x ∈ l -> x ∈ l ++ [y].
Proof. intros H. apply elem_of_app. auto. Qed.

(** Events that are not of reader [i] leave it as it is. *)
Lemma reader_ok_other w tr es i o :
  stats_by (GReader i) es = [] -> taken_by i es = [] ->
  reader_ok w tr i o -> reader_ok w (tr ++ es) i o.
Proof.
  intros H1 H2. unfold reader_ok. rewrite stats_by_app, taken_by_app, H1, H2, !app_nil_r.
  auto.
Qed.

Lemma reader_ok_spawn w tr rs :
  (forall i, reader_ok w tr i (rs !! i)) ->
  forall i, reader_ok w tr i ((rs ++ [RRecv]) !! i).
Proof.
  intros H i. specialize (H i).
  destruct (decide (i < length rs)%nat) as [Hlt|Hge].
  - rewrite lookup_app_l by exact Hlt. exact H.
  - rewrite lookup_ge_None_2 in H by lia. destruct H as [H1 H2].
    destruct (decide (i = length rs)) as [->|Hne].
    + rewrite list_lookup_middle by reflexivity. unfold reader_ok.
      rewrite H1, H2. reflexivity.
    + rewrite lookup_ge_None_2 by (rewrite length_app; simpl; lia).
      split; assumption.
Qed.

Lemma TInv_step_main w s s' :
  Inv w s -> TInv w s -> step_of w GMain s = Some s' -> TInv w s'.
Proof.
  intros I T H. step_inv H; open_tinv I T s.
  all: constructor; simpl in *; trace_simpl; auto.
  all: try solve [intros; apply elem_of_snoc_l; auto].
  all: try solve [intros; apply not_elem_of_snoc; [auto | discriminate]].
  all: try solve [intros i'; apply reader_ok_other; auto].
  all: try solve [split_pcs].
  - apply reader_ok_spawn. exact Treaders.
  - intros i0 Hi. apply Trd. apply lookup_app_Some in Hi as [Hi|[_ Hi]]; [exact Hi|].
    destruct (i0 - length rs)%nat as [|[|k]]; simpl in Hi; discriminate.
  - destruct wk; try discriminate. simpl in Twalk.
    unfold walk_program, walk_script in *.
    match goal with H : Walk _ _ _ = _ |- _ => rewrite H in * end. exact Twalk.
  - intros _. apply elem_of_app. right. apply list_elem_of_here.
Qed.

Lemma TInv_step_agg w s s' :
  Inv w s -> TInv w s -> step_of w GAggregate s = Some s' -> TInv w s'.
Proof.
  intros I T H. step_inv H; open_tinv I T s.
  all: constructor; simpl in *; trace_simpl; auto.
  all: try solve [intros; apply elem_of_snoc_l; auto].
  all: try solve [intros; apply not_elem_of_snoc; [auto | discriminate]].
  all: try solve [intros i'; apply reader_ok_other; auto].
  all: try solve [split_pcs].
  - rewrite app_nil_r in Tsent. exact Tsent.
  - intros _. apply elem_of_app. right. apply list_elem_of_here.
  - rewrite <- app_assoc. exact Tsent.
  - unfold merge. rewrite fold_left_app. reflexivity.
Qed.

Lemma TInv_step_walk w s s' :
  Inv w s -> TInv w s -> step_of w GWalk s = Some s' -> TInv w s'.
Proof.
  intros I T H. step_inv H; open_tinv I T s.
  all: constructor; simpl in *; trace_simpl; auto.
  all: try solve [intros; apply elem_of_app; left; auto].
  all: try solve [intros; rewrite elem_of_app; intros [Hin|Hin];
                  [ eapply Tnc; eauto
                  | repeat (apply elem_of_cons in Hin as [Hin|Hin]; [discriminate|]);
                    apply elem_of_nil in Hin; exact Hin ]].
  all: try solve [intros i'; apply reader_ok_other; auto].
  all: try solve [split_pcs].
  all: try solve [rewrite <- Twalk, <- ?app_assoc; simpl;
                  rewrite ?Z.add_0_r, ?Tdirs; reflexivity].
  all: try solve [rewrite ?Ttasks, ?Tsent, <- ?app_assoc; reflexivity].
  - assert (E : wrapInt (wrapInt (dirs0 + 1) + counts_of l)
                 = wrapInt (dirs0 + (1 + counts_of l))).
    { unfold wrapInt. rewrite wrap_add_l. f_equal. lia. }
    rewrite <- Twalk, E. reflexivity.
  - apply wrap_idem.
Qed.

Lemma reader_ok_insert w tr es (rs : list reader_pc) i r r' :
  rs !! i = Some r ->
  (forall i0, reader_ok w tr i0 (rs !! i0)) ->
  (forall i0, i0 <> i -> stats_by (GReader i0) es = [] /\ taken_by i0 es = []) ->
  reader_ok w (tr ++ es) i (Some r') ->
  forall i0, reader_ok w (tr ++ es) i0 (<[i:=r']> rs !! i0).
Proof.
  intros Hi Hall Hes Hnew i0. destruct (decide (i0 = i)) as [->|Hne].
  - rewrite list_lookup_insert_eq by (eapply lookup_lt_Some; exact Hi). exact Hnew.
  - rewrite list_lookup_insert_ne by auto.
    destruct (Hes i0 Hne). apply reader_ok_other; auto.
Qed.

Lemma done_insert (tr es : list event) (rs : list reader_pc) i (r r' : reader_pc) :
  rs !! i = Some r ->
  (forall i0, rs !! i0 = Some RDone -> EvDone (GReader i0) ∈ tr) ->
  (r' = RDone -> EvDone (GReader i) ∈ tr ++ es) ->
  forall i0, <[i:=r']> rs !! i0 = Some RDone -> EvDone (GReader i0) ∈ tr ++ es.
Proof.
  intros Hi Hall Hnew i0. destruct (decide (i0 = i)) as [->|Hne].
  - rewrite list_lookup_insert_eq by (eapply lookup_lt_Some; exact Hi).
    intros [= ->]. auto.
  - rewrite list_lookup_insert_ne by auto. intros H. apply elem_of_app. auto.
Qed.

Ltac other_reader :=
  let i0 := fresh "i0" in let Hne := fresh "Hne" in
  intros i0 Hne; simpl;
  rewrite ?(proj2 (Nat.eqb_neq _ _) Hne); auto.

Lemma TInv_step_reader w i s s' :
  Inv w s -> TInv w s -> step_of w (GReader i) s = Some s' -> TInv w s'.
Proof.
  intros I T H. step_inv H.
  all: try match goal with
       | H : readFile_body _ _ = _ |- _ =>
           pose proof H as Hbody;
           unfold readFile_body in H; repeat case_match; simplify_eq
       end.
  all: open_tinv I T s; rewrite ?app_nil_r in *.
  all: match goal with
       | H : ?l !! ?i = Some ?x |- _ => pose proof (Treaders i) as Hme; rewrite H in Hme
       end; unfold reader_ok in Hme; simpl in Hme; rewrite ?app_nil_r in Hme.
  all: constructor; simpl in *; trace_simpl; auto.
  all: try solve [intros; apply elem_of_app; left; auto].
  all: try solve [intros; rewrite elem_of_app; intros [Hin|Hin];
                  [ eapply Tnc; eauto
                  | repeat (apply elem_of_cons in Hin as [Hin|Hin]; [discriminate|]);
                    apply elem_of_nil in Hin; exact Hin ]].
  all: try solve [split_pcs].
  all: try solve [rewrite ?Ttasks, ?Tsent, <- ?app_assoc; reflexivity].
  all: try solve [intros i'; apply reader_ok_other; auto].
  all: try solve [eapply done_insert; eauto; try discriminate;
                  intros _; apply elem_of_app; right; apply list_elem_of_here].
  all: eapply reader_ok_insert; [eassumption | eassumption | other_reader | ].
  all: unfold reader_ok; trace_simpl; rewrite ?Nat.eqb_refl; simpl; rewrite ?app_nil_r.
  all: try congruence.
  all: rewrite Hbody; simpl; rewrite ?app_nil_r; congruence.
Qed.

Lemma TInv_step w s s' : Inv w s -> TInv w s -> step w s s' -> TInv w s'.
Proof.
  intros I T [[| |i|] H].
  - eapply TInv_step_main; eauto.
  - eapply TInv_step_walk; eauto.
  - eapply TInv_step_reader; eauto.
  - eapply TInv_step_agg; eauto.
Qed.

Lemma reachable_TInv w s : reachable w s -> TInv w s.
Proof.
  induction 1 as [|s s' Hr IH Hs]; [apply TInv_init|].
  eapply TInv_step; eauto. apply reachable_Inv. exact Hr.
Qed.

(** ** Where an event of a trace comes from *)

Lemma app_eq_cons_split {A} (tr es l1 l2 : list A) (e : A) :
  tr ++ es = l1 ++ e :: l2 ->
  (exists l2', tr = l1 ++ e :: l2' /\ l2 = l2' ++ es)
  \/ (exists pre, l1 = tr ++ pre /\ es = pre ++ e :: l2).
Proof.
  revert l1. induction tr as [|a tr IH]; intros l1 H; simpl in *.
  - right. exists l1. auto.
  - destruct l1 as [|b l1]; simpl in *.
    + injection H as -> <-. left. exists tr. auto.
    + injection H as -> H. destruct (IH l1 H) as [(l2' & -> & ->)|(pre & -> & ->)].
      * left. exists l2'. auto.
      * right. exists pre. auto.
Qed.

(** A step adds events at the end of the trace. *)
Lemma step_trace w g s s' :
  step_of w g s = Some s' -> exists es, st_trace s' = st_trace s ++ es.
Proof.
  intros H. destruct g; step_inv H;
    destruct s as [mn wk rs ag ch chc sq sqc wg swg tot cr tr]; simpl;
    try (eexists; reflexivity); exists []; rewrite app_nil_r; reflexivity.
Qed.

(** Every event of the trace of a reachable state was added by a step
    from a reachable state, and the state was reached from there. *)
Lemma event_origin w s :
  reachable w s -> forall l1 e l2, st_trace s = l1 ++ e :: l2 ->
  exists s1 g s1' pre post,
    reachable w s1 /\ step_of w g s1 = Some s1'
    /\ l1 = st_trace s1 ++ pre
    /\ st_trace s1' = st_trace s1 ++ pre ++ e :: post
    /\ rtc (step w) s1' s.
Proof.
  induction 1 as [|s s' Hr IH [g Hs]]; intros l1 e l2 Ht.
  - destruct l1; discriminate.
  - destruct (step_trace w g s s' Hs) as [es Hes]. rewrite Hes in Ht.
    destruct (app_eq_cons_split _ _ _ _ _ Ht) as [(l2' & H1 & H2)|(pre & H1 & H2)].
    + destruct (IH l1 e l2' H1) as (s1 & g1 & s1' & pre & post & ? & ? & ? & ? & Hrtc).
      exists s1, g1, s1', pre, post. repeat split; auto.
      eapply rtc_r; [exact Hrtc | exists g; exact Hs].
    + exists s, g, s', pre, l2. repeat split; auto.
      * rewrite Hes, H2. reflexivity.
      * apply rtc_refl.
Qed.





(** Which steps add a given event. *)
Ltac emitted H :=
  match type of H with
  | ?tr ++ ?es = ?tr ++ _ => apply app_inv_head in H
  | ?tr = ?tr ++ _ =>
      exfalso; apply (f_equal length) in H; rewrite !length_app in H;
      simpl in H; lia
  end;
  match type of H with
  | _ = ?pre ++ _ => destruct pre as [|? [|? [|? ?]]]; simpl in H; simplify_eq
  end.

Ltac step_events H :=
  step_inv H;
  try match goal with
      | H : readFile_body _ _ = _ |- _ =>
          unfold readFile_body in H; repeat case_match; simplify_eq
      end.









(** ** What walk does, from the entries of the tree *)

Lemma walk_program_entries w :
  let vs := visited (entries (w_dir w) (w_tree w)) in
  walk_program w =
  map EvTask (files_in vs)
  ++ log_of (w_dir w) (first_error (entries (w_dir w) (w_tree w)))
  ++ [EvStat GWalk {| files := 0; dirs := wrapInt (dirs_in vs); bytes := 0 |};
      EvCloseTasks GWalk].
Proof.
  intros vs. unfold walk_program, walk_script. rewrite Walk_entries.
  destruct (until_error_walkFn (entries (w_dir w) (w_tree w)) (entries_wf _ _))
    as (H1 & H2 & H3 & _).
  rewrite H1, H2, H3. reflexivity.
Qed.

Lemma expected_entries w :
  let vs := visited (entries (w_dir w) (w_tree w)) in
  expected_stats w =
  norm (splus (ssum (map (stat_of (w_io w)) (files_in vs)))
              {| files := 0; dirs := dirs_in vs; bytes := 0 |}).
Proof.
  intros vs. unfold expected_stats, walk_script. rewrite Walk_entries.
  destruct (until_error_walkFn (entries (w_dir w) (w_tree w)) (entries_wf _ _))
    as (H1 & H2 & _).
  rewrite H1, H2. reflexivity.
Qed.

Lemma walk_events_subset tr e : e ∈ walk_events tr -> e ∈ tr.
Proof.
  unfold walk_events. rewrite !list_elem_of_In. intros H.
  apply List.filter_In in H. tauto.
Qed.

Lemma walk_events_elem tr e : e ∈ tr -> is_walk_event e = true -> e ∈ walk_events tr.
Proof.
  unfold walk_events. rewrite !list_elem_of_In. intros H1 H2.
  apply List.filter_In. auto.
Qed.

(** The events of [walk]'s program, one by one. *)
Lemma walk_program_elem w e :
  e ∈ walk_program w ->
  (exists p, e = EvTask p)
  \/ (exists err, e = EvLog (LogErrorWalking (w_dir w) err))
  \/ e = EvStat GWalk {| files := 0;
                         dirs := wrapInt (dirs_in (visited (entries (w_dir w) (w_tree w))));
                         bytes := 0 |}
  \/ e = EvCloseTasks GWalk.
Proof.
  rewrite walk_program_entries. cbv zeta.
  rewrite !elem_of_app, !elem_of_cons, elem_of_nil.
  intros [H|[H|[H|[H|[]]]]]; auto.
  - left. apply list_elem_of_fmap in H as (p & -> & _). eauto.
  - right. left. destruct (first_error _); simpl in H.
    + apply list_elem_of_singleton in H. eauto.
    + apply elem_of_nil in H. destruct H.
Qed.

(** Splitting a list that ends with the only element of its kind. *)
Lemma split_at_last {A} (f : A -> bool) (P : list A) : forall l1 l2 c c',
  l1 ++ c :: l2 = P ++ [c'] -> f c = true -> (forall x, x ∈ P -> f x = false) ->
  l1 = P /\ l2 = [] /\ c = c'.
Proof.
  induction P as [|a P IH]; intros l1 l2 c c' H Hc HP; simpl in H.
  - destruct l1 as [|b [|b' l1]]; simpl in H; simplify_eq; auto.
  - destruct l1 as [|b l1]; simpl in H.
    + injection H as -> H. rewrite (HP a) in Hc by apply list_elem_of_here. discriminate.
    + injection H as -> H.
      destruct (IH l1 l2 c c' H Hc) as (-> & -> & ->); auto.
      intros x Hx. apply HP. apply list_elem_of_further. exact Hx.
Qed.

Lemma goroutine_eqb_refl g : goroutine_eqb g g = true.
Proof. destruct g; simpl; auto using Nat.eqb_refl. Qed.

Lemma stats_by_elem g tr st : EvStat g st ∈ tr -> st ∈ stats_by g tr.
Proof.
  unfold stats_by. rewrite !list_elem_of_In, List.in_flat_map. intros H.
  exists (EvStat g st). split; [exact H|]. rewrite goroutine_eqb_refl. left. reflexivity.
Qed.

Lemma stats_by_walk_events tr : stats_by GWalk (walk_events tr) = stats_by GWalk tr.
Proof.
  unfold walk_events, stats_by. induction tr as [|e tr IH]; simpl; [reflexivity|].
  destruct e as [p|i p|m|g st|st|g|g|g|r|g]; try destruct m; try destruct g;
    simpl; try exact IH; f_equal; exact IH.
Qed.

Lemma tasks_sent_walk_events tr : tasks_sent (walk_events tr) = tasks_sent tr.
Proof.
  unfold walk_events, tasks_sent. induction tr as [|e tr IH]; simpl; [reflexivity|].
  destruct e as [p|i p|m|g st|st|g|g|g|r|g]; try destruct m; try destruct g;
    simpl; try exact IH; f_equal; exact IH.
Qed.

Lemma stats_by_tasks g l : stats_by g (map EvTask l) = [].
Proof. induction l as [|p l IH]; [reflexivity | exact IH]. Qed.

Lemma tasks_sent_tasks l : tasks_sent (map EvTask l) = l.
Proof. induction l as [|p l IH]; [reflexivity|]. simpl. f_equal. exact IH. Qed.

Lemma stats_by_walk_program w :
  stats_by GWalk (walk_program w)
  = [{| files := 0; dirs := wrapInt (dirs_in (visited (entries (w_dir w) (w_tree w))));
        bytes := 0 |}].
Proof.
  rewrite walk_program_entries. cbv zeta.
  rewrite !stats_by_app, stats_by_tasks. destruct (first_error _); reflexivity.
Qed.

Lemma tasks_sent_walk_program w :
  tasks_sent (walk_program w) = files_in (visited (entries (w_dir w) (w_tree w))).
Proof.
  rewrite walk_program_entries. cbv zeta.
  rewrite !tasks_sent_app, tasks_sent_tasks. destruct (first_error _); simpl;
    rewrite app_nil_r; reflexivity.
Qed.

(** With a reader, [walk] has done all it does when [traverse] returns. *)
Lemma returned_walk_done w s r :
  1 <= w_workers w -> reachable w s -> returned s = Some r ->
  walk_events (st_trace s) = walk_program w.
Proof.
  intros Hn Hs Hr.
  destruct (returned_all_in w s r Hn (reachable_Inv w s Hs) Hr) as (Hw & _ & _ & Hc).
  pose proof (walk_trace w s (reachable_TInv w s Hs) Hc) as Ht.
  rewrite Hw in Ht. simpl in Ht. rewrite app_nil_r in Ht. exact Ht.
Qed.

(** ** The one panic *)

(** The only step that panics is the send of the summary by [walk] on
    the closed stats channel, which needs a worker count below one;
    the deferred close of the task channel is all that follows. *)
Lemma crash_step w g s s' :
  Inv w s -> step_of w g s = Some s' -> st_crashed s' = true ->
  g = GWalk /\ w_workers w <= 0 /\ st_statsCh_closed s = true
  /\ (exists d, st_walk s = WStat d) /\ st_walk s' = st_walk s
  /\ st_trace s' = st_trace s ++ [EvPanic GWalk; EvCloseTasks GWalk].
Proof.
  intros I H Hc.
  assert (I' : Inv w s') by (eapply Inv_step; [exact I | exists g; exact H]).
  pose proof (inv_crashed _ _ I') as Hcr. rewrite Hc in Hcr.
  destruct Hcr as (Hn & Hw & Hcl).
  pose proof (inv_loop _ _ I) as Hl. pose proof (inv_stats_closed _ _ I) as Hsc.
  pose proof (inv_statsWg _ _ I) as Hsw. pose proof (inv_ch_closed _ _ I) as Hcc.
  clear I I'.
  destruct g; step_inv H;
    destruct s as [mn wk rs ag ch chc sq sqc wg swg tot cr tr];
    simpl in *; subst; simpl in *; try discriminate; try lia; try tauto.
  all: try (repeat split; auto; eexists; reflexivity).
  all: match goal with
       | H : ?rs !! ?i = Some _ |- _ => apply lookup_lt_Some in H; lia
       end.
Qed.

(** Whatever happens, the stats [walk] has sent and has still to send
    are the summary, and its tasks those of the walk. *)
Lemma walk_stats w s :
  reachable w s ->
  stats_by GWalk (st_trace s) ++ stats_by GWalk (walk_todo w (st_walk s))
  = stats_by GWalk (walk_program w).
Proof.
  induction 1 as [|s s' Hr IH [g Hs]].
  - rewrite <- (walk_trace w init (TInv_init w) eq_refl), stats_by_app. reflexivity.
  - destruct (st_crashed s') eqn:Hc.
    + destruct (crash_step w g s s' (reachable_Inv w s Hr) Hs Hc)
        as (_ & _ & _ & _ & Hw & Ht).
      rewrite Hw, Ht, stats_by_app. simpl. rewrite app_nil_r. exact IH.
    + assert (Hr' : reachable w s') by (eapply reach_step; [exact Hr | exists g; exact Hs]).
      rewrite <- (walk_trace w s' (reachable_TInv w s' Hr') Hc), stats_by_app,
        stats_by_walk_events. reflexivity.
Qed.

Lemma walk_tasks_sent w s :
  reachable w s ->
  tasks_sent (st_trace s) ++ tasks_sent (walk_todo w (st_walk s))
  = tasks_sent (walk_program w).
Proof.
  induction 1 as [|s s' Hr IH [g Hs]].
  - rewrite <- (walk_trace w init (TInv_init w) eq_refl), tasks_sent_app. reflexivity.
  - destruct (st_crashed s') eqn:Hc.
    + destruct (crash_step w g s s' (reachable_Inv w s Hr) Hs Hc)
        as (_ & _ & _ & _ & Hw & Ht).
      rewrite Hw, Ht, tasks_sent_app. simpl. rewrite app_nil_r. exact IH.
    + assert (Hr' : reachable w s') by (eapply reach_step; [exact Hr | exists g; exact Hs]).
      rewrite <- (walk_trace w s' (reachable_TInv w s' Hr') Hc), tasks_sent_app,
        tasks_sent_walk_events. reflexivity.
Qed.


(** A close of the task channel is [walk]'s. *)
Lemma emits_close_tasks w g s s' pre post g0 :
  step_of w g s = Some s' ->
  st_trace s' = st_trace s ++ pre ++ EvCloseTasks g0 :: post ->
  g0 = GWalk.
Proof.
  intros H Ht. destruct g; step_events H;
    destruct s as [mn wk rs ag ch chc sq sqc wg swg tot cr tr]; simpl in *;
    emitted Ht; auto.
Qed.

Lemma close_tasks_by_walk w s g :
  reachable w s -> EvCloseTasks g ∈ st_trace s -> g = GWalk.
Proof.
  intros Hs Hin. apply list_elem_of_split in Hin as (l1 & l2 & Ht).
  destruct (event_origin w s Hs l1 _ l2 Ht)
    as (s1 & g1 & s1' & pre & post & _ & Hst & _ & Ht1 & _).
  exact (emits_close_tasks w g1 s1 s1' pre post g Hst Ht1).
Qed.

(** C7 as stated fails at worker count 0: [traverse] closes the stats
    channel at once, the send of the summary by [walk] panics, and the
    deferred [close(ch)] closes the task channel with no summary sent
    before it. *)
Lemma C7_counterexample :
  ~ (forall (w : World) (s : state) (l1 l2 : list event) (g : goroutine),
        reachable w s -> st_trace s = l1 ++ EvCloseTasks g :: l2 ->
        exists st, EvStat GWalk st ∈ l1).
Proof.
  intros H.
  pose (w := with_workers 0 scenario).
  pose (s := exec w [GMain; GAggregate; GWalk] 60 init).
  destruct (H w s (removelast (st_trace s)) [] GWalk) as [st Hin].
  - apply exec_reachable. constructor.
  - vm_compute. reflexivity.
  - apply stats_by_elem in Hin. vm_compute in Hin. apply elem_of_nil in Hin. exact Hin.
Qed.

(** C7 (amended). What [walk] does is one fixed sequence: the tasks,
    the log line if the walk ended with an error, one summary stat with
    the directory count, and then the close of the task channel. For
    any worker count the only stat [walk] sends is the summary, once at
    most, and a close of the task channel is [walk]'s. With a reader,
    [walk] has done a first part of the sequence in every reachable
    state, a close of the task channel comes after all the tasks and
    the summary with nothing of [walk] after it, and the whole sequence
    is done when [traverse] returns, the summary sent exactly once. *)
Theorem C7_producer_summary (w : World) (s : state) :
  reachable w s ->
  let vs := visited (entries (w_dir w) (w_tree w)) in
  let summary := {| files := 0; dirs := wrapInt (dirs_in vs); bytes := 0 |} in
  let before_close :=
    map EvTask (files_in vs)
    ++ log_of (w_dir w) (first_error (entries (w_dir w) (w_tree w)))
    ++ [EvStat GWalk summary] in
  walk_program w = before_close ++ [EvCloseTasks GWalk]
  /\ (exists rest, stats_by GWalk (st_trace s) ++ rest = [summary])
  /\ (forall g, EvCloseTasks g ∈ st_trace s -> g = GWalk)
  /\ (1 <= w_workers w ->
      walk_events (st_trace s) ++ walk_todo w (st_walk s) = walk_program w
      /\ (forall l1 g l2, st_trace s = l1 ++ EvCloseTasks g :: l2 ->
            g = GWalk /\ walk_events l1 = before_close /\ walk_events l2 = [])
      /\ always_returns w
           (fun s' _ => walk_events (st_trace s') = walk_program w
                        /\ stats_by GWalk (st_trace s') = [summary])
           init).
Proof.
  intros Hs vs summary before_close.
  pose proof (reachable_TInv w s Hs) as T.
  assert (Hprog : walk_program w = before_close ++ [EvCloseTasks GWalk]).
  { rewrite walk_program_entries. unfold before_close. cbv zeta.
    rewrite <- !app_assoc. reflexivity. }
  split; [exact Hprog|]. split; [|split].
  - exists (stats_by GWalk (walk_todo w (st_walk s))).
    rewrite (walk_stats w s Hs). apply stats_by_walk_program.
  - intros g. apply (close_tasks_by_walk w s g Hs).
  - intros Hn.
    pose proof (walk_trace w s T (not_crashed w s (reachable_Inv w s Hs) Hn)) as Hw.
    split; [exact Hw|]. split.
    + intros l1 g l2 H.
      pose proof Hw as Ht. rewrite H, walk_events_app in Ht.
      change (walk_events (EvCloseTasks g :: l2)) with (EvCloseTasks g :: walk_events l2) in Ht.
      rewrite Hprog, <- app_assoc in Ht. simpl in Ht.
      destruct (split_at_last is_close_tasks before_close _ _ _ _ Ht eq_refl)
        as (H1 & H2 & H3).
      * intros x Hx. unfold before_close in Hx.
        rewrite !elem_of_app in Hx. destruct Hx as [Hx|[Hx|Hx]].
        -- apply list_elem_of_fmap in Hx as (p & -> & _). reflexivity.
        -- destruct (first_error _); simpl in Hx.
           ++ apply list_elem_of_singleton in Hx. subst x. reflexivity.
           ++ apply elem_of_nil in Hx. destruct Hx.
        -- apply list_elem_of_singleton in Hx. subst x. reflexivity.
      * injection H3 as ->. apply app_eq_nil in H2 as [H2 _]. auto.
    + eapply always_returns_mono; [|apply traverse_returns; exact Hn].
      intros s' r Hr Hs'. cbv beta.
      pose proof (returned_walk_done w s' r Hn Hs' Hr) as Hd. split; [exact Hd|].
      rewrite <- stats_by_walk_events, Hd. apply stats_by_walk_program.
Qed.

Lemma C7_producer_summary_witness :
  let s := exec scenario all_goroutines 60 init in
  exists rest, stats_by GWalk (st_trace s) ++ rest = [mkStats 0 2 0].
Proof.
  intros s.
  exact (proj1 (proj2 (C7_producer_summary scenario s
                         (exec_reachable scenario all_goroutines 60 init
                            (reach_init scenario))))).
Defined.

(** ** What the readers send *)

Lemma readFile_body_Some io p st :
  snd (readFile_body io p) = Some st <->
  readable (io p) /\ st = {| files := 1; dirs := 0; bytes := copy_n (io p) |}.
Proof.
  unfold readFile_body, readable.
  destruct (open_err (io p)), (copy_err (io p)), (close_err (io p)); simpl;
    split; try discriminate; try (intros [(? & ? & ?) _]; discriminate).
  - intros [= <-]. auto.
  - intros [_ ->]. reflexivity.
Qed.

Lemma readFile_body_None io p :
  snd (readFile_body io p) = None <-> ~ readable (io p).
Proof.
  unfold readFile_body, readable.
  destruct (open_err (io p)), (copy_err (io p)), (close_err (io p)); simpl;
    split; try discriminate; try tauto; try (intros _ (? & ? & ?); discriminate).
Qed.

Lemma stats_of_tasks_elem io ps st :
  st ∈ stats_of_tasks io ps ->
  exists p, p ∈ ps /\ readable (io p)
            /\ st = {| files := 1; dirs := 0; bytes := copy_n (io p) |}.
Proof.
  unfold stats_of_tasks. rewrite list_elem_of_In, List.in_flat_map.
  intros (p & Hp & Hst). exists p. rewrite list_elem_of_In. split; [exact Hp|].
  destruct (snd (readFile_body io p)) as [st'|] eqn:E; simpl in Hst; [|tauto].
  destruct Hst as [->|[]]. apply readFile_body_Some. exact E.
Qed.

Lemma reader_stat_in_trace w s i st :
  TInv w s -> EvStat (GReader i) st ∈ st_trace s ->
  exists p, p ∈ taken_by i (st_trace s) /\ readable (w_io w p)
            /\ st = {| files := 1; dirs := 0; bytes := copy_n (w_io w p) |}.
Proof.
  intros T H. apply stats_by_elem in H.
  pose proof (t_readers _ _ T i) as Hr. unfold reader_ok in Hr.
  destruct (st_readers s !! i) as [r|].
  - apply stats_of_tasks_elem. rewrite <- Hr. apply elem_of_app. auto.
  - destruct Hr as [Hr _]. rewrite Hr in H. apply elem_of_nil in H. destruct H.
Qed.

(** The stats sent are those of the readers and those of [walk]. *)
Lemma ssum_sent_split tr :
  stats_by GMain tr = [] -> stats_by GAggregate tr = [] ->
  ssum (sent tr) = splus (ssum (stats_by_readers tr)) (ssum (stats_by GWalk tr)).
Proof.
  induction tr as [|e tr IH]; intros H1 H2; [reflexivity|].
  destruct e as [p|i p|m|g st|st|g|g|g|r|g]; try (apply IH; assumption).
  destruct g; simpl in *; try discriminate;
    fold (sent tr); fold (stats_by_readers tr); fold (stats_by GWalk tr);
    fold (ssum (sent tr)); fold (ssum (stats_by_readers tr));
    fold (ssum (stats_by GWalk tr)); rewrite IH by assumption.
  - rewrite !splus_assoc. f_equal. apply stats_ext; simpl; lia.
  - rewrite !splus_assoc. reflexivity.
Qed.

Lemma ssum_readers_dirs w s :
  TInv w s -> dirs (ssum (stats_by_readers (st_trace s))) = 0.
Proof.
  intros T.
  assert (H : forall st, st ∈ stats_by_readers (st_trace s) -> dirs st = 0).
  { intros st. unfold stats_by_readers. rewrite list_elem_of_In, List.in_flat_map.
    intros (e & He & Hst). destruct e as [p|i p|m|g st'|st'|g|g|g|r|g]; try (destruct Hst).
    destruct g; try destruct Hst as [<-|[]]; try (destruct Hst).
    apply list_elem_of_In in He.
    destruct (reader_stat_in_trace w s i st' T He) as (p & _ & _ & ->). reflexivity. }
  induction (stats_by_readers (st_trace s)) as [|st l IH]; [reflexivity|].
  simpl. fold (ssum l). rewrite (H st) by apply list_elem_of_here.
  rewrite IH; [reflexivity|]. intros st' Hst'. apply H. apply list_elem_of_further. exact Hst'.
Qed.

(** The only stat [walk] sends is the summary. *)
Lemma walk_stat_summary w s st :
  reachable w s -> EvStat GWalk st ∈ st_trace s ->
  st = {| files := 0;
          dirs := wrapInt (dirs_in (visited (entries (w_dir w) (w_tree w))));
          bytes := 0 |}.
Proof.
  intros Hs H. apply stats_by_elem in H.
  assert (Hin : st ∈ stats_by GWalk (walk_program w)).
  { rewrite <- (walk_stats w s Hs). apply elem_of_app. left. exact H. }
  rewrite stats_by_walk_program in Hin. apply list_elem_of_singleton in Hin. exact Hin.
Qed.

Lemma ssum_walk_files_bytes w s :
  reachable w s ->
  files (ssum (stats_by GWalk (st_trace s))) = 0
  /\ bytes (ssum (stats_by GWalk (st_trace s))) = 0
  /\ inInt (dirs (ssum (stats_by GWalk (st_trace s)))).
Proof.
  intros Hs.
  pose proof (walk_stats w s Hs) as H.
  rewrite stats_by_walk_program in H.
  destruct (stats_by GWalk (st_trace s)) as [|st [|st' l]]; simpl in H.
  - repeat split; try reflexivity; try discriminate.
  - injection H as -> _. simpl. rewrite !Z.add_0_r. repeat split.
    + apply (wrap_range intSize). reflexivity.
    + apply (wrap_range intSize). reflexivity.
  - destruct l; discriminate.
Qed.

(** C9. In the trace of any reachable state a stat sent by a reader
    has files = 1 and dirs = 0, a stat sent by [walk] has files = 0
    and bytes = 0, and nobody else sends one; so in the stats
    [traverse] returns, dirs is what [walk] sent, and files and bytes
    are the sums over what the readers sent, each for a file read
    without an error. *)
Theorem C9_stat_shapes (w : World) (s : state) :
  reachable w s ->
  (forall i st, EvStat (GReader i) st ∈ st_trace s ->
     files st = 1 /\ dirs st = 0
     /\ exists p, readable (w_io w p) /\ bytes st = copy_n (w_io w p))
  /\ (forall st, EvStat GWalk st ∈ st_trace s -> files st = 0 /\ bytes st = 0)
  /\ (forall g st, EvStat g st ∈ st_trace s -> g = GWalk \/ exists i, g = GReader i)
  /\ (forall r, returned s = Some r ->
        files r = wrapInt (files (ssum (stats_by_readers (st_trace s))))
        /\ bytes r = wrapInt64 (bytes (ssum (stats_by_readers (st_trace s))))
        /\ dirs r = dirs (ssum (stats_by GWalk (st_trace s)))).
Proof.
  intros Hs. pose proof (reachable_Inv w s Hs) as I. pose proof (reachable_TInv w s Hs) as T.
  split; [|split; [|split]].
  - intros i st H. destruct (reader_stat_in_trace w s i st T H) as (p & _ & Hp & ->).
    simpl. eauto.
  - intros st H. rewrite (walk_stat_summary w s st Hs H). auto.
  - intros g st H. destruct (t_senders _ _ T) as [H1 H2].
    apply stats_by_elem in H. destruct g; eauto.
    + rewrite H1 in H. apply elem_of_nil in H. destruct H.
    + rewrite H2 in H. apply elem_of_nil in H. destruct H.
  - intros r Hr.
    destruct (returned_state w s r I Hr) as (Hst & _ & Hq & _).
    pose proof (t_sent _ _ T) as Hsent. rewrite Hq, app_nil_r in Hsent.
    pose proof (t_total _ _ T) as Htot. rewrite Hst, <- Hsent in Htot.
    rewrite merge_ssum, splus_zero_l in Htot by reflexivity.
    destruct (t_senders _ _ T) as [H1 H2].
    rewrite (ssum_sent_split _ H1 H2) in Htot.
    destruct (ssum_walk_files_bytes w s Hs) as (Hf & Hb & Hd).
    pose proof (ssum_readers_dirs w s T) as Hrd.
    rewrite Htot. unfold norm, splus. cbn [files dirs bytes].
    rewrite Hf, Hb, Hrd, !Z.add_0_r. repeat split.
    apply wrapInt_small. exact Hd.
Qed.

Lemma C9_stat_shapes_witness :
  let s := exec scenario all_goroutines 60 init in
  files (mkStats 3 2 60) = wrapInt (files (ssum (stats_by_readers (st_trace s))))
  /\ bytes (mkStats 3 2 60) = wrapInt64 (bytes (ssum (stats_by_readers (st_trace s))))
  /\ dirs (mkStats 3 2 60) = dirs (ssum (stats_by GWalk (st_trace s))).
Proof.
  intros s.
  refine (proj2 (proj2 (proj2 (C9_stat_shapes scenario s
                         (exec_reachable scenario all_goroutines 60 init
                            (reach_init scenario))))) (mkStats 3 2 60) _).
  vm_compute. reflexivity.
Defined.

(** ** The body of the reader loop *)

(** C2. A stat comes out of the loop body for a path exactly when
    opening, reading and closing it all succeed, and is then files = 1,
    dirs = 0, bytes = the bytes read; a path that fails adds nothing to
    the totals, also when only the close fails after a full read. In
    every reachable state the stats a reader has sent, with the one it
    is about to send, are, in order, those of the tasks it has taken:
    one for each path read without an error and none for the others.
    And with a reader the stats [traverse] returns are the sum of what
    the tasks sent add, each its stat or nothing, with the directory
    count. *)
Theorem C2_reader_emits (w : World) (s : state) (i : nat) (r : reader_pc) :
  reachable w s -> st_readers s !! i = Some r ->
  (forall p st,
     snd (readFile_body (w_io w) p) = Some st <->
     readable (w_io w p)
     /\ st = {| files := 1; dirs := 0; bytes := copy_n (w_io w p) |})
  /\ (forall p, ~ readable (w_io w p) ->
        snd (readFile_body (w_io w) p) = None /\ stat_of (w_io w) p = zeroStats)
  /\ (forall p e,
        open_err (w_io w p) = None -> copy_err (w_io w p) = None ->
        close_err (w_io w p) = Some e ->
        readFile_body (w_io w) p = ([LogErrorClosing p e], None))
  /\ stats_by (GReader i) (st_trace s) ++ holding r
     = stats_of_tasks (w_io w) (taken_by i (st_trace s))
  /\ (1 <= w_workers w ->
      always_returns w
        (fun s' r' =>
           r' = norm (splus (ssum (map (stat_of (w_io w)) (tasks_sent (st_trace s'))))
                        {| files := 0;
                           dirs := dirs_in (visited (entries (w_dir w) (w_tree w)));
                           bytes := 0 |}))
        init).
Proof.
  intros Hs Hi. split; [|split; [|split; [|split]]].
  - intros p st. apply readFile_body_Some.
  - intros p Hp. apply readFile_body_None in Hp. split; [exact Hp|].
    unfold stat_of. rewrite Hp. reflexivity.
  - intros p e Ho Hc Hcl. unfold readFile_body. rewrite Ho, Hc, Hcl. reflexivity.
  - pose proof (t_readers _ _ (reachable_TInv w s Hs) i) as H. rewrite Hi in H. exact H.
  - intros Hn. eapply always_returns_mono; [|apply traverse_returns; exact Hn].
    intros s' r' Hr Hs'. cbv beta.
    rewrite <- tasks_sent_walk_events, (returned_walk_done w s' r' Hn Hs' Hr),
      tasks_sent_walk_program.
    rewrite (returned_expected w s' r' Hn Hs' Hr). apply expected_entries.
Qed.

Lemma C2_reader_emits_witness :
  let s := exec scenario all_goroutines 60 init in
  stats_by (GReader 0) (st_trace s) ++ holding RDone
  = stats_of_tasks scenario_io (taken_by 0 (st_trace s)).
Proof.
  intros s.
  refine (proj1 (proj2 (proj2 (proj2 (C2_reader_emits scenario s 0%nat RDone
                         (exec_reachable scenario all_goroutines 60 init
                            (reach_init scenario)) _))))).
  vm_compute. reflexivity.
Defined.

(** ** A traversal error *)

Lemma visited_split vs e :
  first_error vs = Some e ->
  exists v rest, vs = visited vs ++ v :: rest /\ visit_error v = Some e
                 /\ forall x, x ∈ visited vs -> visit_error x = None.
Proof.
  induction vs as [|v vs IH]; simpl; [discriminate|].
  destruct (visit_error v) as [e'|] eqn:E.
  - intros [= ->]. exists v, vs. repeat split; auto.
    intros x Hx. apply elem_of_nil in Hx. destruct Hx.
  - intros H. destruct (IH H) as (v' & rest & H1 & H2 & H3).
    exists v', rest. split; [simpl; f_equal; exact H1|]. split; [exact H2|].
    intros x Hx. apply elem_of_cons in Hx as [->|Hx]; auto.
Qed.

(** C5 as stated fails: a directory with an entry [a] that cannot be
    examined and a regular file [b.txt] after it. The walk stops at
    [a]; [b.txt] is never sent as a task, and [traverse] returns
    0 files. *)
Lemma C5_counterexample :
  ~ (forall (w : World) (s : state) (r : Stats) (p : string),
        1 <= w_workers w -> reachable w s -> returned s = Some r ->
        p ∈ file_paths (w_dir w) (w_tree w) -> p ∈ tasks_sent (st_trace s)).
Proof.
  intros H.
  specialize (H broken (exec broken all_goroutines 60 init) (mkStats 0 1 0) "data/b.txt").
  assert (Hin : "data/b.txt" ∈ tasks_sent (st_trace (exec broken all_goroutines 60 init))).
  { apply H.
    - vm_compute. discriminate.
    - apply exec_reachable. constructor.
    - vm_compute. reflexivity.
    - vm_compute. apply list_elem_of_here. }
  vm_compute in Hin. apply elem_of_nil in Hin. exact Hin.
Qed.

(** C5 (amended). A traversal error ends the walk at the entry that
    fails: the entries before it are the ones visited, and with a
    reader [traverse] returns under every schedule, without a panic,
    with the error logged, the tasks sent being the regular files
    among the entries visited, and the stats being those of these
    files and of the directories among the entries visited. *)
Theorem C5_traversal_error (w : World) (e : error) :
  1 <= w_workers w ->
  first_error (entries (w_dir w) (w_tree w)) = Some e ->
  let vs := visited (entries (w_dir w) (w_tree w)) in
  (exists v rest,
      entries (w_dir w) (w_tree w) = vs ++ v :: rest /\ visit_error v = Some e
      /\ forall x, x ∈ vs -> visit_error x = None)
  /\ always_returns w
       (fun s r =>
          EvLog (LogErrorWalking (w_dir w) e) ∈ st_trace s
          /\ tasks_sent (st_trace s) = files_in vs
          /\ r = norm (splus (ssum (map (stat_of (w_io w)) (files_in vs)))
                        {| files := 0; dirs := dirs_in vs; bytes := 0 |})
          /\ st_crashed s = false)
       init.
Proof.
  intros Hn He vs. split; [apply visited_split; exact He|].
  eapply always_returns_mono; [|apply traverse_returns; exact Hn].
  intros s r Hr Hs. cbv beta.
  pose proof (returned_walk_done w s r Hn Hs Hr) as Hd.
  destruct (returned_all_in w s r Hn (reachable_Inv w s Hs) Hr) as (_ & _ & _ & Hc).
  repeat split.
  - apply walk_events_subset. rewrite Hd, walk_program_entries. cbv zeta.
    rewrite He. rewrite !elem_of_app. right. left. apply list_elem_of_here.
  - rewrite <- tasks_sent_walk_events, Hd. apply tasks_sent_walk_program.
  - rewrite (returned_expected w s r Hn Hs Hr). apply expected_entries.
  - exact Hc.
Qed.

Lemma C5_traversal_error_witness :
  always_returns broken
    (fun s r =>
       EvLog (LogErrorWalking "data" (PathError "lstat" "data/a")) ∈ st_trace s
       /\ tasks_sent (st_trace s) = []
       /\ r = mkStats 0 1 0
       /\ st_crashed s = false)
    init.
Proof.
  refine (proj2 (C5_traversal_error broken (PathError "lstat" "data/a") _ _)).
  - vm_compute. discriminate.
  - reflexivity.
Defined.

(** ** main and the output file *)

Lemma string_length_append (a b : string) :
  String.length (String.append a b) = (String.length a + String.length b)%nat.
Proof. induction a as [|c a IH]; simpl; [reflexivity | rewrite IH; reflexivity]. Qed.

Lemma row_nonempty workers stats sec bps :
  (0 < String.length (row workers stats sec bps))%nat.
Proof. unfold row. rewrite string_length_append. simpl. lia. Qed.

Lemma append_row_neq c workers stats sec bps :
  String.append c (row workers stats sec bps) <> c.
Proof.
  intros H. apply (f_equal String.length) in H. rewrite string_length_append in H.
  pose proof (row_nonempty workers stats sec bps). lia.
Qed.

Example row_scenario :
  row 2 (mkStats 3 2 60) "0.25" 240
  = String.append "2" (String.append tab (String.append "3" (String.append tab
      (String.append "2" (String.append tab (String.append "60" (String.append tab
        (String.append "0.25" (String.append tab (String.append "240" newline)))))))))).
Proof. vm_compute. reflexivity. Qed.

(** A file opened for writing with [O_APPEND] gets the data at its end. *)
Lemma File_Write_append c data op cr :
  File_Write (Some (mkFile (Z.lor O_WRONLY O_APPEND))) data (mkOutPath (Some c) op cr)
  = (mkOutPath (Some (String.append c data)) op cr, None).
Proof. reflexivity. Qed.

(** The file [main] opens cannot be written to. *)
Lemma main_file_read_only : writable O_APPEND = false.
Proof. reflexivity. Qed.

(** [main] ends with status 0 once the output file exists or can be
    created. *)
Lemma main_exit_0 dir workers out stats sec bps :
  out_content out <> None \/ out_creatable out = true ->
  fst (main [dir] workers out stats sec bps) = 0.
Proof.
  destruct out as [[c|] [|] [|] [| | | |] ce]; intros [H|H]; try discriminate;
    try (destruct H; reflexivity); reflexivity.
Qed.

(** Whatever the arguments and the state of the output path, a run
    leaves the content of the output file as it was, or creates the
    file with the header alone. *)
Lemma main_output args workers out stats sec bps :
  out_content (snd (main args workers out stats sec bps)) = out_content out
  \/ (out_content out = None
      /\ out_content (snd (main args workers out stats sec bps)) = Some header).
Proof.
  destruct args as [|dir [|dir' args]]; [left; reflexivity | | left; reflexivity].
  destruct out as [[c|] [|] [|] [| | | |] ce]; try (left; reflexivity);
    right; split; reflexivity.
Qed.

(** C8, on the code: the output file is opened with [syscall.O_APPEND]
    alone, which is a read-only open, so the write of the data line
    fails and its error is dropped. A run on an existing output file
    leaves it as it is, and a run on a fresh path leaves the header
    alone in it: in neither has the file the data line at its end,
    and no run ever changes the content of an existing file. *)
Theorem C8_data_line_not_written (dir : string) (workers : Z) (stats : Stats)
    (sec : string) (bps : Z) (c : string) (cr : bool) :
  main [dir] workers (mkOutPath (Some c) true cr) stats sec bps
  = (0, mkOutPath (Some c) true cr)
  /\ main [dir] workers (mkOutPath None true true) stats sec bps
     = (0, mkOutPath (Some header) true true)
  /\ String.append c (row workers stats sec bps) <> c
  /\ String.append header (row workers stats sec bps) <> header
  /\ (forall args out,
        out_content (snd (main args workers out stats sec bps)) = out_content out
        \/ (out_content out = None
            /\ out_content (snd (main args workers out stats sec bps)) = Some header)).
Proof.
  split; [reflexivity|]. split; [reflexivity|].
  split; [apply append_row_neq|]. split; [apply append_row_neq|].
  intros args out. apply main_output.
Qed.

(** The header is written when the file is created, and only then. *)
Lemma header_written_once dir1 dir2 w1 w2 st1 st2 sec1 sec2 bps1 bps2 :
  let '(_, out1) := main [dir1] w1 (mkOutPath None true true) st1 sec1 bps1 in
  let '(_, out2) := main [dir2] w2 out1 st2 sec2 bps2 in
  out_content out1 = Some header /\ out_content out2 = Some header.
Proof. split; reflexivity. Qed.

(** ** A root that cannot be walked *)

(** Once [traverse] has returned it has returned. *)
Lemma returned_step w s s' r :
  returned s = Some r -> step w s s' -> returned s' = Some r.
Proof.
  intros Hr [g H]. unfold returned in *.
  destruct g; step_inv H;
    destruct s as [mn wk rs ag ch chc sq sqc wg swg tot cr tr];
    simpl in *; subst; congruence.
Qed.

Lemma returned_run w sched : forall s s' r,
  returned s = Some r -> run w sched s = Some s' -> returned s' = Some r.
Proof.
  induction sched as [|g sched IH]; intros s s' r Hr H; simpl in H.
  - injection H as <-. exact Hr.
  - destruct (step_of w g s) as [s1|] eqn:E; [|discriminate].
    apply (IH s1 s' r); [|exact H]. apply (returned_step w s s1 r Hr). exists g. exact E.
Qed.

(** What [always_returns] says along a run. *)
Lemma always_returns_run w P sched : forall s s',
  always_returns w P s -> run w sched s = Some s' -> returned s' = None ->
  always_returns w P s'.
Proof.
  induction sched as [|g sched IH]; intros s s' HA H Hr; simpl in H.
  - injection H as <-. exact HA.
  - destruct (step_of w g s) as [s1|] eqn:E; [|discriminate].
    apply (IH s1 s'); [|exact H|exact Hr].
    inversion HA as [s0 r0 Hr0 _|s0 _ _ Hall]; subst.
    + pose proof (returned_run w (g :: sched) s s' r0 Hr0) as Hr'.
      simpl in Hr'. rewrite E in Hr'. rewrite (Hr' H) in Hr. discriminate.
    + apply Hall. exists g. exact E.
Qed.

Lemma always_returns_stuck w P s :
  always_returns w P s -> returned s = None -> st_crashed s = true -> False.
Proof.
  intros HA Hr Hc. inversion HA as [s0 r0 Hr0 _|s0 _ [s' [g H]] _]; subst.
  - congruence.
  - unfold step_of in H. rewrite Hc in H. discriminate.
Qed.

(** C10 as stated fails at worker count 0: on a root that does not
    exist, [traverse] closes the stats channel before [walk] sends its
    summary, the send panics, and [traverse] never returns. *)
Lemma C10_counterexample :
  ~ (forall w : World,
        w_tree w = Missing \/ w_tree w = DirUnreadable ->
        always_returns w (fun s r => r = zeroStats /\ st_crashed s = false) init).
Proof.
  intros H.
  pose (w := with_workers 0 no_root).
  destruct (run w [GMain; GMain; GMain; GMain; GMain; GWalk; GWalk] init)
    as [s|] eqn:E; [|vm_compute in E; discriminate].
  assert (HA : always_returns w (fun s r => r = zeroStats /\ st_crashed s = false) init)
    by (apply H; left; reflexivity).
  assert (Hs : returned s = None /\ st_crashed s = true).
  { vm_compute in E. injection E as <-. split; reflexivity. }
  destruct Hs as [Hr Hc].
  exact (always_returns_stuck w _ s (always_returns_run w _ _ init s HA E Hr) Hr Hc).
Qed.

(** C10 (amended). When the root does not exist or cannot be listed,
    with a reader [traverse] returns under every schedule, without a
    panic, with the zero stats, no task sent and the error of the walk
    logged, and [main] ends with status 0. *)
Theorem C10_root_fails (w : World) (out : OutPath) (sec : string) (bps : Z) :
  1 <= w_workers w ->
  w_tree w = Missing \/ w_tree w = DirUnreadable ->
  out_content out <> None \/ out_creatable out = true ->
  always_returns w
    (fun s r =>
       r = zeroStats
       /\ (exists e, EvLog (LogErrorWalking (w_dir w) e) ∈ st_trace s)
       /\ tasks_sent (st_trace s) = []
       /\ st_crashed s = false
       /\ fst (main [w_dir w] (w_workers w) out r sec bps) = 0)
    init.
Proof.
  intros Hn Ht Hout.
  assert (He : exists e, first_error (entries (w_dir w) (w_tree w)) = Some e
                         /\ visited (entries (w_dir w) (w_tree w)) = []).
  { destruct Ht as [-> | ->]; simpl; eauto. }
  destruct He as (e & He & Hv).
  eapply always_returns_mono; [|apply traverse_returns; exact Hn].
  intros s r Hr Hs. cbv beta.
  pose proof (returned_walk_done w s r Hn Hs Hr) as Hd.
  destruct (returned_all_in w s r Hn (reachable_Inv w s Hs) Hr) as (_ & _ & _ & Hc).
  repeat split.
  - rewrite (returned_expected w s r Hn Hs Hr), expected_entries. cbv zeta.
    rewrite Hv. reflexivity.
  - exists e. apply walk_events_subset. rewrite Hd, walk_program_entries. cbv zeta.
    rewrite He. rewrite !elem_of_app. right. left. apply list_elem_of_here.
  - rewrite <- tasks_sent_walk_events, Hd, tasks_sent_walk_program, Hv. reflexivity.
  - exact Hc.
  - apply main_exit_0. exact Hout.
Qed.

Lemma C10_root_fails_witness :
  always_returns no_root
    (fun s r =>
       r = zeroStats
       /\ (exists e, EvLog (LogErrorWalking "nowhere" e) ∈ st_trace s)
       /\ tasks_sent (st_trace s) = []
       /\ st_crashed s = false
       /\ fst (main ["nowhere"] 2 (mkOutPath None true true) r "0.001" 0) = 0)
    init.
Proof.
  apply (C10_root_fails no_root (mkOutPath None true true) "0.001" 0).
  - vm_compute. discriminate.
  - left. reflexivity.
  - right. reflexivity.
Defined.

Example no_root_run :
  returned (exec no_root all_goroutines 60 init) = Some zeroStats.
Proof. vm_compute. reflexivity. Qed.

Example broken_run :
  returned (exec broken all_goroutines 60 init) = Some (mkStats 0 1 0).
Proof. vm_compute. reflexivity. Qed.

(** ** The channels never hold more than their capacity *)

Lemma bounded_step w g s s' :
  step_of w g s = Some s' ->
  (length (st_ch s) <= chanCap)%nat /\ (length (st_statsCh s) <= chanCap)%nat ->
  (length (st_ch s') <= chanCap)%nat /\ (length (st_statsCh s') <= chanCap)%nat.
Proof.
  intros H [B1 B2]. destruct g; step_inv H;
    destruct s as [mn wk rs ag ch chc sq sqc wg swg tot cr tr];
    simpl in *; subst; rewrite ?length_app; simpl in *; lia.
Qed.

(** X1. In every reachable state the task channel and the stats
    channel hold at most 100 items each: [walk] is never more than
    100 tasks ahead of what the readers have received, and the
    senders of stats never more than 100 stats ahead of what the
    aggregator has merged. *)
Theorem channels_bounded (w : World) (s : state) :
  reachable w s ->
  (length (st_ch s) <= 100)%nat /\ (length (st_statsCh s) <= 100)%nat
  /\ (length (tasks_sent (st_trace s)) <= length (tasks_taken (st_trace s)) + 100)%nat
  /\ (length (sent (st_trace s)) <= length (merged (st_trace s)) + 100)%nat.
Proof.
  intros Hs.
  assert (B : (length (st_ch s) <= chanCap)%nat /\ (length (st_statsCh s) <= chanCap)%nat).
  { induction Hs as [|s s' _ IH [g Hs]].
    - simpl. unfold chanCap. lia.
    - exact (bounded_step w g s s' Hs IH). }
  pose proof (reachable_TInv w s Hs) as T.
  rewrite (t_tasks _ _ T), (t_sent _ _ T), !length_app.
  unfold chanCap in B. lia.
Qed.

Lemma channels_bounded_witness :
  let s := exec scenario all_goroutines 7 init in
  (length (st_ch s) <= 100)%nat /\ (length (st_statsCh s) <= 100)%nat
  /\ (length (tasks_sent (st_trace s)) <= length (tasks_taken (st_trace s)) + 100)%nat
  /\ (length (sent (st_trace s)) <= length (merged (st_trace s)) + 100)%nat.
Proof.
  intros s.
  exact (channels_bounded scenario s
           (exec_reachable scenario all_goroutines 7 init (reach_init scenario))).
Defined.

(** ** Panics *)

(** A step that adds a panic to the trace is a panic of the goroutine
    that took it. *)
Lemma emits_panic w g s s' pre post g0 :
  step_of w g s = Some s' ->
  st_trace s' = st_trace s ++ pre ++ EvPanic g0 :: post ->
  g0 = g /\ st_crashed s' = true.
Proof.
  intros H Ht. destruct g; step_events H;
    destruct s as [mn wk rs ag ch chc sq sqc wg swg tot cr tr]; simpl in *;
    emitted Ht; auto.
Qed.

(** X2. A goroutine panics only in one way: [walk] sends its summary
    on the stats channel after [traverse] has closed it, which needs a
    worker count below one. With a reader no goroutine ever panics. *)
Theorem panic_only_walk_without_readers (w : World) (s : state) (g : goroutine) :
  reachable w s -> EvPanic g ∈ st_trace s ->
  g = GWalk /\ w_workers w <= 0 /\ EvCloseStats GMain ∈ st_trace s.
Proof.
  intros Hs Hin. apply list_elem_of_split in Hin as (l1 & l2 & Ht).
  destruct (event_origin w s Hs l1 _ l2 Ht)
    as (s1 & g1 & s1' & pre & post & Hr1 & Hst & Hl1 & Ht1 & Hrtc).
  destruct (emits_panic w g1 s1 s1' pre post g Hst Ht1) as [-> Hc].
  destruct (crash_step w g1 s1 s1' (reachable_Inv w s1 Hr1) Hst Hc)
    as (-> & Hn & Hcl & _).
  repeat split; auto.
  pose proof (t_closed _ _ (reachable_TInv w s1 Hr1) Hcl) as Hin.
  rewrite Ht, Hl1. rewrite elem_of_app. left. rewrite elem_of_app. left. exact Hin.
Qed.

Lemma panic_only_walk_without_readers_witness :
  let w := with_workers 0 scenario in
  let s := exec w [GMain; GAggregate; GWalk] 60 init in
  GWalk = GWalk /\ w_workers w <= 0 /\ EvCloseStats GMain ∈ st_trace s.
Proof.
  intros w s.
  apply (panic_only_walk_without_readers w s GWalk).
  - exact (exec_reachable w [GMain; GAggregate; GWalk] 60 init (reach_init w)).
  - vm_compute. repeat constructor.
Defined.

(** ** Every task goes to one reader *)

Lemma concat_map_miss (f : nat -> list string) j p l :
  j ∉ l ->
  map (fun i => (if Nat.eqb i j then [p] else []) ++ f i) l = map f l.
Proof.
  induction l as [|a l IH]; intros H; [reflexivity|].
  apply not_elem_of_cons in H as [Ha Hl]. simpl.
  rewrite IH by exact Hl.
  destruct (Nat.eqb_spec a j) as [->|_]; [contradiction | reflexivity].
Qed.

Lemma concat_map_hit (f : nat -> list string) j p l :
  NoDup l -> j ∈ l ->
  concat (map (fun i => (if Nat.eqb i j then [p] else []) ++ f i) l)
  ≡ₚ p :: concat (map f l).
Proof.
  induction l as [|a l IH]; intros Hnd Hin.
  - apply elem_of_nil in Hin. destruct Hin.
  - apply NoDup_cons in Hnd as [Ha Hnd]. simpl.
    destruct (Nat.eqb_spec a j) as [->|Hne].
    + rewrite concat_map_miss by exact Ha. reflexivity.
    + apply elem_of_cons in Hin as [->|Hin]; [contradiction|].
      rewrite (IH Hnd Hin). simpl. symmetry. apply Permutation_middle.
Qed.

(** The tasks received are those the readers received, each by one of
    them. *)
Lemma taken_partition tr : forall n,
  (forall i, (n <= i)%nat -> taken_by i tr = []) ->
  tasks_taken tr ≡ₚ concat (map (fun i => taken_by i tr) (seq 0 n)).
Proof.
  induction tr as [|e tr IH]; intros n H.
  - simpl. induction (seq 0 n) as [|a l IHl]; [reflexivity | exact IHl].
  - destruct e as [p|j p|m|g st|st|g|g|g|r|g]; try (exact (IH n H)).
    assert (Hj : (j < n)%nat).
    { destruct (Nat.lt_ge_cases j n) as [Hlt|Hge]; [exact Hlt|].
      specialize (H j Hge). simpl in H. rewrite Nat.eqb_refl in H. discriminate. }
    assert (H' : forall i, (n <= i)%nat -> taken_by i tr = []).
    { intros i Hi. specialize (H i Hi). simpl in H.
      destruct (Nat.eqb i j); [discriminate | exact H]. }
    change (tasks_taken (EvTaken j p :: tr)) with (p :: tasks_taken tr).
    change (map (fun i => taken_by i (EvTaken j p :: tr)) (seq 0 n))
      with (map (fun i => (if Nat.eqb i j then [p] else []) ++ taken_by i tr) (seq 0 n)).
    rewrite concat_map_hit.
    + constructor. apply IH. exact H'.
    + apply NoDup_seq.
    + apply elem_of_seq. lia.
Qed.

Lemma taken_by_readers w s :
  TInv w s ->
  tasks_taken (st_trace s)
  ≡ₚ concat (map (fun i => taken_by i (st_trace s)) (seq 0 (length (st_readers s)))).
Proof.
  intros T. apply taken_partition. intros i Hi.
  pose proof (t_readers _ _ T i) as Hr.
  rewrite (lookup_ge_None_2 _ _ Hi) in Hr. apply Hr.
Qed.

(** With a reader, every task sent has been received when [traverse]
    returns. *)
Lemma returned_tasks_taken w s r :
  1 <= w_workers w -> reachable w s -> returned s = Some r ->
  tasks_taken (st_trace s) = files_in (visited (entries (w_dir w) (w_tree w))).
Proof.
  intros Hn Hs Hr.
  destruct (returned_all_in w s r Hn (reachable_Inv w s Hs) Hr) as (_ & Hch & _).
  pose proof (t_tasks _ _ (reachable_TInv w s Hs)) as Ht.
  rewrite Hch, app_nil_r in Ht. rewrite <- Ht.
  rewrite <- tasks_sent_walk_events, (returned_walk_done w s r Hn Hs Hr).
  apply tasks_sent_walk_program.
Qed.

(** X3. Every task is handed over once: in every reachable state the
    tasks sent are those received so far, in the order sent, followed
    by those that wait in the channel, and each task received was
    received by exactly one of the readers started; with a reader,
    under every schedule [traverse] returns when every regular file
    [walk] came to before an error has been received. *)
Theorem tasks_delivered_once (w : World) (s : state) :
  reachable w s ->
  tasks_sent (st_trace s) = tasks_taken (st_trace s) ++ st_ch s
  /\ tasks_taken (st_trace s)
     ≡ₚ concat (map (fun i => taken_by i (st_trace s)) (seq 0 (length (st_readers s))))
  /\ (1 <= w_workers w ->
      always_returns w
        (fun s' _ => tasks_taken (st_trace s')
                     = files_in (visited (entries (w_dir w) (w_tree w))))
        init).
Proof.
  intros Hs. pose proof (reachable_TInv w s Hs) as T.
  split; [exact (t_tasks _ _ T)|]. split; [exact (taken_by_readers w s T)|].
  intros Hn. eapply always_returns_mono; [|apply traverse_returns; exact Hn].
  intros s' r Hr Hs'. exact (returned_tasks_taken w s' r Hn Hs' Hr).
Qed.

Lemma tasks_delivered_once_witness :
  let s := exec scenario all_goroutines 60 init in
  tasks_sent (st_trace s) = tasks_taken (st_trace s) ++ st_ch s.
Proof.
  intros s.
  exact (proj1 (tasks_delivered_once scenario s
                  (exec_reachable scenario all_goroutines 60 init
                     (reach_init scenario)))).
Defined.

(** ** A run without readers *)

Lemma no_readers w s : Inv w s -> w_workers w <= 0 -> st_readers s = [].
Proof.
  intros I Hn. pose proof (inv_loop _ _ I) as Hl.
  apply length_zero_iff_nil. destruct (st_main s); lia.
Qed.

Lemma no_readers_no_stats w s :
  TInv w s -> st_readers s = [] -> stats_by_readers (st_trace s) = [].
Proof.
  intros T Hr.
  destruct (stats_by_readers (st_trace s)) as [|st l] eqn:E; [reflexivity|].
  assert (Hin : st ∈ stats_by_readers (st_trace s)) by (rewrite E; apply list_elem_of_here).
  unfold stats_by_readers in Hin. rewrite list_elem_of_In, List.in_flat_map in Hin.
  destruct Hin as (e & He & Hst).
  destruct e as [p|i p|m|g st'|st'|g|g|g|r|g]; try (destruct Hst).
  destruct g; try destruct Hst as [<-|[]]; try (destruct Hst).
  apply list_elem_of_In in He.
  destruct (reader_stat_in_trace w s i st' T He) as (p & Hp & _).
  pose proof (t_readers _ _ T i) as Hi. rewrite Hr in Hi. simpl in Hi.
  destruct Hi as [_ Hi]. rewrite Hi in Hp. apply elem_of_nil in Hp. destruct Hp.
Qed.

(** What [traverse] returns, from what was sent. *)
Lemma returned_sent w s r :
  Inv w s -> TInv w s -> returned s = Some r ->
  r = norm (splus (ssum (stats_by_readers (st_trace s)))
                  (ssum (stats_by GWalk (st_trace s)))).
Proof.
  intros I T Hr.
  destruct (returned_state w s r I Hr) as (Hst & _ & Hq & _).
  pose proof (t_sent _ _ T) as Hsent. rewrite Hq, app_nil_r in Hsent.
  pose proof (t_total _ _ T) as Htot. rewrite Hst, <- Hsent in Htot.
  rewrite merge_ssum, splus_zero_l in Htot by reflexivity.
  destruct (t_senders _ _ T) as [H1 H2].
  rewrite (ssum_sent_split _ H1 H2) in Htot. exact Htot.
Qed.

(** X4. With a worker count below one no reader is started and no
    task is ever received: if [traverse] returns, it returns files = 0
    and bytes = 0, and dirs is 0 or the number of directories [walk]
    counted before the first failure. *)
Theorem traverse_without_readers (w : World) (s : state) (r : Stats) :
  w_workers w <= 0 -> reachable w s -> returned s = Some r ->
  st_readers s = [] /\ tasks_taken (st_trace s) = []
  /\ files r = 0 /\ bytes r = 0
  /\ (dirs r = 0
      \/ dirs r = wrapInt (dirs_in (visited (entries (w_dir w) (w_tree w))))).
Proof.
  intros Hn Hs Hr.
  pose proof (reachable_Inv w s Hs) as I. pose proof (reachable_TInv w s Hs) as T.
  pose proof (no_readers w s I Hn) as Hrs.
  split; [exact Hrs|]. split.
  - pose proof (taken_by_readers w s T) as Hp. rewrite Hrs in Hp. simpl in Hp.
    apply Permutation_nil_r in Hp. exact Hp.
  - rewrite (returned_sent w s r I T Hr), (no_readers_no_stats w s T Hrs).
    pose proof (walk_stats w s Hs) as H.
    rewrite stats_by_walk_program in H.
    destruct (stats_by GWalk (st_trace s)) as [|st [|st' l]]; simpl in H.
    + repeat split; auto.
    + injection H as -> _. simpl. rewrite !Z.add_0_r. repeat split.
      right. apply wrap_idem.
    + destruct l; discriminate.
Qed.

Lemma traverse_without_readers_witness :
  let w := with_workers 0 scenario in
  let s := exec w [GMain; GAggregate; GWalk] 60 init in
  st_readers s = [] /\ tasks_taken (st_trace s) = []
  /\ files zeroStats = 0 /\ bytes zeroStats = 0
  /\ (dirs zeroStats = 0
      \/ dirs zeroStats = wrapInt (dirs_in (visited (entries (w_dir w) (w_tree w))))).
Proof.
  intros w s.
  apply (traverse_without_readers w s zeroStats).
  - vm_compute. discriminate.
  - exact (exec_reachable w [GMain; GAggregate; GWalk] 60 init (reach_init w)).
  - vm_compute. reflexivity.
Defined.

(** ** A file is counted or logged *)




Lemma held_insert (rs : list reader_pc) i x y :
  rs !! i = Some x ->
  (held (<[i:=y]> rs) + length (holding x) = held rs + length (holding y))%nat.
Proof. exact (sum_list_with_insert (fun r => length (holding r)) rs i x y). Qed.






(** ** Nothing is left running *)

(** X6. With a reader, under every schedule [traverse] returns, and
    when it returns [walk], every reader and the aggregator have
    ended, both channels are empty and closed, both wait groups are
    at zero, nothing has panicked, and no goroutine can take a step
    any more. *)
Theorem traverse_teardown (w : World) :
  1 <= w_workers w ->
  always_returns w
    (fun s _ =>
       st_walk s = WDone
       /\ length (st_readers s) = Z.to_nat (w_workers w)
       /\ (forall i pc, st_readers s !! i = Some pc -> pc = RDone)
       /\ st_agg s = ADone
       /\ st_ch s = [] /\ st_ch_closed s = true
       /\ st_statsCh s = [] /\ st_statsCh_closed s = true
       /\ st_wg s = 0 /\ st_statsWg s = 0
       /\ st_crashed s = false
       /\ (forall g, step_of w g s = None))
    init.
Proof.
  intros Hn. eapply always_returns_mono; [|apply traverse_returns; exact Hn].
  intros s r Hr Hs. cbv beta. pose proof (reachable_Inv w s Hs) as I.
  destruct (returned_state w s r I Hr) as (_ & Ha & Hq & Hc & Hl & Hlen).
  destruct (returned_all_in w s r Hn I Hr) as (Hw & Hch & _ & Hcr).
  pose proof (ch_closed_done w s I Hcr) as Hcc. rewrite Hw in Hcc.
  pose proof (inv_wg _ _ I) as Hwg. rewrite Hl in Hwg.
  pose proof (inv_statsWg _ _ I) as Hsw. rewrite Ha in Hsw.
  pose proof (live_zero _ Hl) as Hd.
  repeat split; auto.
  intros g. unfold step_of. rewrite Hcr.
  destruct g as [| |i|].
  - unfold step_main. unfold returned in Hr. destruct (st_main s); try discriminate.
    reflexivity.
  - unfold step_walk. rewrite Hw. reflexivity.
  - unfold step_reader. destruct (st_readers s !! i) as [pc|] eqn:E; [|reflexivity].
    rewrite (Hd i pc E). reflexivity.
  - unfold step_agg. rewrite Ha. reflexivity.
Qed.

Lemma traverse_teardown_witness :
  always_returns scenario
    (fun s _ =>
       st_walk s = WDone
       /\ length (st_readers s) = 2%nat
       /\ (forall i pc, st_readers s !! i = Some pc -> pc = RDone)
       /\ st_agg s = ADone
       /\ st_ch s = [] /\ st_ch_closed s = true
       /\ st_statsCh s = [] /\ st_statsCh_closed s = true
       /\ st_wg s = 0 /\ st_statsWg s = 0
       /\ st_crashed s = false
       /\ (forall g, step_of scenario g s = None))
    init.
Proof. apply (traverse_teardown scenario). vm_compute. discriminate. Defined.

(** ** No run hangs *)

(** Without a reader [traverse] itself is never blocked for good. *)
Lemma progress_no_reader w s :
  w_workers w <= 0 -> Inv w s -> returned s = None -> st_crashed s = false ->
  exists s', step w s s'.
Proof.
  intros Hn I Hr Hc.
  pose proof (no_readers w s I Hn) as Hrs.
  unfold returned in Hr. destruct (st_main s) eqn:Em; try discriminate.
  - apply (can_step w GMain). unfold step_of, step_main.
    rewrite Hc, Em. destruct (_ <? _); eauto.
  - apply (can_step w GMain). unfold step_of, step_main. rewrite Hc, Em.
    destruct (Walk _ _ _). eauto.
  - apply (can_step w GMain). unfold step_of, step_main. rewrite Hc, Em. eauto.
  - apply (can_step w GMain). unfold step_of, step_main. rewrite Hc, Em.
    rewrite (inv_wg _ _ I), Hrs. simpl. eauto.
  - apply (can_step w GMain). unfold step_of, step_main. rewrite Hc, Em.
    destruct (st_statsCh_closed s); eauto.
  - destruct (st_statsWg s =? 0) eqn:Ewg.
    { apply (can_step w GMain). unfold step_of, step_main. rewrite Hc, Em, Ewg. eauto. }
    apply Z.eqb_neq in Ewg. pose proof (inv_statsWg _ _ I) as Hsw.
    pose proof (inv_stats_closed _ _ I) as Hsc. rewrite Em in Hsc. simpl in Hsc.
    destruct (st_agg s) eqn:Ea; try lia.
    apply (can_step w GAggregate). unfold step_of, step_agg. rewrite Hc, Ea.
    destruct (st_statsCh s); [|eauto].
    rewrite Hsc. destruct (_ <=? _); eauto.
Qed.

(** X7. [traverse] never hangs, whatever the worker count: under
    every schedule the run comes, after finitely many steps, to a
    state in which [traverse] has returned or the process has
    panicked, and it can panic only with a worker count below one. *)
Theorem traverse_never_hangs (w : World) :
  always_reaches w
    (fun s => reachable w s
              /\ ((exists r, returned s = Some r)
                  \/ (st_crashed s = true /\ w_workers w <= 0)))
    init.
Proof.
  assert (H : forall m s, measure w s = m -> reachable w s ->
    always_reaches w
      (fun s => reachable w s
                /\ ((exists r, returned s = Some r)
                    \/ (st_crashed s = true /\ w_workers w <= 0))) s).
  { induction m as [m IH] using lt_wf_ind. intros s <- Hs.
    pose proof (reachable_Inv w s Hs) as I.
    destruct (returned s) as [r|] eqn:Hr.
    { apply ae_now. split; [exact Hs|]. left. eauto. }
    destruct (st_crashed s) eqn:Hc.
    { apply ae_now. split; [exact Hs|]. right. split; [exact Hc|].
      pose proof (inv_crashed _ _ I) as H. rewrite Hc in H. tauto. }
    apply ae_step.
    - destruct (Z_lt_le_dec (w_workers w) 1) as [Hn|Hn].
      + apply progress_no_reader; auto; lia.
      + apply progress; auto.
    - intros s' Hstep. eapply IH; [|reflexivity|].
      + apply measure_step; [exact I | exact Hstep].
      + eapply reach_step; eauto. }
  apply (H (measure w init) init eq_refl). constructor.
Qed.

(** ** Add and merge on the machine integers *)

Lemma wrap_congr bits z : 0 < bits -> (wrap bits z - z) mod 2 ^ bits = 0.
Proof.
  intros Hb. unfold wrap.
  assert (Hp : 0 < 2 ^ bits) by (apply Z.pow_pos_nonneg; lia).
  pose proof (Z.div_mod (z + 2 ^ (bits - 1)) (2 ^ bits) ltac:(lia)) as Hd.
  replace ((z + 2 ^ (bits - 1)) mod 2 ^ bits - 2 ^ (bits - 1) - z)
    with (- ((z + 2 ^ (bits - 1)) / 2 ^ bits) * 2 ^ bits) by lia.
  apply Z.mod_mul. lia.
Qed.

Lemma wrap_exact_iff bits z : 0 < bits ->
  wrap bits z = z <-> - 2 ^ (bits - 1) <= z < 2 ^ (bits - 1).
Proof.
  intros Hb. split.
  - intros <-. apply wrap_range. exact Hb.
  - apply wrap_small. exact Hb.
Qed.

(** X8. [Add] never fails: each field of the result is a value of the
    field's type, differs from the exact sum by a multiple of 2^64,
    and is the exact sum exactly when that sum is a value of the
    type; otherwise the counter has wrapped around. *)
Theorem Add_wraps (s other : Stats) :
  (inInt (files (Add s other))
   /\ (files (Add s other) - (files s + files other)) mod 2 ^ 64 = 0
   /\ (files (Add s other) = files s + files other <-> inInt (files s + files other)))
  /\ (inInt (dirs (Add s other))
      /\ (dirs (Add s other) - (dirs s + dirs other)) mod 2 ^ 64 = 0
      /\ (dirs (Add s other) = dirs s + dirs other <-> inInt (dirs s + dirs other)))
  /\ (inInt64 (bytes (Add s other))
      /\ (bytes (Add s other) - (bytes s + bytes other)) mod 2 ^ 64 = 0
      /\ (bytes (Add s other) = bytes s + bytes other <-> inInt64 (bytes s + bytes other))).
Proof.
  unfold Add. cbn [files dirs bytes].
  split; [|split];
    (split; [apply (wrap_range 64); reflexivity|];
     split; [apply (wrap_congr 64); reflexivity | apply (wrap_exact_iff 64); reflexivity]).
Qed.

(** X9. The total the aggregator ends with is the exact field-wise sum
    of the stats received, wrapped once: sums that overflow on the
    way do not matter, and when the exact sums are values of the
    fields' types the total is the exact sum. *)
Theorem merge_total (l : list Stats) :
  merge zeroStats l = norm (ssum l)
  /\ (inInt (files (ssum l)) -> inInt (dirs (ssum l)) -> inInt64 (bytes (ssum l)) ->
      merge zeroStats l = ssum l).
Proof.
  split.
  - rewrite merge_ssum by reflexivity. rewrite splus_zero_l. reflexivity.
  - apply merge_exact.
Qed.

Lemma merge_total_witness :
  merge zeroStats [mkStats 1 0 10; mkStats 0 2 0; mkStats 1 0 20] = mkStats 2 2 30.
Proof.
  apply (proj2 (merge_total [mkStats 1 0 10; mkStats 0 2 0; mkStats 1 0 20]));
    vm_compute; split; (discriminate || reflexivity).
Defined.

(** ** Clean paths *)

Lemma string_append_cons x (a b : string) :
  String.append (String x a) b = String x (String.append a b).
Proof. reflexivity. Qed.

Lemma string_append_nil_l (b : string) : String.append EmptyString b = b.
Proof. reflexivity. Qed.

Lemma string_append_assoc (a b c : string) :
  String.append (String.append a b) c = String.append a (String.append b c).
Proof.
  induction a as [|x a IH]; [reflexivity|].
  rewrite !string_append_cons. f_equal. exact IH.
Qed.

Lemma string_append_inv_head (a b c : string) :
  String.append a b = String.append a c -> b = c.
Proof.
  induction a as [|x a IH]; [auto|].
  rewrite !string_append_cons. intros [= H]. auto.
Qed.

Lemma string_append_nil_r (a : string) : String.append a EmptyString = a.
Proof.
  induction a as [|x a IH]; [reflexivity|].
  rewrite string_append_cons. f_equal. exact IH.
Qed.

Lemma split_slash_cons s : exists e es, split_slash s = e :: es.
Proof.
  induction s as [|c s (e & es & IH)]; simpl; [eauto|].
  destruct (Ascii.eqb c slash); [eauto|]. rewrite IH. eauto.
Qed.

Lemma split_slash_app a b :
  split_slash (String.append a (String slash b)) = split_slash a ++ split_slash b.
Proof.
  induction a as [|c a IH].
  - reflexivity.
  - rewrite string_append_cons. simpl. rewrite IH.
    destruct (Ascii.eqb c slash); [reflexivity|].
    destruct (split_slash_cons a) as (e & es & ->). reflexivity.
Qed.

Lemma split_slash_plain n : has_slash n = false -> split_slash n = [n].
Proof.
  induction n as [|c n IH]; simpl; [reflexivity|].
  intros H. apply orb_false_elim in H as [Hc Hn]. rewrite Hc, (IH Hn). reflexivity.
Qed.

Lemma concat_cons2 sep (x y : string) l :
  String.concat sep (x :: y :: l)
  = String.append x (String.append sep (String.concat sep (y :: l))).
Proof. reflexivity. Qed.

Lemma concat_split s : String.concat "/" (split_slash s) = s.
Proof.
  induction s as [|c s IH]; simpl; [reflexivity|].
  destruct (split_slash_cons s) as (e & es & E). rewrite E in *.
  destruct (Ascii.eqb_spec c slash) as [->|_].
  - rewrite concat_cons2, IH. reflexivity.
  - destruct es as [|e' es].
    + simpl in *. rewrite IH. reflexivity.
    + rewrite concat_cons2 in *. rewrite string_append_cons, IH. reflexivity.
Qed.

Lemma split_concat (es : list string) : forall e,
  Forall (fun x => has_slash x = false) (e :: es) ->
  split_slash (String.concat "/" (e :: es)) = e :: es.
Proof.
  induction es as [|e' es IH]; intros e H.
  - apply split_slash_plain. apply Forall_inv in H. exact H.
  - rewrite concat_cons2.
    change (String.append "/" (String.concat "/" (e' :: es)))
      with (String slash (String.concat "/" (e' :: es))).
    rewrite split_slash_app, (IH e' (Forall_inv_tail H)).
    rewrite (split_slash_plain e (Forall_inv H)). reflexivity.
Qed.

Lemma concat_snoc (es : list string) (e n : string) :
  String.concat "/" ((e :: es) ++ [n])
  = String.append (String.concat "/" (e :: es)) (String slash n).
Proof.
  revert e. induction es as [|e' es IH]; intros e.
  - reflexivity.
  - change ((e :: e' :: es) ++ [n]) with (e :: ((e' :: es) ++ [n])).
    change ((e' :: es) ++ [n]) with (e' :: (es ++ [n])) at 1.
    rewrite !concat_cons2.
    change (e' :: es ++ [n]) with ((e' :: es) ++ [n]). rewrite IH.
    rewrite !string_append_assoc. reflexivity.
Qed.

Lemma plain_elem_facts e :
  plain_elem e = true ->
  String.eqb e "" = false /\ String.eqb e "." = false /\ String.eqb e ".." = false
  /\ has_slash e = false.
Proof.
  unfold plain_elem. rewrite !andb_true_iff, !negb_true_iff. tauto.
Qed.

Lemma plain_no_slash pl :
  forallb plain_elem pl = true -> Forall (fun x => has_slash x = false) pl.
Proof.
  intros H. apply Forall_forall. intros x Hx. rewrite forallb_forall in H.
  apply list_elem_of_In in Hx. apply (plain_elem_facts x (H x Hx)).
Qed.

Lemma dotdots_no_slash dds :
  Forall (fun e => e = "..") dds -> Forall (fun x => has_slash x = false) dds.
Proof. intros H. eapply Forall_impl; [exact H|]. intros x ->. reflexivity. Qed.

Lemma skip_dotdot_split es :
  exists dds, es = dds ++ skip_dotdot es /\ Forall (fun e => e = "..") dds.
Proof.
  induction es as [|e es (dds & IH & Hd)]; simpl.
  - exists []. split; [reflexivity | constructor].
  - destruct (String.eqb_spec e "..") as [->|_].
    + exists (".." :: dds). split; [simpl; f_equal; exact IH | constructor; auto].
    + exists []. split; [reflexivity | constructor].
Qed.

Lemma skip_dotdot_app dds l :
  Forall (fun e => e = "..") dds -> skip_dotdot (dds ++ l) = skip_dotdot l.
Proof. induction 1 as [|e dds -> _ IH]; [reflexivity | exact IH]. Qed.

Lemma skip_dotdot_plain l : forallb plain_elem l = true -> skip_dotdot l = l.
Proof.
  destruct l as [|e l]; [reflexivity|]. simpl. intros H.
  apply andb_prop in H as [He _].
  destruct (plain_elem_facts e He) as (_ & _ & -> & _). reflexivity.
Qed.

Lemma clean_elems_app r a : forall b acc,
  clean_elems r (a ++ b) acc = clean_elems r b (clean_elems r a acc).
Proof.
  induction a as [|e a IH]; intros b acc; simpl; [reflexivity|].
  destruct (String.eqb e "" || String.eqb e "."); [apply IH|].
  destruct (String.eqb e ".."); [|apply IH].
  destruct acc as [|top acc']; [destruct r; apply IH|].
  destruct (String.eqb top ".."); apply IH.
Qed.

Lemma clean_elems_plain r es : forall acc,
  forallb plain_elem es = true -> clean_elems r es acc = rev es ++ acc.
Proof.
  induction es as [|e es IH]; intros acc H; [reflexivity|].
  simpl in H. apply andb_prop in H as [He Hes].
  destruct (plain_elem_facts e He) as (H1 & H2 & H3 & _).
  simpl. rewrite H1, H2, H3. simpl. rewrite IH by exact Hes.
  rewrite <- app_assoc. reflexivity.
Qed.

Lemma clean_elems_dotdots dds : forall acc,
  Forall (fun e => e = "..") dds -> Forall (fun e => e = "..") acc ->
  clean_elems false dds acc = rev dds ++ acc.
Proof.
  induction dds as [|e dds IH]; intros acc Hd Ha; [reflexivity|].
  pose proof (Forall_inv Hd) as He. simpl in He. subst e.
  apply Forall_inv_tail in Hd. simpl. rewrite <- app_assoc. simpl.
  destruct Ha as [|top acc' -> Ha]; simpl.
  - apply IH; [exact Hd | repeat constructor].
  - apply IH; [exact Hd | repeat constructor; exact Ha].
Qed.

(** [Clean] keeps its stack clean. *)
Lemma clean_elems_stack r es : forall acc,
  Forall (fun x => has_slash x = false) es ->
  clean_stack r acc -> clean_stack r (clean_elems r es acc).
Proof.
  induction es as [|e es IH]; intros acc Hes Hacc; [exact Hacc|].
  pose proof (Forall_inv Hes) as He. apply Forall_inv_tail in Hes. simpl.
  destruct (String.eqb e "") eqn:E1; [apply IH; assumption|].
  destruct (String.eqb e ".") eqn:E2; [apply IH; assumption|]. simpl.
  destruct (String.eqb_spec e "..") as [->|E3].
  - destruct Hacc as (pl & dds & -> & Hpl & Hdd & Hr).
    destruct pl as [|t pl]; simpl.
    + destruct Hdd as [|d dds -> Hdd]; simpl.
      * destruct r; apply IH; try assumption.
        -- exists [], []. repeat split; auto.
        -- exists [], [".."]. repeat split; auto. discriminate.
      * apply IH; [assumption|]. exists [], (".." :: ".." :: dds).
        repeat split; auto. intros Ht. specialize (Hr Ht). discriminate.
    + simpl in Hpl. apply andb_prop in Hpl as [Ht Hpl].
      destruct (plain_elem_facts t Ht) as (_ & _ & -> & _).
      apply IH; [assumption|]. exists pl, dds. auto.
  - apply IH; [assumption|].
    destruct Hacc as (pl & dds & -> & Hpl & Hdd & Hr).
    exists (e :: pl), dds. repeat split; auto. simpl. rewrite Hpl, andb_true_r.
    unfold plain_elem. rewrite E1, E2, He. simpl.
    destruct (String.eqb_spec e ".."); [contradiction | reflexivity].
Qed.

Lemma split_slash_no_slash s : Forall (fun x => has_slash x = false) (split_slash s).
Proof.
  induction s as [|c s IH]; simpl; [repeat constructor|].
  destruct (Ascii.eqb c slash) eqn:E; [constructor; [reflexivity | exact IH]|].
  destruct (split_slash s) as [|e es]; [repeat constructor; simpl; rewrite E; reflexivity|].
  constructor; [|exact (Forall_inv_tail IH)].
  simpl. rewrite E. exact (Forall_inv IH).
Qed.

(** The elements of a clean root. *)
Lemma clean_root_elems p :
  clean_root p = true ->
  (is_rooted p = true
   /\ exists e es, split_slash p = EmptyString :: e :: es
                   /\ forallb plain_elem (e :: es) = true)
  \/ (is_rooted p = false /\ p <> EmptyString
      /\ exists dds pl, split_slash p = dds ++ pl
                        /\ Forall (fun e => e = "..") dds
                        /\ forallb plain_elem pl = true).
Proof.
  unfold clean_root. destruct p as [|c p]; simpl; [discriminate|].
  destruct (split_slash_cons p) as (e & es & E). rewrite E.
  destruct (Ascii.eqb c slash); simpl.
  - intros H. left. split; [reflexivity|]. exists e, es. auto.
  - intros H. right. split; [reflexivity|]. split; [discriminate|].
    destruct (skip_dotdot_split (String c e :: es)) as (dds & Hs & Hd).
    exists dds, (skip_dotdot (String c e :: es)). auto.
Qed.

Lemma clean_root_rooted (p : string) (e : string) (es : list string) :
  split_slash p = EmptyString :: e :: es -> forallb plain_elem (e :: es) = true ->
  clean_root p = true.
Proof. intros E H. unfold clean_root. rewrite E. exact H. Qed.

Lemma clean_root_relative (p : string) (dds pl : list string) :
  split_slash p = dds ++ pl -> dds ++ pl <> [] ->
  Forall (fun e => e = "..") dds -> forallb plain_elem pl = true ->
  clean_root p = true.
Proof.
  intros E Hne Hd Hp. unfold clean_root. rewrite E.
  destruct (dds ++ pl) as [|e es] eqn:El; [congruence|].
  assert (He : String.eqb e "" = false).
  { destruct Hd as [|d dds -> Hd]; simpl in El.
    - subst pl. simpl in Hp. apply andb_prop in Hp as [Hp _].
      apply (plain_elem_facts e Hp).
    - injection El as <- _. reflexivity. }
  rewrite He, <- El, skip_dotdot_app, skip_dotdot_plain by assumption. exact Hp.
Qed.

Lemma Clean_clean p : clean_root p = true -> Clean p = p.
Proof.
  intros H.
  destruct (clean_root_elems p H)
    as [(Hr & e & es & E & Hp)|(Hr & Hne & dds & pl & E & Hd & Hp)].
  - unfold Clean. rewrite Hr, E.
    change (clean_elems true (EmptyString :: e :: es) [])
      with (clean_elems true (e :: es) []).
    rewrite clean_elems_plain, app_nil_r, rev_involutive by exact Hp.
    transitivity (String.concat "/" (split_slash p)); [|apply concat_split].
    rewrite E, concat_cons2. reflexivity.
  - unfold Clean. rewrite Hr, E, clean_elems_app.
    rewrite (clean_elems_dotdots dds [] Hd) by constructor.
    rewrite clean_elems_plain, app_nil_r, rev_app_distr, !rev_involutive by exact Hp.
    rewrite <- E, concat_split.
    destruct (String.eqb_spec p "") as [->|_]; [contradiction | reflexivity].
Qed.

Lemma clean_root_step p n :
  clean_root p = true -> plain_elem n = true ->
  clean_root (String.append p (String slash n)) = true.
Proof.
  intros H Hn. destruct (plain_elem_facts n Hn) as (_ & _ & _ & Hs).
  pose proof (split_slash_app p n) as E. rewrite (split_slash_plain n Hs) in E.
  destruct (clean_root_elems p H)
    as [(_ & e & es & Ep & Hp)|(_ & _ & dds & pl & Ep & Hd & Hp)]; rewrite Ep in E.
  - apply (clean_root_rooted _ e (es ++ [n]) E).
    simpl in *. apply andb_prop in Hp as [-> Hp]. rewrite forallb_app, Hp. simpl.
    rewrite Hn. reflexivity.
  - rewrite <- app_assoc in E. apply (clean_root_relative _ dds (pl ++ [n]) E).
    + intros Hnil. apply app_eq_nil in Hnil as [_ Hnil].
      apply app_eq_nil in Hnil as [_ Hnil]. discriminate.
    + exact Hd.
    + rewrite forallb_app, Hp. simpl. rewrite Hn. reflexivity.
Qed.

(** Below a clean root [Join] puts a slash and the name at the end. *)
Lemma Join_clean p n :
  clean_root p = true -> plain_elem n = true ->
  Join p n = String.append p (String slash n).
Proof.
  intros H Hn. unfold Join.
  destruct (String.eqb_spec p "") as [->|_]; [discriminate H|].
  apply (Clean_clean (String.append p (String slash n))).
  apply clean_root_step; assumption.
Qed.

Lemma concat_snoc_nonempty (l : list string) (n : string) :
  String.eqb n "" = false -> String.eqb (String.concat "/" (l ++ [n])) "" = false.
Proof.
  intros Hn. destruct l as [|e es]; [exact Hn|].
  rewrite concat_snoc. destruct (String.concat "/" (e :: es)); reflexivity.
Qed.

(** What [Join] gives for a plain name, by the elements [Clean] keeps
    of the directory. *)
Lemma Join_elems r n :
  r <> EmptyString -> plain_elem n = true ->
  let out := String.concat "/"
               (rev (clean_elems (is_rooted r) (split_slash r) []) ++ [n]) in
  Join r n = if is_rooted r then String.append "/" out else out.
Proof.
  intros Hr Hn out. destruct (plain_elem_facts n Hn) as (H1 & H2 & H3 & Hs).
  unfold Join. destruct (String.eqb_spec r "") as [E|_]; [contradiction|].
  change (String.append "/" n) with (String slash n).
  unfold Clean.
  assert (Hrt : is_rooted (String.append r (String slash n)) = is_rooted r)
    by (destruct r; [contradiction | reflexivity]).
  rewrite Hrt, split_slash_app, (split_slash_plain n Hs), clean_elems_app.
  assert (Hst : forall acc, clean_elems (is_rooted r) [n] acc = n :: acc)
    by (intros acc; simpl; rewrite H1, H2, H3; reflexivity).
  rewrite Hst. simpl rev. fold out.
  destruct (is_rooted r); [reflexivity|].
  unfold out. rewrite concat_snoc_nonempty by exact H1. reflexivity.
Qed.

(** Whatever the directory, the paths [Join] gives for the plain names
    in it are one clean path with the name at its end. *)
Lemma Join_base r :
  exists B, forall n, plain_elem n = true ->
    Join r n = String.append B n /\ clean_root (String.append B n) = true.
Proof.
  assert (Hplain : forall n, plain_elem n = true -> clean_root n = true).
  { intros n Hn. destruct (plain_elem_facts n Hn) as (_ & _ & _ & Hs).
    apply (clean_root_relative n [] [n]); [apply split_slash_plain; exact Hs
      | discriminate | constructor | simpl; rewrite Hn; reflexivity]. }
  destruct (String.eqb_spec r "") as [->|Hr].
  { exists EmptyString. intros n Hn. rewrite string_append_nil_l.
    split; [|exact (Hplain n Hn)].
    destruct (plain_elem_facts n Hn) as (H1 & _).
    unfold Join. simpl. rewrite H1. apply Clean_clean, Hplain, Hn. }
  destruct (clean_elems_stack (is_rooted r) (split_slash r) [] (split_slash_no_slash r))
    as (pl & dds & Est & Hpl & Hdd & Hrt).
  { exists [], []. repeat split; auto. }
  assert (Hrev : forallb plain_elem (rev pl) = true).
  { rewrite forallb_forall in *. intros x Hx. apply Hpl, in_rev, Hx. }
  assert (Hdr : Forall (fun e => e = "..") (rev dds)) by (apply Forall_rev; exact Hdd).
  destruct (rev (clean_elems (is_rooted r) (split_slash r) [])) as [|e es] eqn:El.
  - exists (if is_rooted r then "/" else EmptyString). intros n Hn.
    rewrite (Join_elems r n Hr Hn), El. cbv zeta. simpl.
    destruct (plain_elem_facts n Hn) as (_ & _ & _ & Hs).
    destruct (is_rooted r); split; try reflexivity; [|exact (Hplain n Hn)].
    apply (clean_root_rooted _ n []); [|simpl; rewrite Hn; reflexivity].
    change (String.append "/" n) with (String.append EmptyString (String slash n)).
    rewrite split_slash_app, (split_slash_plain n Hs). reflexivity.
  - exists (String.append (if is_rooted r then "/" else EmptyString)
              (String.append (String.concat "/" (e :: es)) "/")).
    intros n Hn. destruct (plain_elem_facts n Hn) as (_ & _ & _ & Hs).
    rewrite (Join_elems r n Hr Hn), El. cbv zeta. rewrite concat_snoc.
    assert (Hels : e :: es = rev dds ++ rev pl)
      by (rewrite <- El, Est, rev_app_distr; reflexivity).
    assert (Hsp : split_slash (String.append (String.concat "/" (e :: es)) (String slash n))
                  = rev dds ++ (rev pl ++ [n])).
    { rewrite split_slash_app, (split_slash_plain n Hs), split_concat, Hels, <- app_assoc.
      - reflexivity.
      - rewrite Hels. apply Forall_app. split;
          [apply dotdots_no_slash; exact Hdr | apply plain_no_slash; exact Hrev]. }
    assert (Hpn : forallb plain_elem (rev pl ++ [n]) = true)
      by (rewrite forallb_app, Hrev; simpl; rewrite Hn; reflexivity).
    destruct (is_rooted r) eqn:Er.
    + split; [rewrite !string_append_assoc; reflexivity|].
      rewrite !string_append_assoc.
      change (String.append "/" n) with (String slash n).
      rewrite (Hrt eq_refl) in Hsp. cbn [rev app] in Hsp.
      destruct (rev pl ++ [n]) as [|x xs] eqn:Ex;
        [apply app_eq_nil in Ex as [_ Ex]; discriminate|].
      apply (clean_root_rooted _ x xs); [|exact Hpn].
      change (String.append "/" (String.append (String.concat "/" (e :: es)) (String slash n)))
        with (String.append EmptyString
                (String slash (String.append (String.concat "/" (e :: es)) (String slash n)))).
      rewrite split_slash_app, Hsp. reflexivity.
    + rewrite string_append_nil_l, !string_append_assoc.
      change (String.append "/" n) with (String slash n).
      split; [reflexivity|].
      apply (clean_root_relative _ (rev dds) (rev pl ++ [n]) Hsp); [|exact Hdr|exact Hpn].
      intros Hnil. apply app_eq_nil in Hnil as [_ Hnil].
      apply app_eq_nil in Hnil as [_ Hnil]. discriminate.
Qed.

Example clean_root_examples :
  clean_root "data" = true /\ clean_root "a/b" = true /\ clean_root "/tmp/x" = true
  /\ clean_root ".." = true /\ clean_root "../../x" = true
  /\ clean_root "." = false /\ clean_root "/" = false /\ clean_root "data/" = false
  /\ clean_root "./data" = false /\ clean_root "" = false /\ clean_root "a//b" = false
  /\ clean_root "a/../b" = false /\ clean_root "/.." = false.
Proof. vm_compute. repeat split. Qed.

Example Clean_examples :
  Clean "" = "." /\ Clean "/" = "/" /\ Clean "a//b/" = "a/b"
  /\ Clean "a/b/../c" = "a/c" /\ Clean "../../a" = "../../a" /\ Clean "/../a" = "/a"
  /\ Clean "a/.." = "." /\ Clean "a/../.." = ".."
  /\ Join "." "a.txt" = "a.txt" /\ Join "data/" "a.txt" = "data/a.txt"
  /\ Join "/" "a.txt" = "/a.txt" /\ Join "data" "a.txt" = "data/a.txt"
  /\ Join "./data" "sub" = "data/sub".
Proof. vm_compute. repeat split. Qed.

(** The tasks of a walk from the current directory are not below the
    string [.]: [Join] cleans it away. *)
Example walk_from_dot :
  tasks_of (fst (Walk "." scenario_tree walkFn)) = ["a.txt"; "b.txt"; "sub/c.txt"].
Proof. vm_compute. reflexivity. Qed.

(** ** The paths walk sends *)

(** Two names without a slash that begin the same path are the same. *)
Lemma no_slash_eq (a : string) : forall b s1 s2,
  has_slash a = false -> has_slash b = false ->
  (s1 = EmptyString \/ exists s', s1 = String slash s') ->
  (s2 = EmptyString \/ exists s', s2 = String slash s') ->
  String.append a s1 = String.append b s2 -> a = b.
Proof.
  induction a as [|x a IH]; intros [|y b] s1 s2 Ha Hb H1 H2 E;
    rewrite ?string_append_cons, ?string_append_nil_l in E; simpl in *.
  - reflexivity.
  - apply orb_false_elim in Hb as [Hy _].
    destruct H1 as [->|[s' ->]]; [discriminate|]. injection E as <- _.
    rewrite Ascii.eqb_refl in Hy. discriminate.
  - apply orb_false_elim in Ha as [Hx _].
    destruct H2 as [->|[s' ->]]; [discriminate|]. injection E as -> _.
    rewrite Ascii.eqb_refl in Hx. discriminate.
  - apply orb_false_elim in Ha as [_ Ha]. apply orb_false_elim in Hb as [_ Hb].
    injection E as -> E. f_equal. exact (IH b s1 s2 Ha Hb H1 H2 E).
Qed.

Lemma under_step path name p :
  under (String.append path (String slash name)) p -> under path p.
Proof.
  intros (rest & -> & _). exists (String slash (String.append name rest)). split.
  - rewrite string_append_assoc. reflexivity.
  - right. eauto.
Qed.

Lemma file_paths_under node : forall path p,
  clean_root path = true -> well_named node = true ->
  p ∈ file_paths path node -> under path p.
Proof.
  induction node as [| | | |kids IH] using fsnode_ind; intros path p Hr Hw Hp;
    simpl in Hp; try (apply elem_of_nil in Hp; destruct Hp).
  - apply list_elem_of_singleton in Hp as ->. exists EmptyString.
    rewrite string_append_nil_r. auto.
  - simpl in Hw. apply andb_prop in Hw as [_ Hk].
    induction IH as [|[name child] kids Hc _ IHk]; simpl in Hp, Hk.
    + apply elem_of_nil in Hp. destruct Hp.
    + apply andb_prop in Hk as [Hh Hk]. apply andb_prop in Hh as [Hn Hwc].
      apply elem_of_app in Hp as [Hp|Hp]; [|auto].
      rewrite (Join_clean path name Hr Hn) in Hp.
      apply under_step with name.
      apply Hc; [apply clean_root_step; assumption | exact Hwc | exact Hp].
Qed.

(** Whatever the root, the walk of a tree whose directories hold
    plain, distinct names gives no path twice. *)
Lemma file_paths_NoDup node : forall path,
  well_named node = true -> NoDup (file_paths path node).
Proof.
  induction node as [| | | |kids IH] using fsnode_ind; intros path Hw; simpl;
    try apply NoDup_nil_2.
  - apply NoDup_singleton.
  - simpl in Hw. apply andb_prop in Hw as [Hnd Hk]. apply bool_decide_eq_true in Hnd.
    destruct (Join_base path) as [B HB].
    induction IH as [|[name child] kids Hc _ IHk]; simpl in *.
    + apply NoDup_nil_2.
    + apply NoDup_cons in Hnd as [Hname Hnd].
      apply andb_prop in Hk as [Hh Hk]. apply andb_prop in Hh as [Hn Hwc].
      apply NoDup_app. split; [apply Hc; assumption|]. split; [|apply IHk; assumption].
      intros p Hp1 Hp2.
      destruct (HB name Hn) as [E1 Hr1]. rewrite E1 in Hp1.
      apply (file_paths_under child _ _ Hr1 Hwc) in Hp1 as (s1 & Hs1 & T1).
      apply list_elem_of_In, List.in_flat_map in Hp2 as ([name' child'] & Hin & Hp2).
      apply list_elem_of_In in Hp2. simpl in Hp2.
      assert (Hk' : plain_elem name' = true /\ well_named child' = true).
      { rewrite forallb_forall in Hk. specialize (Hk _ Hin). simpl in Hk.
        apply andb_prop in Hk. exact Hk. }
      destruct Hk' as [Hn' Hwc'].
      destruct (HB name' Hn') as [E2 Hr2]. rewrite E2 in Hp2.
      apply (file_paths_under child' _ _ Hr2 Hwc') in Hp2 as (s2 & Hs2 & T2).
      rewrite Hs1 in Hs2. rewrite !string_append_assoc in Hs2.
      apply string_append_inv_head in Hs2.
      destruct (plain_elem_facts name Hn) as (_ & _ & _ & Hs).
      destruct (plain_elem_facts name' Hn') as (_ & _ & _ & Hs').
      pose proof (no_slash_eq name name' s1 s2 Hs Hs' T1 T2 Hs2) as ->.
      apply Hname. apply list_elem_of_fmap. exists (name', child'). split; [reflexivity|].
      apply list_elem_of_In. exact Hin.
Qed.

(** The regular files among the entries of a tree, failures or not. *)
Lemma files_in_entries_all node : forall path,
  files_in (entries path node) = file_paths path node.
Proof.
  induction node as [| | | |kids IH] using fsnode_ind; intros path;
    simpl in *; try reflexivity.
  induction IH as [|[name child] kids Hc _ IHk]; simpl in *; [reflexivity|].
  rewrite files_in_app, Hc. f_equal. apply IHk.
Qed.

Lemma visited_prefix vs : exists rest, vs = visited vs ++ rest.
Proof.
  induction vs as [|v vs [rest IH]]; simpl; [exists []; reflexivity|].
  destruct (visit_error v).
  - exists (v :: vs). reflexivity.
  - exists rest. simpl. f_equal. exact IH.
Qed.

(** The tasks of a walk are regular files of the tree, a first part of
    them in walk order. *)
Lemma walk_tasks_prefix root tree :
  exists rest,
    file_paths root tree = files_in (visited (entries root tree)) ++ rest.
Proof.
  destruct (visited_prefix (entries root tree)) as [rest E].
  exists (files_in rest). rewrite <- files_in_app, <- E. symmetry.
  apply files_in_entries_all.
Qed.

(** X10. What [filepath.Walk] has the callback of [walk] do: a task
    for each regular file and a count for each directory among the
    entries that come before the first failure, in walk order; the
    callback returns that failure and the walk ends with it; the
    callback never looks at a missing [FileInfo]. When the directories
    hold plain, distinct names, no task is sent twice, whatever the
    root; and when the root is a clean path, which [filepath.Join]
    keeps in front, every task is the root or a path below it. *)
Theorem walk_tasks (root : string) (tree : fsnode) :
  let vs := entries root tree in
  let run := Walk root tree walkFn in
  tasks_of (fst run) = files_in (visited vs)
  /\ counts_of (fst run) = dirs_in (visited vs)
  /\ snd run = first_error vs
  /\ (WNil ∉ fst run)
  /\ (well_named tree = true -> NoDup (tasks_of (fst run)))
  /\ (clean_root root = true -> well_named tree = true ->
      forall p, p ∈ tasks_of (fst run) -> under root p).
Proof.
  intros vs run. unfold run. rewrite Walk_entries. fold vs.
  destruct (until_error_walkFn vs (entries_wf _ _)) as (H1 & H2 & H3 & H4).
  destruct (walk_tasks_prefix root tree) as [rest E]. fold vs in E.
  repeat split; auto.
  - intros Hw. rewrite H1.
    pose proof (file_paths_NoDup tree root Hw) as Hnd.
    rewrite E in Hnd. apply NoDup_app in Hnd. tauto.
  - intros Hr Hw p Hp. rewrite H1 in Hp. apply (file_paths_under tree); auto.
    rewrite E. apply elem_of_app. auto.
Qed.

Lemma walk_tasks_witness :
  NoDup (tasks_of (fst (Walk "." scenario_tree walkFn)))
  /\ (forall p, p ∈ tasks_of (fst (Walk "data" scenario_tree walkFn)) -> under "data" p).
Proof.
  split.
  - apply (walk_tasks "." scenario_tree). vm_compute. reflexivity.
  - apply (walk_tasks "data" scenario_tree); vm_compute; reflexivity.
Defined.

(** The tasks received are a first part of the tasks of the walk. *)
Lemma tasks_taken_prefix w s :
  reachable w s ->
  exists rest,
    files_in (visited (entries (w_dir w) (w_tree w))) = tasks_taken (st_trace s) ++ rest.
Proof.
  intros Hs. pose proof (walk_tasks_sent w s Hs) as H.
  rewrite tasks_sent_walk_program in H.
  rewrite (t_tasks _ _ (reachable_TInv w s Hs)) in H. rewrite <- H, <- app_assoc. eauto.
Qed.

(** X11. No file is read twice: the tasks the readers have received
    in a reachable state are regular files of the tree; when the
    directories hold plain, distinct names they are different paths,
    whatever the root; and when the root is a clean path, which
    [filepath.Join] keeps in front, each is the root or a path below
    it. *)
Theorem no_file_read_twice (w : World) (s : state) :
  reachable w s ->
  (forall p, p ∈ tasks_taken (st_trace s) -> p ∈ file_paths (w_dir w) (w_tree w))
  /\ (well_named (w_tree w) = true -> NoDup (tasks_taken (st_trace s)))
  /\ (clean_root (w_dir w) = true -> well_named (w_tree w) = true ->
      forall p, p ∈ tasks_taken (st_trace s) -> under (w_dir w) p).
Proof.
  intros Hs. destruct (tasks_taken_prefix w s Hs) as [r1 E1].
  destruct (walk_tasks_prefix (w_dir w) (w_tree w)) as [r2 E2].
  assert (Hin : forall p, p ∈ tasks_taken (st_trace s) ->
                          p ∈ file_paths (w_dir w) (w_tree w)).
  { intros p Hp. rewrite E2, E1. apply elem_of_app. left. apply elem_of_app. auto. }
  split; [exact Hin|]. split.
  - intros Hw. pose proof (file_paths_NoDup (w_tree w) (w_dir w) Hw) as Hnd.
    rewrite E2, E1 in Hnd.
    apply NoDup_app in Hnd as [Hnd _]. apply NoDup_app in Hnd. tauto.
  - intros Hr Hw p Hp. exact (file_paths_under _ _ _ Hr Hw (Hin p Hp)).
Qed.

Lemma no_file_read_twice_witness :
  let s := exec (mkWorld 2 "." scenario_tree scenario_io) all_goroutines 60 init in
  tasks_taken (st_trace s) = ["a.txt"; "b.txt"; "sub/c.txt"]
  /\ NoDup (tasks_taken (st_trace s)).
Proof.
  intros s. split; [vm_compute; reflexivity|].
  apply (no_file_read_twice (mkWorld 2 "." scenario_tree scenario_io) s).
  - exact (exec_reachable _ all_goroutines 60 init (reach_init _)).
  - vm_compute. reflexivity.
Defined.

(** ** formatBytes *)

Example formatBytes_examples :
  formatBytes 0 = "0B" /\ formatBytes 1024 = "1024B"
  /\ formatBytes 1025 = "1.001 KiB" /\ formatBytes 1088 = "1.062 KiB"
  /\ formatBytes 1536 = "1.500 KiB" /\ formatBytes 1048576 = "1024.000 KiB"
  /\ formatBytes 1572864 = "1.500 MiB" /\ formatBytes 5368709120 = "5.000 GiB"
  /\ formatBytes 18446744073709551615 = "16777216.000 TiB".
Proof. vm_compute. repeat split. Qed.

Lemma float64_exact c : 0 <= c < 2 ^ 53 -> float64_of_uint64 c = c.
Proof.
  intros Hc. unfold float64_of_uint64.
  destruct (Z.eq_dec c 0) as [->|Hz]; [reflexivity|].
  assert (Z.log2 c < 53) by (apply Z.log2_lt_pow2; lia).
  destruct (Z.leb_spec (Z.log2 c - 52) 0); [reflexivity | lia].
Qed.

Lemma float64_near c :
  0 <= c < 2 ^ 64 -> Z.abs (float64_of_uint64 c - c) <= 2 ^ 10.
Proof.
  intros Hc. unfold float64_of_uint64.
  destruct (Z.leb_spec (Z.log2 c - 52) 0) as [He|He].
  { rewrite Z.sub_diag. simpl. lia. }
  assert (Hpos : 0 < c).
  { destruct (Z.eq_dec c 0) as [->|]; [vm_compute in He; discriminate | lia]. }
  assert (Hl : Z.log2 c < 64) by (apply Z.log2_lt_pow2; lia).
  set (e := Z.log2 c - 52) in *.
  assert (H2 : 2 ^ e = 2 * 2 ^ (e - 1)).
  { rewrite <- Z.pow_succ_r by lia. f_equal. lia. }
  assert (Hh : 0 < 2 ^ (e - 1) <= 2 ^ 10).
  { split; [apply Z.pow_pos_nonneg; lia | apply Z.pow_le_mono_r; lia]. }
  pose proof (Z.div_mod c (2 ^ e) ltac:(lia)) as Hd.
  pose proof (Z.mod_pos_bound c (2 ^ e) ltac:(lia)) as Hm.
  set (q := c / 2 ^ e) in *. set (r := c mod 2 ^ e) in *.
  rewrite H2 in *. set (h := 2 ^ (e - 1)) in *.
  destruct (Z.ltb_spec h r); simpl.
  - lia.
  - destruct (Z.eqb_spec r h); simpl; [destruct (Z.odd q)|]; lia.
Qed.

Lemma thousandths_spec num den :
  0 < den -> 0 <= num ->
  2 * Z.abs (den * thousandths num den - 1000 * num) <= den
  /\ (den <= num -> 1000 <= thousandths num den)
  /\ (num <= 1024 * den -> thousandths num den <= 1024000).
Proof.
  intros Hden Hnum. unfold thousandths.
  pose proof (Z.div_mod (1000 * num) den ltac:(lia)) as Hd.
  pose proof (Z.mod_pos_bound (1000 * num) den ltac:(lia)) as Hm.
  assert (Hlo : den <= num -> 1000 <= 1000 * num / den)
    by (intros; apply Z.div_le_lower_bound; lia).
  assert (Hhi : num <= 1024 * den -> 1000 * num / den <= 1024000)
    by (intros; apply Z.div_le_upper_bound; lia).
  set (q := 1000 * num / den) in *. set (r := (1000 * num) mod den) in *.
  assert (Hup : num <= 1024 * den -> 0 < r -> q + 1 <= 1024000).
  { intros H1 H2. specialize (Hhi H1).
    destruct (Z.eq_dec q 1024000) as [E|E]; [rewrite E in Hd; lia | lia]. }
  destruct (Z.ltb_spec den (2 * r)); simpl.
  - repeat split; try lia; intros; apply Hup; lia.
  - destruct (Z.eqb_spec (2 * r) den); simpl; [destruct (Z.odd q)|];
      repeat split; try lia; intros; apply Hup; lia.
Qed.

(** X12. [formatBytes] takes the largest unit the count is strictly
    above: up to 1024 it prints the count itself followed by [B], and
    above 2^10, 2^20, 2^30 and 2^40 it prints the count in KiB, MiB,
    GiB and TiB with three decimals, so exactly 2^20 is printed as
    1024.000 KiB. The number printed is the count as a [float64] in
    that unit, rounded to the nearest thousandth: below TiB it is
    between 1.000 and 1024.000, and up to 2^53 bytes it is within half
    a thousandth of the count; above, the conversion to [float64] is
    off by 1024 at most. *)
Theorem formatBytes_units (c : Z) :
  0 <= c < 2 ^ 64 ->
  let b := float64_of_uint64 c in
  (c < 2 ^ 53 -> b = c) /\ Z.abs (b - c) <= 2 ^ 10
  /\ (c <= 2 ^ 10 -> formatBytes c = String.append (showZ c) "B")
  /\ (forall k unit,
        (k, unit) ∈ [(10, " KiB"); (20, " MiB"); (30, " GiB")] ->
        2 ^ k < c <= 2 ^ (k + 10) ->
        let m := thousandths b (2 ^ k) in
        formatBytes c = String.append (Sprintf_f3 m) unit
        /\ 1000 <= m <= 1024000
        /\ 2 * Z.abs (2 ^ k * m - 1000 * c) <= 2 ^ k)
  /\ (2 ^ 40 < c ->
      let m := thousandths b (2 ^ 40) in
      formatBytes c = String.append (Sprintf_f3 m) " TiB"
      /\ 1000 <= m
      /\ 2 * Z.abs (2 ^ 40 * m - 1000 * b) <= 2 ^ 40).
Proof.
  intros Hc b.
  pose proof (float64_near c Hc) as Hnear. fold b in Hnear.
  assert (Hex : c < 2 ^ 53 -> b = c) by (intros; apply float64_exact; lia).
  split; [exact Hex|]. split; [exact Hnear|].
  unfold formatBytes. fold b.
  change (Z.shiftl 1 40) with (2 ^ 40). change (Z.shiftl 1 30) with (2 ^ 30).
  change (Z.shiftl 1 20) with (2 ^ 20). change (Z.shiftl 1 10) with (2 ^ 10).
  change (2 ^ 64) with 18446744073709551616 in *.
  change (2 ^ 53) with 9007199254740992 in *.
  change (2 ^ 40) with 1099511627776 in *. change (2 ^ 30) with 1073741824 in *.
  change (2 ^ 20) with 1048576 in *. change (2 ^ 10) with 1024 in *.
  split; [|split].
  - intros H.
    repeat match goal with
           | |- context [?a <? c] => destruct (Z.ltb_spec a c); try lia
           end.
    reflexivity.
  - intros k unit Hk Hr.
    repeat (apply elem_of_cons in Hk as [Hk|Hk]); try (apply elem_of_nil in Hk; destruct Hk);
      injection Hk as -> ->; simpl in Hr.
    all: rewrite Hex by lia.
    all: repeat match goal with
         | |- context [?a <? ?x] => destruct (Z.ltb_spec a x); try lia
         end.
    all: match goal with
         | |- context [thousandths ?x ?d] =>
             destruct (thousandths_spec x d ltac:(lia) ltac:(lia)) as (T1 & T2 & T3)
         end.
    all: split; [reflexivity|]; split; [split; [apply T2 | apply T3]; lia | exact T1].
  - intros H. destruct (Z.ltb_spec 1099511627776 c); [|lia].
    destruct (thousandths_spec b 1099511627776 ltac:(lia) ltac:(lia)) as (T1 & T2 & _).
    split; [reflexivity|]. split; [apply T2; lia | exact T1].
Qed.

Lemma formatBytes_units_witness :
  formatBytes 1024 = String.append (showZ 1024) "B".
Proof.
  refine (proj1 (proj2 (proj2 (formatBytes_units 1024 _))) _).
  - vm_compute. split; [discriminate | reflexivity].
  - vm_compute. discriminate.
Defined.

(** ** The exit status of main and what it reports *)



Example main_absent_under_a_file :
  let out := mkOutPathOS None false false ENOTDIR ENOTDIR in
  main ["data"] 2 out zeroStats "0.1" 0 = (0, out)
  /\ main_log ["data"] 2 out zeroStats "0.1" 0
     = [MsgTraversing "data" 2; MsgErrorOpening ENOTDIR;
        MsgSummary 0 0 (formatBytes 0) "0.1" (formatBytes 0);
        MsgErrorClosing EINVAL].
Proof. split; reflexivity. Qed.

Example main_missing_directory :
  let out := mkOutPathOS None false false ENOENT ENOENT in
  main ["data"] 2 out zeroStats "0.1" 0 = (2, out)
  /\ main_log ["data"] 2 out zeroStats "0.1" 0
     = [MsgTraversing "data" 2; MsgCreating; MsgErrorCreating ENOENT].
Proof. split; reflexivity. Qed.

(** ** The progress lines are held back *)

Lemma spaced_weaken interval a b l : a <= b -> spaced interval b l -> spaced interval a l.
Proof. destruct l as [|t l]; simpl; [auto|]. intros ? [? ?]. split; [lia | assumption]. Qed.

Lemma monotone_weaken a b l : a <= b -> monotone b l -> monotone a l.
Proof. destruct l as [|t l]; simpl; [auto|]. intros ? (? & ? & ?). repeat split; auto; lia. Qed.

Lemma spaced_count interval T ts : forall prev,
  0 <= interval -> spaced interval prev ts ->
  (forall t, t ∈ ts -> t <= T) -> prev <= T ->
  prev + Z.of_nat (length ts) * interval <= T.
Proof.
  induction ts as [|t ts IH]; intros prev Hi Hs HT Hp; simpl length.
  - lia.
  - destruct Hs as [H1 H2].
    assert (Ht : t <= T) by (apply HT; apply list_elem_of_here).
    specialize (IH t Hi H2 (fun u Hu => HT u (list_elem_of_further _ _ _ Hu)) Ht).
    rewrite Nat2Z.inj_succ, Z.mul_succ_l. lia.
Qed.

Lemma progress_lines_sublist interval ticks : forall last,
  sublist (progress_lines interval last ticks) ticks.
Proof.
  induction ticks as [|t ticks IH]; intros last; simpl; [constructor|].
  destruct (interval <? tk_since t - last); [apply sublist_skip | apply sublist_cons]; apply IH.
Qed.

(** X15. The progress lines of a reader are held back by
    [reportingInterval]: while the clock does not go back, a line is
    printed only when more than the interval has passed since the
    reader started or since its last line, so a reader prints at most
    one line per interval, for files in the order it takes them; with
    a negative interval it prints a line for every file. *)
Theorem progress_lines_spaced (interval last : Z) (ticks : list tick) :
  monotone last ticks ->
  let printed := progress_lines interval last ticks in
  spaced interval last (map tk_since printed)
  /\ sublist printed ticks
  /\ (0 <= interval -> forall T,
        (forall t, t ∈ ticks -> tk_since t <= T) -> last <= T ->
        last + Z.of_nat (length printed) * interval <= T)
  /\ (interval < 0 -> printed = ticks).
Proof.
  intros Hm printed.
  assert (Hs : spaced interval last (map tk_since printed)).
  { subst printed. revert last Hm.
    induction ticks as [|t ticks IH]; intros last Hm; simpl; [exact I|].
    destruct Hm as (H1 & H2 & H3).
    destruct (Z.ltb_spec interval (tk_since t - last)); simpl.
    - split; [lia|]. apply spaced_weaken with (tk_now t); [exact H2 | apply IH; exact H3].
    - apply IH. apply monotone_weaken with (tk_now t); [lia | exact H3]. }
  split; [exact Hs|]. split; [apply progress_lines_sublist|]. split.
  - intros Hi T HT HlT.
    pose proof (spaced_count interval T (map tk_since printed) last Hi Hs) as Hc.
    rewrite length_map in Hc. apply Hc; [|exact HlT].
    intros t Ht. apply list_elem_of_fmap in Ht as (tk & -> & Htk). apply HT.
    eapply elem_of_sublist; [exact Htk | apply progress_lines_sublist].
  - intros Hi. clear Hs. subst printed. revert last Hm.
    induction ticks as [|t ticks IH]; intros last Hm; simpl; [reflexivity|].
    destruct Hm as (H1 & H2 & H3).
    destruct (Z.ltb_spec interval (tk_since t - last)); [|lia].
    f_equal. apply IH. exact H3.
Qed.

Lemma progress_lines_spaced_witness :
  let ticks := [mkTick "a" 5 5; mkTick "b" 12 13; mkTick "c" 20 21; mkTick "d" 30 30] in
  spaced 10 0 (map tk_since (progress_lines 10 0 ticks)).
Proof.
  intros ticks.
  apply (progress_lines_spaced 10 0 ticks). simpl. lia.
Defined.

Example progress_lines_run :
  map tk_file
    (progress_lines 10 0
       [mkTick "a" 5 5; mkTick "b" 12 13; mkTick "c" 20 21; mkTick "d" 30 30])
  = ["b"; "d"].
Proof. reflexivity. Qed.

(** ** The whole program on a tree without failures *)

(** X16. The whole program on a tree without failures whose files are
    all readable, with a reader and an output file that exists or can
    be created: under every schedule [traverse] returns, and [main]
    then writes one summary line, with the number of regular files,
    the number of directories and [formatBytes] of the bytes of the
    tree, and ends with status 0. *)
Theorem prb_reports_totals (w : World) (out : OutPath) (sec : string) (bps : Z) :
  1 <= w_workers w ->
  healthy (w_tree w) = true ->
  (forall p, p ∈ file_paths (w_dir w) (w_tree w) -> readable (w_io w p)) ->
  inInt (count_files (w_tree w)) ->
  inInt (count_dirs (w_tree w)) ->
  0 <= total_bytes (w_io w) (w_dir w) (w_tree w) < 2 ^ 63 ->
  out_content out <> None \/ out_creatable out = true ->
  always_returns w
    (fun _ r =>
       fst (main [w_dir w] (w_workers w) out r sec bps) = 0
       /\ List.filter is_summary (main_log [w_dir w] (w_workers w) out r sec bps)
          = [MsgSummary (count_files (w_tree w)) (count_dirs (w_tree w))
               (formatBytes (total_bytes (w_io w) (w_dir w) (w_tree w)))
               sec (formatBytes bps)])
    init.
Proof.
  intros Hn Hh Hr HF HD HB Hout.
  eapply always_returns_mono; [|apply traverse_returns; exact Hn].
  intros s r E Hs. cbv beta.
  rewrite (returned_expected w s r Hn Hs E), expected_healthy by assumption.
  unfold norm. cbn [files dirs bytes].
  rewrite (wrapInt_small _ HF), (wrapInt_small _ HD).
  rewrite (wrapInt64_small (total_bytes _ _ _)) by (unfold inInt64; lia).
  split; [apply main_exit_0; exact Hout|].
  assert (Hu : uint64 (total_bytes (w_io w) (w_dir w) (w_tree w))
               = total_bytes (w_io w) (w_dir w) (w_tree w)).
  { unfold uint64. apply Z.mod_small. lia. }
  destruct out as [[c|] [|] [|] [| | | |] ce]; simpl; rewrite ?Hu; try reflexivity.
  all: destruct Hout as [H|H]; [destruct H; reflexivity | discriminate].
Qed.

Lemma prb_reports_totals_witness :
  always_returns scenario
    (fun _ r =>
       fst (main ["data"] 2 (mkOutPath None true true) r "0.25" 240) = 0
       /\ List.filter is_summary
            (main_log ["data"] 2 (mkOutPath None true true) r "0.25" 240)
          = [MsgSummary 3 2 (formatBytes 60) "0.25" (formatBytes 240)])
    init.
Proof.
  apply (prb_reports_totals scenario (mkOutPath None true true) "0.25" 240).
  - vm_compute. discriminate.
  - reflexivity.
  - intros p Hp. vm_compute in Hp.
    repeat (apply elem_of_cons in Hp as [->|Hp]); try (repeat split; reflexivity).
    apply elem_of_nil in Hp. destruct Hp.
  - vm_compute. split; [discriminate | reflexivity].
  - vm_compute. split; [discriminate | reflexivity].
  - vm_compute. split; [discriminate | reflexivity].
  - right. reflexivity.
Defined.
